(** * build-script.py: gyb generation, synchronisation, pruning and verification

    A shallow embedding of the generation core of [build-script.py]
    (swift-syntax): [generate_single_gyb_file], [generate_gyb_files_helper],
    [generate_syntax_node_template_gyb_files], [generate_gyb_files],
    [clear_gyb_files_from_previous_run], [verify_generated_files],
    [check_generated_files_match] and the command entry point
    [generate_source_code_command].

    The script is a sequence of file-system operations and subprocess calls.
    It is embedded as a state-and-exception monad over a model of the
    operating system:
    - the file system is a finite map from path to node (regular file with
      content and modification time, or directory);
    - a logical clock stamps every file write, so that a rewritten file is
      told apart from an untouched one by its modification time;
    - [subprocess] runs one of the external tools the script invokes ([rm],
      [rsync --checksum], [diff --recursive], the python interpreter running
      gyb), each modelled by its documented behaviour; the template renderer
      itself is a parameter;
    - Python exceptions are values of [exn]; a raised exception keeps the
      state reached so far. *)

From Stdlib Require Import ZArith Lia Ascii.
From stdpp Require Import gmap strings list fin_maps.

Local Open Scope Z_scope.
Local Open Scope nat_scope.

(** ** Strings as Python uses them *)

Module Str.

Definition slash : ascii := "/"%char.
Definition dot : ascii := "."%char.
Definition dash : ascii := "-"%char.
Definition space : ascii := " "%char.
Definition dquote : ascii := ascii_of_nat 34.
Definition backslash : ascii := ascii_of_nat 92.

(** [c in s] for a one-character [c]. *)
Fixpoint contains (c : ascii) (s : string) : bool :=
  match s with
  | EmptyString => false
  | String a s' => if decide (a = c) then true else contains c s'
  end.

(** [s.startswith(p)] *)
Fixpoint startswith (s p : string) : bool :=
  match p, s with
  | EmptyString, _ => true
  | String b p', String a s' => if decide (a = b) then startswith s' p' else false
  | String _ _, EmptyString => false
  end.

(** The rest of [s] after the prefix [p], when [s] starts with [p]. *)
Fixpoint strip_prefix (p s : string) : option string :=
  match p, s with
  | EmptyString, _ => Some s
  | String b p', String a s' => if decide (a = b) then strip_prefix p' s' else None
  | String _ _, EmptyString => None
  end.

(** [s.endswith(suf)]: some tail of [s] is [suf]. *)
Fixpoint endswith (s suf : string) : bool :=
  if decide (s = suf) then true
  else match s with
       | EmptyString => false
       | String _ s' => endswith s' suf
       end.

Fixpoint take (n : nat) (s : string) : string :=
  match n, s with
  | S n', String a s' => String a (take n' s')
  | _, _ => EmptyString
  end.

(** The slice [s[:-n]] for [n > 0]. *)
Definition drop_last (n : nat) (s : string) : string :=
  take (String.length s - n) s.

(** [s.replace('"', '\\"')] *)
Fixpoint escape_quotes (s : string) : string :=
  match s with
  | EmptyString => EmptyString
  | String a s' =>
      if decide (a = dquote)
      then String backslash (String dquote (escape_quotes s'))
      else String a (escape_quotes s')
  end.

(** [" ".join(l)] *)
Fixpoint join_spaces (l : list string) : string :=
  match l with
  | [] => EmptyString
  | [x] => x
  | x :: l' => x +:+ String space (join_spaces l')
  end.

End Str.

(** ** Paths ([os.path]) *)

Module Path.

Definition slash_free (n : string) : bool := negb (Str.contains Str.slash n).

(** A file name as a directory listing returns it. *)
Definition is_name (n : string) : bool :=
  negb (bool_decide (n = EmptyString)) && slash_free n.

Fixpoint ends_with_slash (s : string) : bool :=
  match s with
  | EmptyString => false
  | String a EmptyString => bool_decide (a = Str.slash)
  | String _ s' => ends_with_slash s'
  end.

(** What [os.path.join a] puts in front of a relative second component. *)
Definition dir_prefix (a : string) : string :=
  if decide (a = EmptyString) then EmptyString
  else if ends_with_slash a then a
  else a +:+ "/".

(** [os.path.join(a, b)] (posixpath). *)
Definition join (a b : string) : string :=
  if Str.startswith b "/" then b else dir_prefix a +:+ b.

(** The path cut at its last slash: what precedes it ([None] when the path
    has no slash) and what follows it. *)
Fixpoint split (p : string) : option string * string :=
  match p with
  | EmptyString => (None, EmptyString)
  | String a p' =>
      match split p' with
      | (Some h, t) => (Some (String a h), t)
      | (None, t) =>
          if decide (a = Str.slash) then (Some EmptyString, t)
          else (None, String a t)
      end
  end.

Definition dirname (p : string) : option string := fst (split p).
Definition basename (p : string) : string := snd (split p).

(** A base name that the shell pattern [.*] matches. *)
Definition hidden_name (n : string) : bool := Str.startswith n ".".

(** Some component of the relative path [r] is matched by [.*]. *)
Fixpoint hidden_from (at_start : bool) (r : string) : bool :=
  match r with
  | EmptyString => false
  | String a r' =>
      if decide (a = Str.slash) then hidden_from true r'
      else if at_start && bool_decide (a = Str.dot) then true
      else hidden_from false r'
  end.
Definition hidden (r : string) : bool := hidden_from true r.

End Path.

(** ** The operating-system state *)

(** A file-system node: a regular file with its content and modification
    time, or a directory. *)
Inductive node : Type :=
  | File (content : string) (mtime : nat)
  | Dir.

Global Instance node_eq_dec : EqDecision node.
Proof. solve_decision. Defined.

(** What [diff] looks at: the kind of the node and the bytes of a file, not
    its modification time. *)
Definition node_data (o : option node) : option (option string) :=
  match o with
  | Some (File c _) => Some (Some c)
  | Some Dir => Some None
  | None => None
  end.

(** The world outside the script:
    - [fs]: the file system, path to node;
    - [clock]: the logical time, stamped on each write;
    - [rng]: how many candidate names [tempfile.mkdtemp] has drawn;
    - [copied]: the destinations [rsync] transferred a file to, in order. *)
Record world : Type := World {
  fs : gmap string node;
  clock : nat;
  rng : nat;
  copied : list string
}.

Definition set_fs (f : gmap string node → gmap string node) (w : world) : world :=
  World (f (fs w)) (clock w) (rng w) (copied w).
Definition tick (w : world) : world :=
  World (fs w) (S (clock w)) (rng w) (copied w).
Definition next_rng (w : world) : world :=
  World (fs w) (clock w) (S (rng w)) (copied w).
Definition log_copy (dst : string) (w : world) : world :=
  World (fs w) (clock w) (rng w) (copied w ++ [dst]).

(** Writing a regular file stamps it with the current time. *)
Definition write_file (p c : string) (w : world) : world :=
  tick (set_fs (insert p (File c (clock w))) w).

Definition is_dir (m : gmap string node) (p : string) : bool :=
  bool_decide (m !! p = Some Dir).

(** The directory that is to hold [p] exists.  The root and the working
    directory always do. *)
Definition parent_is_dir (m : gmap string node) (p : string) : bool :=
  match Path.dirname p with
  | None => true
  | Some d => if decide (d = EmptyString) then true else is_dir m d
  end.

(** A new entry can be created at [p]: [p] names an entry (it does not end
    in a slash) of an existing directory. *)
Definition can_create (m : gmap string node) (p : string) : bool :=
  parent_is_dir m p && negb (bool_decide (Path.basename p = EmptyString)).

(** A regular file can be written at [p]: it is there already, or it can be
    created. *)
Definition can_write (m : gmap string node) (p : string) : bool :=
  match m !! p with
  | Some (File _ _) => true
  | Some Dir => false
  | None => can_create m p
  end.

(** The state of a run: the world, what the script printed, and every
    subprocess it ran with its exit status. *)
Record state : Type := State {
  world_of :> world;
  stdout : list string;
  stderr : list string;
  procs : list (list string * Z)
}.

Definition set_world (w : world) (s : state) : state :=
  State w (stdout s) (stderr s) (procs s).
Definition put_stdout (l : string) (s : state) : state :=
  State (world_of s) (stdout s ++ [l]) (stderr s) (procs s).
Definition put_stderr (l : string) (s : state) : state :=
  State (world_of s) (stdout s) (stderr s ++ [l]) (procs s).
Definition log_proc (cmd : list string) (rc : Z) (s : state) : state :=
  State (world_of s) (stdout s) (stderr s) (procs s ++ [(cmd, rc)]).

(** ** Exceptions and the script monad *)

Inductive exn : Type :=
  | CalledProcessError (returncode : Z) (cmd : list string) (output : option string)
  | SystemExit (code : Z)
  | OSError (filename : string).

Inductive outcome (A : Type) : Type :=
  | Ok (a : A)
  | Raise (e : exn).
Arguments Ok {A} a.
Arguments Raise {A} e.

Definition M (A : Type) : Type := state → outcome A * state.

Definition ret {A} (a : A) : M A := λ s, (Ok a, s).
Definition raise {A} (e : exn) : M A := λ s, (Raise e, s).
Definition bind {A B} (m : M A) (k : A → M B) : M B :=
  λ s, match m s with
       | (Ok a, s') => k a s'
       | (Raise e, s') => (Raise e, s')
       end.
Definition modify (f : state → state) : M unit := λ s, (Ok tt, f s).

(** An operation of the operating system: it sees and changes the world
    only. *)
Definition os_op {A} (f : world → outcome A * world) : M A :=
  λ s, let '(r, w) := f s in (r, set_world w s).

Declare Scope py_scope.
Delimit Scope py_scope with py.
Notation "x <- m ;; k" := (bind m (λ x, k))
  (at level 20, m at level 99, k at level 200, only parsing) : py_scope.
Notation "m ;; k" := (bind m (λ _, k))
  (at level 100, k at level 200, only parsing, right associativity) : py_scope.
Local Open Scope py_scope.

(** [try: m except CalledProcessError as e: h e] *)
Definition try_called_process_error {A} (m : M A) (h : exn → M A) : M A :=
  λ s, match m s with
       | (Raise (CalledProcessError rc cmd out), s') =>
           h (CalledProcessError rc cmd out) s'
       | r => r
       end.

(** [for x in xs: body x] *)
Fixpoint for_each {A} (xs : list A) (body : A → M unit) : M unit :=
  match xs with
  | [] => ret tt
  | x :: xs' => body x ;; for_each xs' body
  end.

(** [with ThreadPoolExecutor() as executor: executor.map(f, xs)], the
    iterator that [map] returns being dropped.  Every unit is submitted and
    the [with] block waits for all of them; the exception a unit raises is
    stored in its future and is re-raised only when the result iterator is
    consumed, which never happens.  The pool is modelled by the interleaving
    that runs the units one after the other in list order. *)
Fixpoint executor_map_discarded {A} (f : A → M unit) (xs : list A) : M unit :=
  match xs with
  | [] => ret tt
  | x :: xs' =>
      λ s, let '(_, s') := f x s in executor_map_discarded f xs' s'
  end.

(** The arguments of the [generate-source-code] command
    ([argparse.Namespace]) that the gyb pipeline reads. *)
Record Namespace : Type := {
  args_gyb_exec : string;
  args_verbose : bool;
  args_add_source_locations : bool;
  args_gyb_only : bool
}.

(** The arguments that [add_default_build_arguments] declares, which the
    [build] command reads. *)
Module Build.
Record Namespace : Type := {
  toolchain : string;
  build_dir : option string;
  multiroot_data_file : option string;
  release : bool;
  verbose : bool;
  disable_sandbox : bool
}.
End Build.

(** [class Builder] *)
Record Builder : Type := {
  swiftpm_call : list string;
  verbose : bool;
  toolchain : string
}.

(** ** A small package, for examples *)

Module Demo.

Definition package_dir : string := "/w/swift-syntax".
Definition tmp : string := "/tmp".
Definition gyb_exec : string := "/w/swift/utils/gyb".

(** A renderer: it fails on the template body [bad]; otherwise it copies
    the body, followed by the flags other than [--line-directive=], and
    puts a source-location comment in front unless [--line-directive=] is
    passed. *)
Definition render (path body : string) (flags : list string) : option string :=
  if decide (body = "bad") then None
  else
    Some ((if bool_decide ("--line-directive=" ∈ flags) then EmptyString
           else "// ###sourceLocation(file: " +:+ path +:+ ") ")
          +:+ body
          +:+ Str.join_spaces (filter (λ f, f ≠ "--line-directive=") flags)).

Definition nothing_denied (p : string) : bool := false.

Definition temp_name (k : nat) : string :=
  "tmp" +:+ String (ascii_of_nat (48 + k)) EmptyString.

Definition no_code_generation (args : Namespace) (destination : string)
  : M unit := ret tt.

(** The package tree without templates. *)
Definition tree : list (string * node) :=
  [ ("/w", Dir);
    ("/w/swift-syntax", Dir);
    ("/w/swift-syntax/Sources", Dir);
    ("/w/swift-syntax/Sources/SwiftSyntax", Dir);
    ("/w/swift-syntax/Sources/SwiftSyntaxBuilder", Dir);
    ("/w/swift-syntax/Sources/SwiftSyntaxParser", Dir);
    ("/w/swift-syntax/Sources/SwiftSyntaxBuilderGeneration", Dir);
    ("/w/swift-syntax/Sources/SwiftSyntax/SyntaxNodes.swift.gyb.template",
     File "nodes" 0);
    ("/w/swift", Dir);
    ("/w/swift/utils", Dir);
    ("/w/swift/utils/gyb", File "gyb" 0);
    ("/tmp", Dir) ].

Definition make_state (l : list (string * node)) : state :=
  State (World (list_to_map (l ++ tree)) 1 0 []) [] [] [].

Definition args (add_source_locations : bool) : Namespace :=
  {| args_gyb_exec := gyb_exec; args_verbose := false;
     args_add_source_locations := add_source_locations;
     args_gyb_only := true |}.

(** Two templates, the second of which fails to render. *)
Definition one_bad : state :=
  make_state
    [ ("/w/swift-syntax/Sources/SwiftSyntax/A.swift.gyb", File "a" 0);
      ("/w/swift-syntax/Sources/SwiftSyntax/B.swift.gyb", File "bad" 0) ].

(** One template, nothing generated yet. *)
Definition fresh : state :=
  make_state
    [ ("/w/swift-syntax/Sources/SwiftSyntax/A.swift.gyb", File "a" 0) ].

(** One template, and in the destination a file left by a template that
    is gone. *)
Definition stale : state :=
  make_state
    [ ("/w/swift-syntax/Sources/SwiftSyntax/A.swift.gyb", File "a" 0);
      ("/w/swift-syntax/Sources/SwiftSyntax/gyb_generated", Dir);
      ("/w/swift-syntax/Sources/SwiftSyntax/gyb_generated/Old.swift",
       File "old" 0) ].

Definition old_swift : string :=
  "/w/swift-syntax/Sources/SwiftSyntax/gyb_generated/Old.swift".

Definition old_denied (p : string) : bool := bool_decide (p = old_swift).

(** Names for [tempfile.mkdtemp] that hold no slash. *)
Definition plain_name (k : nat) : string :=
  match k with
  | 0 => "tmp0"
  | 1 => "tmp1"
  | 2 => "tmp2"
  | _ => "tmp3"
  end.

(** The template of the package [fresh]. *)
Definition a_template : string :=
  "/w/swift-syntax/Sources/SwiftSyntax/A.swift.gyb".

End Demo.

(** ** The environment and the external tools *)

Section Script.

(** The directory that holds the script ([PACKAGE_DIR]) and the directory
    [tempfile.gettempdir()] returns. *)
Variable PACKAGE_DIR : string.
Variable tempdir : string.

(** The template renderer (gyb): from the path of the template, its body
    and the flags that follow the output path on the command line, the
    rendered text, or [None] when the renderer exits with a non-zero
    status.  A failing renderer is taken to leave the file system as it
    was. *)
Variable gyb : string → string → list string → option string.

(** The files [rm] is refused to delete (permissions). *)
Variable rm_denied : string → bool.

(** The sequence of random names [tempfile.mkdtemp] draws from. *)
Variable mkdtemp_name : nat → string.

(** [sys.executable] *)
Definition sys_executable : string := "/usr/bin/python3".

Definition resolve (cwd : option string) (p : string) : string :=
  match cwd with
  | Some d => Path.join d p
  | None => p
  end.

(** [rm name], run in [cwd].  A name that starts with a dash is taken for
    options and refused; a directory is refused; so is a missing file. *)
Definition proc_rm (cwd : option string) (args : list string) (w : world)
  : Z * world :=
  match args with
  | [name] =>
      if Str.startswith name "-" then (1%Z, w)
      else
        let p := resolve cwd name in
        match fs w !! p with
        | Some (File _ _) =>
            if rm_denied p then (1%Z, w) else (0%Z, set_fs (delete p) w)
        | _ => (1%Z, w)
        end
  | _ => (1%Z, w)
  end.

(** [rsync] brings the regular file [dst] to content [c]: a file whose
    checksum already agrees is skipped and keeps its modification time;
    otherwise the content is transferred and the file gets the time of the
    transfer (no [--times]). *)
Definition rsync_transfer (c dst : string) (w : world) : Z * world :=
  match fs w !! dst with
  | Some (File c' _) =>
      if decide (c = c') then (0%Z, w)
      else (0%Z, log_copy dst (write_file dst c w))
  | Some Dir => (23%Z, w)
  | None =>
      if can_create (fs w) dst
      then (0%Z, log_copy dst (write_file dst c w))
      else (11%Z, w)
  end.

(** [rsync --checksum src dst] for a single source.  A destination that is
    a directory receives the file under the source's base name. *)
Definition proc_rsync (args : list string) (w : world) : Z * world :=
  match args with
  | ["--version"] => (0%Z, w)
  | ["--checksum"; src; dst] =>
      match fs w !! src with
      | Some (File c _) =>
          if is_dir (fs w) dst
          then rsync_transfer c (Path.join dst (Path.basename src)) w
          else rsync_transfer c dst w
      | Some Dir => (0%Z, w)
      | None => (23%Z, w)
      end
  | _ => (1%Z, w)
  end.

(** One direction of the tree comparison: every visible path below [a]
    has a node of the same kind and content at the same place below [b]. *)
Definition covered (m : gmap string node) (a b : string)
    (e : string * node) : bool :=
  match Str.strip_prefix (Path.dir_prefix a) e.1 with
  | Some r =>
      if bool_decide (r = EmptyString) || Path.hidden r then true
      else bool_decide (node_data (m !! (Path.dir_prefix b +:+ r))
                        = node_data (Some e.2))
  | None => true
  end.

Definition same_tree (m : gmap string node) (a b : string) : bool :=
  forallb (covered m a b) (map_to_list m)
  && forallb (covered m b a) (map_to_list m).

(** [diff --recursive --exclude .* --context=0 a b] on two directories:
    status 0 when the trees agree on every path no component of which is
    matched by [.*], status 1 when they differ, status 2 on trouble. *)
Definition proc_diff (args : list string) (w : world) : Z * world :=
  match args with
  | ["--recursive"; "--exclude"; ".*"; "--context=0"; a; b] =>
      if is_dir (fs w) a && is_dir (fs w) b
      then (if same_tree (fs w) a b then 0%Z else 1%Z, w)
      else (2%Z, w)
  | _ => (2%Z, w)
  end.

(** [python gyb_exec gyb_file -o out flags...] *)
Definition proc_gyb (args : list string) (w : world) : Z * world :=
  match args with
  | script :: gyb_file :: "-o" :: out :: flags =>
      match fs w !! script with
      | Some (File _ _) =>
          match fs w !! gyb_file with
          | Some (File body _) =>
              match gyb gyb_file body flags with
              | Some c =>
                  if can_write (fs w) out
                  then (0%Z, write_file out c w)
                  else (1%Z, w)
              | None => (1%Z, w)
              end
          | _ => (1%Z, w)
          end
      | _ => (2%Z, w)
      end
  | _ => (2%Z, w)
  end.

Definition run_process (cmd : list string) (cwd : option string) (w : world)
  : Z * world :=
  match cmd with
  | prog :: args =>
      if decide (prog = "rm") then proc_rm cwd args w
      else if decide (prog = "rsync") then proc_rsync args w
      else if decide (prog = "diff") then proc_diff args w
      else if decide (prog = sys_executable) then proc_gyb args w
      else (127%Z, w)
  | [] => (127%Z, w)
  end.

(** Running a subprocess to completion; the run is recorded. *)
Definition spawn (cmd : list string) (cwd : option string) : M Z :=
  λ s, let '(rc, w) := run_process cmd cwd s in
       (Ok rc, log_proc cmd rc (set_world w s)).

(** ** The Python library *)

Definition print (l : string) : M unit := modify (put_stdout l).

(** [os.path.exists] *)
Definition os_path_exists (p : string) : M bool :=
  os_op (λ w, (Ok (bool_decide (is_Some (fs w !! p))), w)).

(** The names of the entries of directory [d]. *)
Definition entry_name (d : string) (e : string * node) : option string :=
  match Str.strip_prefix (Path.dir_prefix d) e.1 with
  | Some n => if Path.is_name n then Some n else None
  | None => None
  end.

Definition entries (m : gmap string node) (d : string) : list string :=
  omap (entry_name d) (map_to_list m).

(** [os.listdir] *)
Definition os_listdir (d : string) : M (list string) :=
  os_op (λ w, if is_dir (fs w) d then (Ok (entries (fs w) d), w)
              else (Raise (OSError d), w)).

(** The proper ancestors of a path: its prefixes that end before a slash. *)
Fixpoint ancestors_from (acc p : string) : list string :=
  match p with
  | EmptyString => []
  | String a p' =>
      (if decide (a = Str.slash)
       then (if decide (acc = EmptyString) then [] else [acc])
       else [])
      ++ ancestors_from (acc +:+ String a EmptyString) p'
  end.
Definition ancestors (p : string) : list string := ancestors_from EmptyString p.

(** Creating the directories [ds] in turn, those that are missing. *)
Definition mkdir_step (acc : option (gmap string node)) (d : string)
  : option (gmap string node) :=
  match acc with
  | Some m =>
      match m !! d with
      | None => if can_create m d then Some (<[d := Dir]> m) else None
      | Some Dir => Some m
      | Some (File _ _) => None
      end
  | None => None
  end.

Definition mkdir_p (m : gmap string node) (ds : list string)
  : option (gmap string node) :=
  foldl mkdir_step (Some m) ds.

(** [os.makedirs(p)]: creates the missing ancestors, then [p] itself. *)
Definition os_makedirs (p : string) : M unit :=
  os_op (λ w,
    match fs w !! p with
    | Some _ => (Raise (OSError p), w)
    | None =>
        match mkdir_p (fs w) (ancestors p ++ [p]) with
        | Some m' => (Ok tt, set_fs (λ _, m') w)
        | None => (Raise (OSError p), w)
        end
    end).

(** [tempfile.mkdtemp()]: draws names until one is free in the temporary
    directory, at most [TMP_MAX] times, and creates that directory. *)
Definition TMP_MAX : nat := 100 * 100.

Fixpoint mkdtemp_loop (fuel : nat) (w : world) : outcome string * world :=
  match fuel with
  | O => (Raise (OSError tempdir), w)
  | S fuel' =>
      let d := Path.join tempdir (mkdtemp_name (rng w)) in
      let w1 := next_rng w in
      match fs w1 !! d with
      | Some _ => mkdtemp_loop fuel' w1
      | None =>
          if can_create (fs w1) d
          then (Ok d, set_fs (insert d Dir) w1)
          else (Raise (OSError d), w1)
      end
  end.

Definition tempfile_mkdtemp : M string := os_op (mkdtemp_loop TMP_MAX).

(** [subprocess.check_call]: the output of the child goes to the terminal
    and is not captured, so the exception carries no output.  A working
    directory that does not exist makes the call itself fail. *)
Definition enter_cwd (cwd : option string) : M unit :=
  os_op (λ w, match cwd with
              | Some d =>
                  if is_dir (fs w) d then (Ok tt, w) else (Raise (OSError d), w)
              | None => (Ok tt, w)
              end).

Definition subprocess_check_call (cmd : list string) (cwd : option string)
  : M unit :=
  enter_cwd cwd ;;
  rc <- spawn cmd cwd ;;
  if decide (rc = 0%Z) then ret tt
  else raise (CalledProcessError rc cmd None).

(** ** Constants *)

Definition SOURCES_DIR : string := Path.join PACKAGE_DIR "Sources".
Definition SWIFTSYNTAX_DIR : string := Path.join SOURCES_DIR "SwiftSyntax".
Definition SWIFTSYNTAXBUILDER_DIR : string :=
  Path.join SOURCES_DIR "SwiftSyntaxBuilder".
Definition SWIFTSYNTAXPARSER_DIR : string :=
  Path.join SOURCES_DIR "SwiftSyntaxParser".
Definition SWIFTSYNTAXBUILDERGENERATION_DIR : string :=
  Path.join SOURCES_DIR "SwiftSyntaxBuilderGeneration".

(** The dictionary [BASE_KIND_FILES], in insertion order. *)
Definition BASE_KIND_FILES : list (string * string) :=
  [ ("Decl", "SyntaxDeclNodes.swift");
    ("Expr", "SyntaxExprNodes.swift");
    ("Pattern", "SyntaxPatternNodes.swift");
    ("Stmt", "SyntaxStmtNodes.swift");
    ("Syntax", "SyntaxNodes.swift");
    ("Type", "SyntaxTypeNodes.swift") ].

(** ** Helpers *)

Definition printerr (message : string) : M unit := modify (put_stderr message).

Definition fatal_error (message : string) : M unit :=
  printerr message ;; raise (SystemExit 1).

Definition escapeCmdArg (arg : string) : string :=
  if Str.contains Str.dquote arg || Str.contains Str.space arg
  then String Str.dquote (Str.escape_quotes arg +:+ String Str.dquote EmptyString)
  else arg.

Definition escapeCmd (cmd : list string) : string :=
  Str.join_spaces (escapeCmdArg <$> cmd).

(** What printing [error.output] shows. *)
Definition str_of_output (o : option string) : string :=
  match o with
  | Some out => out
  | None => "None"
  end.

Definition fail_for_called_process_error (succinct_description : string)
    (error : exn) : M unit :=
  match error with
  | CalledProcessError _ cmd output =>
      printerr ("FAIL: " +:+ succinct_description) ;;
      printerr ("Executing: " +:+ escapeCmd cmd) ;;
      printerr (str_of_output output) ;;
      raise (SystemExit 1)
  | e => raise e
  end.

Definition call (cmd : list string) (verbose : bool) : M Z :=
  (if verbose then print (escapeCmd cmd) else ret tt) ;;
  spawn cmd None.

Definition check_call (cmd : list string) (cwd : option string)
    (verbose : bool) : M unit :=
  (if verbose then print (escapeCmd cmd) else ret tt) ;;
  subprocess_check_call cmd cwd.

(** ** Generating gyb files *)

Definition nl : string := String (ascii_of_nat 10) EmptyString.

Definition check_gyb_exec (gyb_exec : string) : M unit :=
  exists_ <- os_path_exists gyb_exec ;;
  if negb exists_ then
    fatal_error (nl +:+ "Error: Could not find gyb." +:+ nl
      +:+ "Looking at '" +:+ gyb_exec +:+ "'." +:+ nl +:+ nl
      +:+ "Make sure you have the main swift repo checked out next to the swift-syntax"
      +:+ nl +:+ "repository." +:+ nl
      +:+ "Refer to README.md for more information." +:+ nl)
  else ret tt.

Definition check_rsync : M unit :=
  rc <- call ["rsync"; "--version"] false ;;
  if negb (bool_decide (rc = 0%Z))
  then fatal_error "Error: Could not find rsync."
  else ret tt.

Definition line_directive_flags (add_source_locations : bool) : list string :=
  if add_source_locations then [] else ["--line-directive="].

Definition gyb_command (gyb_exec gyb_file output_file_name temp_files_dir : string)
    (add_source_locations : bool) (additional_gyb_flags : list string)
  : list string :=
  [ sys_executable; gyb_exec; gyb_file; "-o";
    Path.join temp_files_dir output_file_name ]
  ++ line_directive_flags add_source_locations
  ++ additional_gyb_flags.

Definition rsync_command (output_file_name destination temp_files_dir : string)
  : list string :=
  [ "rsync"; "--checksum";
    Path.join temp_files_dir output_file_name;
    Path.join destination output_file_name ].

Definition generate_single_gyb_file
    (gyb_exec gyb_file output_file_name destination temp_files_dir : string)
    (add_source_locations : bool) (additional_gyb_flags : list string)
    (verbose : bool) : M unit :=
  check_call (gyb_command gyb_exec gyb_file output_file_name temp_files_dir
                add_source_locations additional_gyb_flags) None verbose ;;
  check_call (rsync_command output_file_name destination temp_files_dir)
    None verbose.

Definition make_dir_if_needed (path : string) : M unit :=
  exists_ <- os_path_exists path ;;
  if negb exists_ then os_makedirs path else ret tt.

Definition clear_gyb_files_from_previous_run
    (sources_dir destination_dir : string) (verbose : bool) : M unit :=
  previous <- os_listdir destination_dir ;;
  for_each previous (λ previous_gyb_gen_file,
    if Str.endswith previous_gyb_gen_file ".swift" then
      let gyb_file := Path.join sources_dir (previous_gyb_gen_file +:+ ".gyb") in
      exists_ <- os_path_exists gyb_file ;;
      if negb exists_ then
        check_call ["rm"; previous_gyb_gen_file] (Some destination_dir) verbose
      else ret tt
    else ret tt).

Definition generate_gyb_file (sources_dir destination_dir temp_files_dir
    gyb_exec : string) (add_source_locations verbose : bool)
    (gyb_file : string) : M unit :=
  let gyb_file_path := Path.join sources_dir gyb_file in
  let output_file_name := Str.drop_last 4 gyb_file in
  generate_single_gyb_file gyb_exec gyb_file_path output_file_name
    destination_dir temp_files_dir add_source_locations [] verbose.

Definition generate_gyb_files_helper (sources_dir : string)
    (destination_dir : option string) (gyb_exec : string)
    (add_source_locations verbose : bool) : M unit :=
  let temp_files_dir := tempdir in
  make_dir_if_needed temp_files_dir ;;
  let destination_dir :=
    match destination_dir with
    | None => Path.join sources_dir "gyb_generated"
    | Some d => d
    end in
  make_dir_if_needed destination_dir ;;
  clear_gyb_files_from_previous_run sources_dir destination_dir verbose ;;
  files <- os_listdir sources_dir ;;
  let gyb_files := filter (λ file, Str.endswith file ".gyb" = true) files in
  executor_map_discarded
    (generate_gyb_file sources_dir destination_dir temp_files_dir gyb_exec
       add_source_locations verbose)
    gyb_files.

Definition generate_syntax_node_template_gyb_files
    (destination_dir : option string) (gyb_exec : string)
    (add_source_locations verbose : bool) : M unit :=
  let temp_files_dir := tempdir in
  make_dir_if_needed temp_files_dir ;;
  let destination_dir :=
    match destination_dir with
    | None => Path.join SWIFTSYNTAX_DIR "gyb_generated"
    | Some d => d
    end in
  let template_destination := Path.join destination_dir "syntax_nodes" in
  make_dir_if_needed template_destination ;;
  previous <- os_listdir template_destination ;;
  for_each previous (λ previous_gyb_gen_file,
    if Str.endswith previous_gyb_gen_file ".swift" then
      if negb (bool_decide (previous_gyb_gen_file ∈ BASE_KIND_FILES.*2)) then
        check_call ["rm"; previous_gyb_gen_file] (Some template_destination)
          verbose
      else ret tt
    else ret tt) ;;
  for_each BASE_KIND_FILES (λ kv,
    let base_kind := kv.1 in
    let output_file_name := kv.2 in
    let gyb_file := Path.join SWIFTSYNTAX_DIR "SyntaxNodes.swift.gyb.template" in
    generate_single_gyb_file gyb_exec gyb_file output_file_name
      template_destination temp_files_dir add_source_locations
      ["-DEMIT_KIND=" +:+ base_kind] verbose).

Definition generate_gyb_files (gyb_exec : string)
    (verbose add_source_locations : bool)
    (swiftsyntax_destination swiftsyntaxbuilder_destination
     swiftsyntaxparser_destination swiftsyntaxbuildergenerator_destination
     : option string) : M unit :=
  print "** Generating gyb Files **" ;;
  check_gyb_exec gyb_exec ;;
  check_rsync ;;
  generate_gyb_files_helper SWIFTSYNTAX_DIR swiftsyntax_destination
    gyb_exec add_source_locations verbose ;;
  generate_gyb_files_helper SWIFTSYNTAXBUILDER_DIR
    swiftsyntaxbuilder_destination gyb_exec add_source_locations verbose ;;
  generate_gyb_files_helper SWIFTSYNTAXPARSER_DIR
    swiftsyntaxparser_destination gyb_exec add_source_locations verbose ;;
  generate_gyb_files_helper SWIFTSYNTAXBUILDERGENERATION_DIR
    swiftsyntaxbuildergenerator_destination gyb_exec add_source_locations
    verbose ;;
  generate_syntax_node_template_gyb_files swiftsyntax_destination gyb_exec
    add_source_locations verbose ;;
  print "** Done Generating gyb Files **".

(** ** Verification *)

Definition diff_command (self_generated_dir user_generated_dir : string)
  : list string :=
  [ "diff"; "--recursive"; "--exclude"; ".*"; "--context=0";
    self_generated_dir; user_generated_dir ].

Definition check_generated_files_match
    (self_generated_dir user_generated_dir : string) : M unit :=
  check_call (diff_command self_generated_dir user_generated_dir) None false.

Definition verify_generated_files (gyb_exec : string) (verbose : bool)
  : M unit :=
  let user_swiftsyntax_generated_dir :=
    Path.join SWIFTSYNTAX_DIR "gyb_generated" in
  let user_swiftsyntaxbuilder_generated_dir :=
    Path.join SWIFTSYNTAXBUILDER_DIR "gyb_generated" in
  let user_swiftsyntaxparser_generated_dir :=
    Path.join SWIFTSYNTAXPARSER_DIR "gyb_generated" in
  let user_swiftsyntaxbuildergeneration_generated_dir :=
    Path.join SWIFTSYNTAXBUILDERGENERATION_DIR "gyb_generated" in
  self_swiftsyntax_generated_dir <- tempfile_mkdtemp ;;
  self_swiftsyntaxbuilder_generated_dir <- tempfile_mkdtemp ;;
  self_swiftsyntaxparser_generated_dir <- tempfile_mkdtemp ;;
  self_swiftsyntaxbuildergeneration_generated_dir <- tempfile_mkdtemp ;;
  generate_gyb_files gyb_exec verbose false
    (Some self_swiftsyntax_generated_dir)
    (Some self_swiftsyntaxbuilder_generated_dir)
    (Some self_swiftsyntaxparser_generated_dir)
    (Some self_swiftsyntaxbuildergeneration_generated_dir) ;;
  check_generated_files_match self_swiftsyntax_generated_dir
    user_swiftsyntax_generated_dir ;;
  check_generated_files_match self_swiftsyntaxbuilder_generated_dir
    user_swiftsyntaxbuilder_generated_dir ;;
  check_generated_files_match self_swiftsyntaxparser_generated_dir
    user_swiftsyntaxparser_generated_dir ;;
  check_generated_files_match self_swiftsyntaxbuildergeneration_generated_dir
    user_swiftsyntaxbuildergeneration_generated_dir.

(** ** The [generate-source-code] command *)

(** The SwiftPM-driven generation step ([run_code_generation]) runs the
    package manager of the toolchain; it is outside the gyb pipeline and
    left abstract. *)
Variable run_code_generation : Namespace → string → M unit.

Definition generate_source_code_command (args : Namespace) : M unit :=
  try_called_process_error
    (generate_gyb_files (args_gyb_exec args) (args_verbose args)
       (args_add_source_locations args) None None None None)
    (fail_for_called_process_error "Generating .gyb files failed") ;;
  try_called_process_error
    (if negb (args_gyb_only args) then
       let destination := Path.join SWIFTSYNTAXBUILDER_DIR "generated" in
       run_code_generation args destination
     else ret tt)
    (fail_for_called_process_error
       "Source generation using SwiftSyntaxBuilder failed").

(** ** Building SwiftSyntax *)

Section building.

(** [platform.system()] and [os.environ]. *)
Variable platform_system : string.
Variable os_environ : gmap string string.

(** [os.path.realpath], which reads the links of the file system. *)
Variable os_path_realpath : world → string → string.

(** A run of the package manager of the toolchain, given its command line
    and its environment: the exit status and the world it leaves, or
    nothing when the program cannot be started. *)
Variable swiftpm : list string → gmap string string → world → option (Z * world).

Definition realpath (path : option string) : M (option string) :=
  match path with
  | None => ret None
  | Some p => os_op (λ w, (Ok (Some (os_path_realpath w p)), w))
  end.

(** [if value: call.extend([flag, value])] for an optional string: [None]
    and the empty string add nothing. *)
Definition extend_if_set (flag : string) (value : option string)
  : list string :=
  match value with
  | Some (String a v) => [flag; String a v]
  | _ => []
  end.

Definition get_swiftpm_invocation (toolchain action : string)
    (build_dir multiroot_data_file : option string) (release : bool)
  : list string :=
  let swift_exec := Path.join (Path.join toolchain "bin") "swift" in
  [swift_exec; action]
  ++ ["--package-path"; PACKAGE_DIR]
  ++ (if bool_decide (platform_system ≠ "Darwin")
      then ["--enable-test-discovery"] else [])
  ++ (if release then ["--configuration"; "release"] else [])
  ++ extend_if_set "--build-path" build_dir
  ++ extend_if_set "--multiroot-data-file" multiroot_data_file.

(** [check_call] with its [env] argument, for a command of the package
    manager.  When the program cannot be started, [subprocess] raises
    [OSError] for it and no process has run. *)
Definition check_call_env (cmd : list string) (env : gmap string string)
    (verbose : bool) : M unit :=
  (if verbose then print (escapeCmd cmd) else ret tt) ;;
  rc <- (λ s, match swiftpm cmd env s with
              | Some (rc, w) => (Ok rc, log_proc cmd rc (set_world w s))
              | None => (Raise (OSError (default EmptyString (head cmd))), s)
              end) ;;
  if decide (rc = 0%Z) then ret tt
  else raise (CalledProcessError rc cmd None).

Definition Builder_init (toolchain_ : string)
    (build_dir multiroot_data_file : option string)
    (release verbose_ disable_sandbox : bool) : Builder :=
  {| swiftpm_call :=
       get_swiftpm_invocation toolchain_ "build" build_dir
         multiroot_data_file release
       ++ (if disable_sandbox then ["--disable-sandbox"] else [])
       ++ (if verbose_ then ["--verbose"] else []);
     verbose := verbose_;
     toolchain := toolchain_ |}.

Definition Builder_build (self : Builder) (product_name : string) : M unit :=
  print ("** Building " +:+ product_name +:+ " **") ;;
  let command := swiftpm_call self ++ ["--product"; product_name] in
  let env :=
    <["SWIFT_SYNTAX_PARSER_LIB_SEARCH_PATH" :=
        Path.join (Path.join (Path.join (toolchain self) "lib") "swift")
          "macosx"]>
      (<["SWIFTCI_USE_LOCAL_DEPS" := "1"]>
         (<["SWIFT_BUILD_SCRIPT_ENVIRONMENT" := "1"]> os_environ)) in
  check_call_env command env (verbose self).

(** ** The [build] command *)

Definition build_command (args : Build.Namespace) : M unit :=
  try_called_process_error
    (build_dir <- realpath (Build.build_dir args) ;;
     let builder :=
       Builder_init (Build.toolchain args) build_dir
         (Build.multiroot_data_file args) (Build.release args)
         (Build.verbose args) (Build.disable_sandbox args) in
     Builder_build builder "SwiftSyntax" ;;
     Builder_build builder "SwiftSyntaxParser" ;;
     Builder_build builder "SwiftSyntaxBuilder" ;;
     Builder_build builder "SwiftSyntaxBuilderGeneration")
    (fail_for_called_process_error "Building SwiftSyntax failed").

End building.

(** ** Vocabulary of the specifications *)

(** The changes a run makes to the file system, one entry at a time:
    a regular file is removed, a regular file is written, a directory is
    created. *)
Inductive act : Type :=
  | ARm (p : string)
  | AWrite (p : string)
  | AMkdir (p : string).

Inductive fs_step (A : act → Prop) (m : gmap string node)
  : gmap string node → Prop :=
  | fs_step_rm p c t :
      A (ARm p) → m !! p = Some (File c t) → fs_step A m (delete p m)
  | fs_step_write p c t :
      A (AWrite p) → can_write m p = true → fs_step A m (<[p := File c t]> m)
  | fs_step_mkdir p :
      A (AMkdir p) → m !! p = None → can_create m p = true →
      fs_step A m (<[p := Dir]> m).

(** [reach A m m']: [m'] comes from [m] by changes that [A] allows. *)
Definition reach (A : act → Prop) : relation (gmap string node) :=
  rtc (fs_step A).

Definition is_file (m : gmap string node) (p : string) : Prop :=
  ∃ c t, m !! p = Some (File c t).

(** [touches A m]: whatever the state and the outcome, [m] changes the
    file system by changes that [A] allows only. *)
Definition touches {X} (A : act → Prop) (m : M X) : Prop :=
  ∀ s : state, reach A (fs s) (fs (m s).2).

(** The destination a batch writes to. *)
Definition dest_dir (sources_dir : string) (destination_dir : option string)
  : string :=
  match destination_dir with
  | None => Path.join sources_dir "gyb_generated"
  | Some d => d
  end.

Definition template_destination (destination_dir : option string) : string :=
  Path.join (dest_dir SWIFTSYNTAX_DIR destination_dir) "syntax_nodes".

(** The scratch file of the output named [n], and the places [rsync] may
    put that output in destination [D]: the file [D/n], or the file of
    that name inside [D/n] when [D/n] is a directory. *)
Definition scratch_of (n : string) : string := Path.join tempdir n.
Definition inside_of (D n : string) : string :=
  Path.join (Path.join D n) (Path.basename (scratch_of n)).

Definition scratch_path (p : string) : Prop :=
  ∃ n, Path.slash_free n = true ∧ p = scratch_of n.

Definition mkdir_path (d p : string) : Prop := p ∈ ancestors d ++ [d].

(** What a batch over destination [D] may do: remove [.swift] entries of
    [D], write scratch files and outputs of [D], create the temporary
    directory and [D]. *)
Definition helper_act (D : string) (a : act) : Prop :=
  match a with
  | ARm p => ∃ n, Path.is_name n = true ∧ Str.endswith n ".swift" = true
                  ∧ p = Path.join D n
  | AWrite p => scratch_path p
                ∨ ∃ n, Path.slash_free n = true
                       ∧ (p = Path.join D n ∨ p = inside_of D n)
  | AMkdir p => mkdir_path tempdir p ∨ mkdir_path D p
  end.

(** What the batch of the multi-output template may do in its
    destination [D]. *)
Definition syntax_act (D : string) (a : act) : Prop :=
  match a with
  | ARm p => ∃ n, Path.is_name n = true ∧ Str.endswith n ".swift" = true
                  ∧ (n ∉ BASE_KIND_FILES.*2) ∧ p = Path.join D n
  | AWrite p => scratch_path p
                ∨ ∃ v, v ∈ BASE_KIND_FILES.*2
                       ∧ (p = Path.join D v ∨ p = inside_of D v)
  | AMkdir p => mkdir_path tempdir p ∨ mkdir_path D p
  end.

(** What [generate_gyb_files] may do, given its four destinations. *)
Definition generate_act (d1 d2 d3 d4 : option string) (a : act) : Prop :=
  helper_act (dest_dir SWIFTSYNTAX_DIR d1) a
  ∨ helper_act (dest_dir SWIFTSYNTAXBUILDER_DIR d2) a
  ∨ helper_act (dest_dir SWIFTSYNTAXPARSER_DIR d3) a
  ∨ helper_act (dest_dir SWIFTSYNTAXBUILDERGENERATION_DIR d4) a
  ∨ syntax_act (template_destination d1) a.

(** What the renderer makes of template [tp] with flags [fl] in file
    system [m]: the script [ge] and the template have to be there. *)
Definition rendering (m : gmap string node) (ge tp : string)
    (fl : list string) : option string :=
  match m !! ge, m !! tp with
  | Some (File _ _), Some (File body _) => gyb tp body fl
  | _, _ => None
  end.

(** [hoare P m Q]: from a state that satisfies [P], [m] ends with an outcome
    and a state that satisfy [Q].  Every script terminates, so this is a
    statement of total correctness. *)
Definition hoare {A} (P : state → Prop) (m : M A)
    (Q : outcome A → state → Prop) : Prop :=
  ∀ s, P s → Q (m s).1 (m s).2.

(** [ff P F m]: [m] keeps the invariant [P] as long as it returns
    normally, and establishes [F e] when it raises [e]. *)
Definition ff {X} (P : state → Prop) (F : exn → state → Prop) (m : M X)
  : Prop :=
  hoare P m (λ r s, match r with Ok _ => P s | Raise e => F e s end).

(** A trace entry that records an [rm] that exited with a non-zero
    status. *)
Definition rm_failed (e : list string * Z) : Prop :=
  head e.1 = Some "rm" ∧ e.2 ≠ 0%Z.

(** The lines [fail_for_called_process_error] prints for a failed
    command. *)
Definition failure_report (description : string) (cmd : list string)
    (output : option string) : list string :=
  [ "FAIL: " +:+ description; "Executing: " +:+ escapeCmd cmd;
    str_of_output output ].

(** Assertions on what a run has logged since a state whose trace was
    [t0] and whose error output was [e0]:
    - [calm]: no [rm] failed and nothing was printed on the error output;
    - [aborted e]: no [rm] failed, or the last process run is an [rm]
      that failed, [e] is the [CalledProcessError] of that [rm], and
      nothing was printed on the error output. *)
Definition no_rm_failed (t0 : list (list string * Z)) (s : state) : Prop :=
  ∃ tr, procs s = t0 ++ tr ∧ Forall (λ e, ¬ rm_failed e) tr.

Definition calm (t0 : list (list string * Z)) (e0 : list string)
    (s : state) : Prop :=
  no_rm_failed t0 s ∧ stderr s = e0.

Definition rm_aborted (t0 : list (list string * Z)) (e0 : list string)
    (e : exn) (s : state) : Prop :=
  ∃ tr cmd rc,
    e = CalledProcessError rc cmd None
    ∧ procs s = t0 ++ tr ++ [(cmd, rc)]
    ∧ Forall (λ e, ¬ rm_failed e) tr
    ∧ rm_failed (cmd, rc)
    ∧ stderr s = e0.

Definition aborted (t0 : list (list string * Z)) (e0 : list string)
    (e : exn) (s : state) : Prop :=
  no_rm_failed t0 s ∨ rm_aborted t0 e0 e s.

(** The entries the pruning loop of a batch removes: the names that end in
    [.swift] for which the sources directory has no template. *)
Definition orphan_name (m : gmap string node) (S n : string) : bool :=
  Path.is_name n && Str.endswith n ".swift"
  && negb (bool_decide (is_Some (m !! Path.join S (n +:+ ".gyb")))).

Definition is_orphan (m : gmap string node) (S D p : string) : bool :=
  match Str.strip_prefix (Path.dir_prefix D) p with
  | Some n => orphan_name m S n
  | None => false
  end.

(** The orphans among the entries already visited by the loop. *)
Definition pruned_upto (m : gmap string node) (S D : string)
    (visited : list string) (p : string) : bool :=
  match Str.strip_prefix (Path.dir_prefix D) p with
  | Some n => orphan_name m S n && bool_decide (n ∈ visited)
  | None => false
  end.

(** Where [rsync] puts the output [n] of destination [D]. *)
Definition unit_target (m : gmap string node) (D n : string) : string :=
  if is_dir m (Path.join D n) then inside_of D n else Path.join D n.

(** The world after [generate_single_gyb_file]: the renderer writes the
    scratch file when it can, and [rsync] runs after it. *)
Definition unit_world (ge tp n D : string) (fl : list string) (w : world)
  : world :=
  match rendering (fs w) ge tp fl with
  | Some c =>
      if can_write (fs w) (scratch_of n)
      then (rsync_transfer c
              (unit_target (<[scratch_of n := File c (clock w)]> (fs w)) D n)
              (write_file (scratch_of n) c w)).2
      else w
  | None => w
  end.

Definition unit_ok (ge tp n D : string) (fl : list string) (w : world) : bool :=
  match rendering (fs w) ge tp fl with
  | Some c =>
      can_write (fs w) (scratch_of n)
      && bool_decide
           ((rsync_transfer c
               (unit_target (<[scratch_of n := File c (clock w)]> (fs w)) D n)
               (write_file (scratch_of n) c w)).1 = 0%Z)
  | None => false
  end.

(** The path of the multi-output template. *)
Definition syntax_template : string :=
  Path.join SWIFTSYNTAX_DIR "SyntaxNodes.swift.gyb.template".

(** What the pruning part of the multi-output batch may do: it writes no
    file. *)
Definition syntax_prune_act (D : string) (a : act) : Prop :=
  match a with
  | ARm p => ∃ n, Path.is_name n = true ∧ Str.endswith n ".swift" = true
                  ∧ (n ∉ BASE_KIND_FILES.*2) ∧ p = Path.join D n
  | AWrite p => False
  | AMkdir p => True
  end.

(** The output [out] of kind [k] is in place in [m]: the rendering of the
    template body with the flag of the kind is the content of the file at
    the destination path or, when a directory has taken that path, of the
    file [rsync] puts inside that directory. *)
Definition expansion_in_place (m : gmap string node) (D body : string)
    (ann : bool) (k out : string) : Prop :=
  ∃ c, gyb syntax_template body
         (line_directive_flags ann ++ ["-DEMIT_KIND=" +:+ k]) = Some c
       ∧ match m !! Path.join D out with
         | Some (File c' _) => c' = c
         | Some Dir => ∃ t, m !! inside_of D out = Some (File c t)
         | None => False
         end.

(** [keeps R m]: whatever the outcome, the state [m] stops in is related
    by [R] to the state it started in. *)
Definition keeps {X} (R : relation state) (m : M X) : Prop :=
  ∀ s, R s (m s).2.

(** The subprocesses run between two states all satisfy [T]. *)
Definition logged (T : list string * Z → Prop) (s s' : state) : Prop :=
  ∃ l, procs s' = procs s ++ l ∧ Forall T l.



(** Every regular file of [s'] is a file of [s], with its content and its
    modification time, or holds a text that satisfies [R]. *)
Definition only_adds (R : string → Prop) (s s' : state) : Prop :=
  ∀ p c t, fs s' !! p = Some (File c t) → fs s !! p = Some (File c t) ∨ R c.

(** What [diff] reports as no difference: both are directories and they
    hold the same visible paths, with the same kind and the same bytes. *)
Definition same_visible_tree (m : gmap string node) (a b : string) : Prop :=
  is_dir m a = true ∧ is_dir m b = true
  ∧ ∀ r, r ≠ EmptyString → Path.hidden r = false →
      node_data (m !! (Path.dir_prefix a +:+ r))
      = node_data (m !! (Path.dir_prefix b +:+ r)).



(** A directory path as [os.path.abspath] returns it: not empty and without
    a trailing slash. *)
Definition regular (d : string) : Prop :=
  d ≠ EmptyString ∧ Path.ends_with_slash d = false.

(** The changes that write scratch files and nothing else. *)
Definition scratch_write (a : act) : Prop :=
  match a with AWrite p => scratch_path p | _ => False end.

(** The target of the output [n] in [D] needs no transfer of the text [c]:
    it holds [c] already, or [rsync] cannot write there. *)
Definition target_settled (m : gmap string node) (D n c : string) : Prop :=
  match m !! unit_target m D n with
  | Some (File c' _) => c' = c
  | Some Dir => True
  | None => can_create m (unit_target m D n) = false
  end.

(** The unit of template [tp] with output [n] in [D] is settled: if the
    template renders and its scratch file can be written, the target needs
    no transfer. *)
Definition unit_settled (m : gmap string node) (ge tp n D : string)
    (fl : list string) : Prop :=
  ∀ c, rendering m ge tp fl = Some c → can_write m (scratch_of n) = true →
       target_settled m D n c.

(** The unit has been carried out: the template renders, the scratch file
    is there, and the target holds the rendering. *)
Definition unit_done (m : gmap string node) (ge tp n D : string)
    (fl : list string) : Prop :=
  ∃ c, rendering m ge tp fl = Some c
       ∧ is_file m (scratch_of n)
       ∧ ∃ t, m !! unit_target m D n = Some (File c t).

(** No entry of [D] whose name ends in [.swift] lacks its template in [S]. *)
Definition no_orphans (S D : string) (m : gmap string node) : Prop :=
  ∀ n, Path.is_name n = true → Str.endswith n ".swift" = true →
       m !! Path.join D n ≠ None → m !! Path.join S (n +:+ ".gyb") ≠ None.

(** The sources directory [S], the destination [D] and the temporary
    directory are apart from each other: no path is a template of [S] or a
    scratch file and at the same time an output in [D]. *)
Definition apart (S D : string) : Prop :=
  regular D
  ∧ Path.dir_prefix tempdir ≠ Path.dir_prefix S
  ∧ Path.dir_prefix S ≠ Path.dir_prefix D
  ∧ Path.dir_prefix tempdir ≠ Path.dir_prefix D
  ∧ ∀ n, Path.is_name n = true →
         Path.dir_prefix S ≠ Path.dir_prefix (Path.join D n)
         ∧ Path.dir_prefix tempdir ≠ Path.dir_prefix (Path.join D n).

(** A batch that has nothing left to do in the file system [m]. *)
Definition batch_settled (m : gmap string node) (ge S D : string)
    (fl : list string) : Prop :=
  is_dir m D = true ∧ is_dir m S = true ∧ no_orphans S D m
  ∧ ∀ g, Path.is_name g = true → Str.endswith g ".gyb" = true →
         unit_settled m ge (Path.join S g) (Str.drop_last 4 g) D fl.

(** What one unit may do: write its scratch file and its output. *)
Definition unit_act (n D : string) (a : act) : Prop :=
  match a with
  | AWrite p => p = scratch_of n ∨ p = Path.join D n ∨ p = inside_of D n
  | _ => False
  end.

(** The changes that make directories and nothing else. *)
Definition only_mkdir (a : act) : Prop :=
  match a with AMkdir _ => True | _ => False end.

(** The changes that keep to the scratch files and to what lies below the
    directories [Ds]: only there is a regular file removed or written;
    directories may be created anywhere. *)
Definition in_place (Ds : list string) (a : act) : Prop :=
  match a with
  | ARm p | AWrite p =>
      scratch_path p
      ∨ ∃ D, D ∈ Ds ∧ Str.startswith p (Path.dir_prefix D) = true
  | AMkdir _ => True
  end.

(** [raises F m]: whenever [m] raises [e], [F e] holds of the state it
    stops in. *)
Definition raises {X} (F : exn → state → Prop) (m : M X) : Prop :=
  ∀ s, match (m s).1 with Ok _ => True | Raise e => F e (m s).2 end.

(** The exception tells of the process that was run last: an error of the
    operating system, an exit with status 1, or the failure of the last
    subprocess, with its non-zero status and no captured output. *)
Definition describes_last (e : exn) (s : state) : Prop :=
  match e with
  | CalledProcessError rc cmd out =>
      last (procs s) = Some (cmd, rc) ∧ rc ≠ 0%Z ∧ out = None
  | SystemExit c => c = 1%Z
  | OSError _ => True
  end.

(** The only subprocess failure is that of an [rm]. *)
Definition only_rm_fails (e : exn) (s : state) : Prop :=
  match e with
  | CalledProcessError rc cmd out => ∃ n, cmd = ["rm"; n]
  | SystemExit _ => False
  | OSError _ => True
  end.

(** No failure of a subprocess is left uncaught. *)
Definition no_process_error (e : exn) (s : state) : Prop :=
  match e with
  | CalledProcessError _ _ _ => False
  | _ => True
  end.

(** What a run has printed on the error output since it was [e0]:
    - [quiet]: nothing;
    - [reported e]: at least one line when [e] is [SystemExit], nothing
      when the run ends with another exception. *)
Definition quiet (e0 : list string) (s : state) : Prop := stderr s = e0.

Definition reported (e0 : list string) (e : exn) (s : state) : Prop :=
  match e with
  | SystemExit _ => ∃ l, l ≠ [] ∧ stderr s = e0 ++ l
  | _ => stderr s = e0
  end.

(** The error output is as it was. *)
Definition same_stderr : relation state := λ s s', stderr s' = stderr s.

(** The exception is not [SystemExit]. *)
Definition not_an_exit (e : exn) (s : state) : Prop :=
  match e with SystemExit _ => False | _ => True end.

(** * Properties *)

(** ** Strings and paths *)


Lemma str_app_cons a (s t : string) : String a s +:+ t = String a (s +:+ t).
Proof. reflexivity. Qed.

Lemma str_app_empty_l (s : string) : EmptyString +:+ s = s.
Proof. reflexivity. Qed.

Lemma str_app_empty_r (s : string) : s +:+ EmptyString = s.
Proof. induction s as [|a s IH]; [done|]. by rewrite str_app_cons, IH. Qed.

Lemma str_app_assoc (s t u : string) : (s +:+ t) +:+ u = s +:+ (t +:+ u).
Proof. induction s as [|a s IH]; [done|]. by rewrite !str_app_cons, IH. Qed.

Lemma str_length_app (s t : string) :
  String.length (s +:+ t) = String.length s + String.length t.
Proof. induction s as [|a s IH]; [done|]. rewrite str_app_cons. simpl. by rewrite IH. Qed.

Lemma str_app_inv_l (p s t : string) : p +:+ s = p +:+ t → s = t.
Proof. apply String.app_inj. Qed.

(** Two decompositions with right parts of the same length coincide. *)
Lemma str_app_inj_length (p q s t : string) :
  String.length s = String.length t → p +:+ s = q +:+ t → p = q ∧ s = t.
Proof.
  revert q. induction p as [|a p IH]; intros [|b q] Hl H.
  - done.
  - rewrite str_app_empty_l in H. subst s. rewrite str_length_app in Hl. simpl in Hl. lia.
  - rewrite str_app_empty_l in H. subst t. rewrite str_length_app in Hl. simpl in Hl. lia.
  - rewrite !str_app_cons in H. injection H as -> H.
    destruct (IH q Hl H) as [-> ->]. done.
Qed.

Lemma str_app_inv_r (p q s : string) : p +:+ s = q +:+ s → p = q.
Proof. intros H. by destruct (str_app_inj_length p q s s eq_refl H). Qed.

(** Of two prefixes of one string, one extends the other. *)
Lemma str_app_eq_app (p q s t : string) :
  p +:+ s = q +:+ t →
  (∃ x, q = p +:+ x ∧ s = x +:+ t) ∨ (∃ x, p = q +:+ x ∧ t = x +:+ s).
Proof.
  revert q. induction p as [|a p IH]; intros q H.
  - left. exists q. by rewrite str_app_empty_l in *.
  - destruct q as [|b q].
    + right. exists (String a p). by rewrite str_app_empty_l in *.
    + rewrite !str_app_cons in H. injection H as -> H.
      destruct (IH q H) as [(x & -> & ->)|(x & -> & ->)]; [left|right];
        exists x; by rewrite ?str_app_cons.
Qed.

Lemma contains_app c (s t : string) :
  Str.contains c (s +:+ t) = Str.contains c s || Str.contains c t.
Proof.
  induction s as [|a s IH]; [done|]. rewrite str_app_cons. simpl.
  by destruct (decide (a = c)).
Qed.

Lemma startswith_app (p r : string) : Str.startswith (p +:+ r) p = true.
Proof.
  induction p as [|a p IH]; [by destruct r|]. rewrite str_app_cons. simpl.
  by rewrite decide_True.
Qed.

Lemma startswith_spec (s p : string) :
  Str.startswith s p = true ↔ ∃ r, s = p +:+ r.
Proof.
  split.
  - revert s. induction p as [|b p IH]; intros s H.
    + by exists s.
    + destruct s as [|a s]; [done|]. simpl in H.
      destruct (decide (a = b)) as [->|]; [|done].
      destruct (IH s H) as [r ->]. by exists r.
  - intros [r ->]. apply startswith_app.
Qed.

Lemma strip_prefix_spec (p s r : string) :
  Str.strip_prefix p s = Some r ↔ s = p +:+ r.
Proof.
  revert s. induction p as [|b p IH]; intros s.
  - simpl. rewrite str_app_empty_l. destruct s; naive_solver.
  - destruct s as [|a s]; simpl; [by rewrite str_app_cons|].
    rewrite str_app_cons. destruct (decide (a = b)) as [->|].
    + rewrite IH. split; [by intros ->|by intros [= ->]].
    + split; [done|by intros [= ->]].
Qed.

Lemma strip_prefix_app (p r : string) : Str.strip_prefix p (p +:+ r) = Some r.
Proof. by apply strip_prefix_spec. Qed.

Lemma endswith_spec (s suf : string) :
  Str.endswith s suf = true ↔ ∃ p, s = p +:+ suf.
Proof.
  induction s as [|a s IH].
  - simpl. destruct (decide (EmptyString = suf)) as [<-|Hne].
    + split; [|done]. by exists EmptyString.
    + split; [done|]. intros [[|b p] H]; [by rewrite str_app_empty_l in H|done].
  - simpl. destruct (decide (String a s = suf)) as [<-|Hne].
    + split; [|done]. by exists EmptyString.
    + rewrite IH. split.
      * intros [p ->]. by exists (String a p).
      * intros [[|b p] H]; [by rewrite str_app_empty_l in H|].
        rewrite str_app_cons in H. injection H as -> ->. by exists p.
Qed.

Lemma endswith_app (p suf : string) : Str.endswith (p +:+ suf) suf = true.
Proof. apply endswith_spec. by exists p. Qed.

Lemma str_take_app (p s : string) : Str.take (String.length p) (p +:+ s) = p.
Proof. induction p as [|a p IH]; [by destruct s|]. rewrite str_app_cons. simpl. by rewrite IH. Qed.

Lemma drop_last_app (p suf : string) :
  Str.drop_last (String.length suf) (p +:+ suf) = p.
Proof.
  unfold Str.drop_last. rewrite str_length_app.
  replace (String.length p + String.length suf - String.length suf)
    with (String.length p) by lia.
  apply str_take_app.
Qed.

(** A name cannot end in two suffixes of different last character. *)
Lemma endswith_both (s u v : string) :
  String.length u ≤ String.length v →
  Str.endswith s u = true → Str.endswith s v = true → Str.endswith v u = true.
Proof.
  intros Hl [p ->]%endswith_spec [q H]%endswith_spec.
  apply endswith_spec.
  destruct (str_app_eq_app _ _ _ _ H) as [(x & -> & ->)|(x & -> & ->)].
  - rewrite str_length_app in Hl.
    destruct x; [by exists EmptyString|simpl in Hl; lia].
  - by exists x.
Qed.



Lemma is_name_spec (n : string) :
  Path.is_name n = true ↔ n ≠ EmptyString ∧ Path.slash_free n = true.
Proof.
  unfold Path.is_name. rewrite andb_true_iff, negb_true_iff, bool_decide_eq_false.
  done.
Qed.

Lemma slash_free_app (s t : string) :
  Path.slash_free (s +:+ t) = Path.slash_free s && Path.slash_free t.
Proof. unfold Path.slash_free. rewrite contains_app. by destruct (Str.contains _ s). Qed.

Lemma slash_free_not_absolute (n : string) :
  Path.slash_free n = true → Str.startswith n "/" = false.
Proof.
  destruct n as [|a n]; [done|]. unfold Path.slash_free. simpl.
  unfold Str.slash. destruct (decide (a = "/"%char)); [done|]. by destruct n.
Qed.

(** A directory prefix is empty or ends in a Str.slash. *)
Lemma ends_with_slash_spec (s : string) :
  Path.ends_with_slash s = true ↔ ∃ d, s = d +:+ "/".
Proof.
  induction s as [|a s IH].
  - split; [done|]. by intros [[|??] ?].
  - destruct s as [|b s].
    + simpl. rewrite bool_decide_eq_true. split.
      * intros ->. by exists EmptyString.
      * intros [d H]. destruct d as [|c d].
        { rewrite str_app_empty_l in H. by injection H. }
        rewrite str_app_cons in H. injection H as _ H.
        destruct d; [rewrite str_app_empty_l in H|rewrite str_app_cons in H];
          discriminate.
    + change (Path.ends_with_slash (String a (String b s)))
        with (Path.ends_with_slash (String b s)).
      rewrite IH. split.
      * intros [d ->]. by exists (String a d).
      * intros [[|c d] H]; [done|]. rewrite str_app_cons in H.
        injection H as -> ->. by exists d.
Qed.

Lemma dir_prefix_shape (a : string) :
  Path.dir_prefix a = EmptyString ∨ ∃ d, Path.dir_prefix a = d +:+ "/".
Proof.
  unfold Path.dir_prefix. destruct (decide (a = EmptyString)); [by left|right].
  destruct (Path.ends_with_slash a) eqn:E; [by apply ends_with_slash_spec|].
  by exists a.
Qed.

Lemma join_name (a n : string) :
  Path.slash_free n = true → Path.join a n = Path.dir_prefix a +:+ n.
Proof. intros H. unfold Path.join. by rewrite slash_free_not_absolute. Qed.

Lemma split_slash_free (n : string) :
  Path.slash_free n = true → Path.split n = (None, n).
Proof.
  induction n as [|a n IH]; [done|]. unfold Path.slash_free. simpl.
  destruct (decide (a = Str.slash)) as [->|Hne]; [done|]. intros H.
  by rewrite IH.
Qed.

Lemma split_app_slash (d n : string) :
  Path.slash_free n = true → Path.split (d +:+ "/" +:+ n) = (Some d, n).
Proof.
  intros Hn. induction d as [|a d IH].
  - rewrite str_app_empty_l. change ("/" +:+ n) with (String Str.slash n).
    simpl. by rewrite split_slash_free.
  - rewrite str_app_cons. simpl. by rewrite IH.
Qed.

(** A path is a child of at most one directory, under one name. *)
Lemma basename_child (a n : string) :
  Path.slash_free n = true → Path.basename (Path.dir_prefix a +:+ n) = n.
Proof.
  intros Hn. unfold Path.basename. destruct (dir_prefix_shape a) as [E|[d E]]; rewrite E.
  - rewrite str_app_empty_l. by rewrite split_slash_free.
  - by rewrite str_app_assoc, split_app_slash.
Qed.

Lemma child_inj (a b n n' : string) :
  Path.slash_free n = true → Path.slash_free n' = true →
  Path.dir_prefix a +:+ n = Path.dir_prefix b +:+ n' →
  Path.dir_prefix a = Path.dir_prefix b ∧ n = n'.
Proof.
  intros Hn Hn' H.
  assert (n = n') as <-.
  { apply (f_equal Path.basename) in H. by rewrite !basename_child in H. }
  split; [|done]. by apply str_app_inv_r in H.
Qed.

Lemma dir_prefix_child (a n : string) :
  Path.is_name n = true → Path.dir_prefix (Path.dir_prefix a +:+ n) = Path.dir_prefix a +:+ n +:+ "/".
Proof.
  intros [Hne Hsf]%is_name_spec. unfold Path.dir_prefix at 1.
  destruct (decide (Path.dir_prefix a +:+ n = EmptyString)) as [E|_].
  { destruct (Path.dir_prefix a); [by rewrite str_app_empty_l in E|done]. }
  destruct (Path.ends_with_slash (Path.dir_prefix a +:+ n)) eqn:E.
  - apply ends_with_slash_spec in E as [d E].
    assert (Path.slash_free n = false) as Hc; [|congruence].
    destruct (str_app_eq_app _ _ _ _ E) as [(x & -> & E2)|(x & E1 & E2)].
    + subst n. rewrite slash_free_app. apply andb_false_r.
    + destruct x as [|c x].
      * rewrite str_app_empty_l in E2. by subst n.
      * rewrite str_app_cons in E2. injection E2 as _ E2.
        destruct x; [rewrite str_app_empty_l in E2; congruence|discriminate].
  - by rewrite str_app_assoc.
Qed.

(** The path of a child lies strictly below its directory. *)
Lemma child_not_dir (a n : string) :
  Path.is_name n = true → Path.dir_prefix a +:+ n ≠ a.
Proof.
  intros [Hne Hsf]%is_name_spec E. unfold Path.dir_prefix in E.
  destruct (decide (a = EmptyString)) as [->|]; [by rewrite str_app_empty_l in E|].
  destruct (Path.ends_with_slash a) eqn:Es.
  - apply (f_equal String.length) in E. rewrite str_length_app in E.
    destruct n; [done|simpl in E; lia].
  - apply (f_equal String.length) in E. rewrite !str_length_app in E. simpl in E. lia.
Qed.


(** ** Reasoning about scripts *)

Lemma hoare_conseq {A} (P P' : state → Prop) (m : M A)
    (Q Q' : outcome A → state → Prop) :
  hoare P' m Q' → (∀ s, P s → P' s) → (∀ r s, Q' r s → Q r s) → hoare P m Q.
Proof. intros H HP HQ s Hs. apply HQ, H, HP, Hs. Qed.

Lemma hoare_ret {A} (a : A) (Q : outcome A → state → Prop) :
  hoare (Q (Ok a)) (ret a) Q.
Proof. by intros s Hs. Qed.

Lemma hoare_raise {A} (e : exn) (Q : outcome A → state → Prop) :
  hoare (Q (Raise e)) (raise e) Q.
Proof. by intros s Hs. Qed.

Lemma hoare_modify (f : state → state) (Q : outcome unit → state → Prop) :
  hoare (λ s, Q (Ok tt) (f s)) (modify f) Q.
Proof. by intros s Hs. Qed.

Lemma hoare_bind {A B} (P : state → Prop) (m : M A) (k : A → M B)
    (R : A → state → Prop) (Q : outcome B → state → Prop) :
  hoare P m (λ r s, match r with Ok a => R a s | Raise e => Q (Raise e) s end) →
  (∀ a, hoare (R a) (k a) Q) →
  hoare P (bind m k) Q.
Proof.
  intros Hm Hk s Hs. specialize (Hm s Hs). unfold bind.
  destruct (m s) as [[a|e] s']; simpl in *; [by apply Hk|done].
Qed.

Lemma hoare_if {A} (b : bool) (P : state → Prop) (m1 m2 : M A)
    (Q : outcome A → state → Prop) :
  (b = true → hoare P m1 Q) → (b = false → hoare P m2 Q) →
  hoare P (if b then m1 else m2) Q.
Proof. destruct b; auto. Qed.

(** A loop with an invariant indexed by the elements already processed. *)
Lemma hoare_for_each {A} (xs : list A) (body : A → M unit)
    (I : list A → state → Prop) (Q : outcome unit → state → Prop) :
  (∀ done x rest, xs = done ++ x :: rest →
     hoare (I done) (body x)
       (λ r s, match r with Ok _ => I (done ++ [x]) s | Raise e => Q (Raise e) s end)) →
  (∀ s, I xs s → Q (Ok tt) s) →
  hoare (I []) (for_each xs body) Q.
Proof.
  intros Hbody Hend.
  enough (∀ rest done, xs = done ++ rest → hoare (I done) (for_each rest body) Q)
    as H by (by apply (H xs [])).
  induction rest as [|x rest IH]; intros done Hxs.
  - rewrite app_nil_r in Hxs. subst done. intros s Hs. by apply Hend.
  - simpl. eapply hoare_bind; [by apply (Hbody done x rest)|].
    intros []. apply IH. by rewrite <- app_assoc.
Qed.

(** The pool runs every unit whatever the others raise, and raises
    nothing. *)
Lemma hoare_executor_map {A} (xs : list A) (f : A → M unit)
    (I : list A → state → Prop) (Q : outcome unit → state → Prop) :
  (∀ done x rest, xs = done ++ x :: rest →
     hoare (I done) (f x) (λ _ s, I (done ++ [x]) s)) →
  (∀ s, I xs s → Q (Ok tt) s) →
  hoare (I []) (executor_map_discarded f xs) Q.
Proof.
  intros Hbody Hend.
  enough (∀ rest done, xs = done ++ rest →
            hoare (I done) (executor_map_discarded f rest) Q)
    as H by (by apply (H xs [])).
  induction rest as [|x rest IH]; intros done Hxs.
  - rewrite app_nil_r in Hxs. subst done. intros s Hs. by apply Hend.
  - intros s Hs. simpl. pose proof (Hbody done x rest Hxs s Hs) as Hx.
    destruct (f x s) as [r s']. simpl in Hx.
    apply (IH (done ++ [x])); [by rewrite <- app_assoc|done].
Qed.

Lemma hoare_try {A} (P : state → Prop) (m : M A) (h : exn → M A)
    (R : exn → state → Prop) (Q : outcome A → state → Prop) :
  hoare P m (λ r s, match r with
                    | Raise (CalledProcessError rc cmd out) =>
                        R (CalledProcessError rc cmd out) s
                    | r => Q r s
                    end) →
  (∀ e, hoare (R e) (h e) Q) →
  hoare P (try_called_process_error m h) Q.
Proof.
  intros Hm Hh s Hs. specialize (Hm s Hs). unfold try_called_process_error.
  destruct (m s) as [[a|[rc cmd out|c|f]] s']; simpl in *; try done.
  by apply Hh.
Qed.

Lemma hoare_os_op {A} (f : world → outcome A * world)
    (P : state → Prop) (Q : outcome A → state → Prop) :
  (∀ s, P s → Q (f s).1 (set_world (f s).2 s)) →
  hoare P (os_op f) Q.
Proof. intros H s Hs. unfold os_op. specialize (H s Hs). by destruct (f s). Qed.

(** ** The primitives *)

Lemma world_set_world (w : world) (s : state) : world_of (set_world w s) = w.
Proof. done. Qed.

Lemma set_world_id (s : state) : set_world (world_of s) s = s.
Proof. by destruct s. Qed.

(** [check_call] in one step: the optional echo of the command, the check
    of the working directory, the run of the process and the test of its
    exit status. *)
Definition cwd_ok (m : gmap string node) (cwd : option string) : bool :=
  match cwd with
  | Some d => is_dir m d
  | None => true
  end.

Lemma check_call_eq (cmd : list string) (cwd : option string) (v : bool)
    (s : state) :
  check_call cmd cwd v s =
    let s0 := if v then put_stdout (escapeCmd cmd) s else s in
    if cwd_ok (fs s) cwd then
      (if decide ((run_process cmd cwd s).1 = 0%Z) then Ok tt
       else Raise (CalledProcessError (run_process cmd cwd s).1 cmd None),
       log_proc cmd (run_process cmd cwd s).1
         (set_world (run_process cmd cwd s).2 s0))
    else (Raise (OSError (default EmptyString cwd)), s0).
Proof.
  destruct s as [w so se pr].
  unfold check_call, subprocess_check_call, enter_cwd, spawn, bind, os_op,
    print, modify, ret, raise, cwd_ok.
  destruct v, cwd as [d|]; simpl;
    repeat (match goal with
            | |- context [is_dir ?m ?d] => destruct (is_dir m d)
            | |- context [run_process ?c ?d ?w] => destruct (run_process c d w) as [rc w']
            | |- context [decide (?a = ?b)] => destruct (decide (a = b))
            end; simpl); done.
Qed.

(** A Hoare rule for [check_call] when the assertions look at the world
    only. *)
Lemma hoare_check_call_world (cmd : list string) (cwd : option string)
    (v : bool) (P : world → Prop) (Q : outcome unit → world → Prop) :
  (∀ w, P w →
     if cwd_ok (fs w) cwd then
       Q (if decide ((run_process cmd cwd w).1 = 0%Z) then Ok tt
          else Raise (CalledProcessError (run_process cmd cwd w).1 cmd None))
         (run_process cmd cwd w).2
     else Q (Raise (OSError (default EmptyString cwd))) w) →
  hoare (λ s, P s) (check_call cmd cwd v) (λ r s, Q r s).
Proof.
  intros H s Hs. rewrite check_call_eq. specialize (H s Hs). simpl.
  destruct (cwd_ok _ _); simpl; [done|]. by destruct v.
Qed.

Lemma run_rm (name : string) (cwd : option string) (w : world) :
  run_process ["rm"; name] cwd w = proc_rm cwd [name] w.
Proof. done. Qed.

Lemma run_rsync (n D T : string) (w : world) :
  run_process (rsync_command n D T) None w
  = proc_rsync ["--checksum"; Path.join T n; Path.join D n] w.
Proof. done. Qed.

Lemma run_gyb (ge tp n T : string) (ann : bool) (extra : list string) (w : world) :
  run_process (gyb_command ge tp n T ann extra) None w
  = proc_gyb (ge :: tp :: "-o" :: Path.join T n
              :: line_directive_flags ann ++ extra) w.
Proof. done. Qed.

Lemma run_diff (a b : string) (w : world) :
  run_process (diff_command a b) None w
  = proc_diff ["--recursive"; "--exclude"; ".*"; "--context=0"; a; b] w.
Proof. done. Qed.

(** ** Footprints *)

Lemma reach_mono (A A' : act → Prop) (m m' : gmap string node) :
  (∀ a, A a → A' a) → reach A m m' → reach A' m m'.
Proof.
  intros HA. induction 1 as [|m1 m2 m3 Hs _ IH]; [apply rtc_refl|].
  eapply rtc_l; [|exact IH].
  destruct Hs; [eapply fs_step_rm|apply fs_step_write|apply fs_step_mkdir];
    eauto.
Qed.

Lemma touches_mono {X} (A A' : act → Prop) (m : M X) :
  (∀ a, A a → A' a) → touches A m → touches A' m.
Proof. intros HA H s. eapply reach_mono; [exact HA|apply H]. Qed.

Lemma touches_ret {X} A (x : X) : touches A (ret x).
Proof. intros s. apply rtc_refl. Qed.

Lemma touches_raise {X} A (e : exn) : touches A (@raise X e).
Proof. intros s. apply rtc_refl. Qed.

Lemma touches_print A (l : string) : touches A (print l).
Proof. intros s. apply rtc_refl. Qed.

Lemma touches_printerr A (l : string) : touches A (printerr l).
Proof. intros s. apply rtc_refl. Qed.

Lemma touches_bind_ok {X Y} A (m : M X) (k : X → M Y) :
  touches A m →
  (∀ s x s', m s = (Ok x, s') → reach A (fs s') (fs (k x s').2)) →
  touches A (bind m k).
Proof.
  intros Hm Hk s. specialize (Hm s). unfold bind.
  destruct (m s) as [[x|e] s'] eqn:E; simpl in *; [|done].
  etrans; [exact Hm|]. by eapply Hk.
Qed.

Lemma touches_bind {X Y} A (m : M X) (k : X → M Y) :
  touches A m → (∀ x, touches A (k x)) → touches A (bind m k).
Proof. intros Hm Hk. apply touches_bind_ok; [done|]. intros s x s' _. apply Hk. Qed.

Lemma touches_if {X} A (b : bool) (m1 m2 : M X) :
  touches A m1 → touches A m2 → touches A (if b then m1 else m2).
Proof. by destruct b. Qed.

Lemma touches_for_each {X} A (xs : list X) (body : X → M unit) :
  (∀ x, x ∈ xs → touches A (body x)) → touches A (for_each xs body).
Proof.
  induction xs as [|x xs IH]; intros H; simpl; [apply touches_ret|].
  apply touches_bind; [apply H; left|].
  intros _. apply IH. intros y Hy. apply H. by right.
Qed.

Lemma touches_executor_map {X} A (xs : list X) (f : X → M unit) :
  (∀ x, x ∈ xs → touches A (f x)) → touches A (executor_map_discarded f xs).
Proof.
  induction xs as [|x xs IH]; intros H; simpl; [apply touches_ret|].
  intros s. pose proof (H x ltac:(left) s) as Hx.
  destruct (f x s) as [r s']. simpl in Hx. etrans; [exact Hx|].
  apply IH. intros y Hy. apply H. by right.
Qed.

Lemma touches_try {X} A (m : M X) (h : exn → M X) :
  touches A m → (∀ e, touches A (h e)) → touches A (try_called_process_error m h).
Proof.
  intros Hm Hh s. specialize (Hm s). unfold try_called_process_error.
  destruct (m s) as [[x|[rc cmd out|c|f]] s']; simpl in *; try done.
  etrans; [exact Hm|apply Hh].
Qed.

Lemma touches_os_op {X} A (f : world → outcome X * world) :
  (∀ w, reach A (fs w) (fs (f w).2)) → touches A (os_op f).
Proof. intros H s. unfold os_op. specialize (H s). by destruct (f s). Qed.

Lemma touches_check_call A (cmd : list string) (cwd : option string) (v : bool) :
  (∀ w, reach A (fs w) (fs (run_process cmd cwd w).2)) →
  touches A (check_call cmd cwd v).
Proof.
  intros H s. rewrite check_call_eq. simpl.
  destruct (cwd_ok _ _); simpl; [apply H|]. destruct v; apply rtc_refl.
Qed.

(** What each external tool may change. *)
Lemma proc_rm_reach A (cwd : option string) (name : string) (w : world) :
  A (ARm (resolve cwd name)) → reach A (fs w) (fs (proc_rm cwd [name] w).2).
Proof.
  intros HA. unfold proc_rm.
  destruct (Str.startswith name "-"); [apply rtc_refl|].
  destruct (fs w !! resolve cwd name) as [[c t|]|] eqn:E; try apply rtc_refl.
  destruct (rm_denied _); [apply rtc_refl|].
  apply rtc_once. by eapply fs_step_rm.
Qed.

Lemma can_write_file (m : gmap string node) (p c : string) (t : nat) :
  m !! p = Some (File c t) → can_write m p = true.
Proof. unfold can_write. by intros ->. Qed.

Lemma can_write_create (m : gmap string node) (p : string) :
  m !! p = None → can_create m p = true → can_write m p = true.
Proof. unfold can_write. by intros ->. Qed.

Lemma rsync_transfer_reach A (c dst : string) (w : world) :
  A (AWrite dst) → reach A (fs w) (fs (rsync_transfer c dst w).2).
Proof.
  intros HA. unfold rsync_transfer.
  destruct (fs w !! dst) as [[c' t|]|] eqn:E; [|apply rtc_refl|].
  - destruct (decide (c = c')); [apply rtc_refl|].
    apply rtc_once. apply fs_step_write; [done|by eapply can_write_file].
  - destruct (can_create (fs w) dst) eqn:Ec; [|apply rtc_refl].
    apply rtc_once. apply fs_step_write; [done|by apply can_write_create].
Qed.

Lemma proc_rsync_reach A (src dst : string) (w : world) :
  A (AWrite dst) → A (AWrite (Path.join dst (Path.basename src))) →
  reach A (fs w) (fs (proc_rsync ["--checksum"; src; dst] w).2).
Proof.
  intros H1 H2. unfold proc_rsync.
  destruct (fs w !! src) as [[c t|]|]; try apply rtc_refl.
  destruct (is_dir (fs w) dst); by apply rsync_transfer_reach.
Qed.

Lemma proc_gyb_reach A (ge tp out : string) (fl : list string) (w : world) :
  A (AWrite out) →
  reach A (fs w) (fs (proc_gyb (ge :: tp :: "-o" :: out :: fl) w).2).
Proof.
  intros HA. unfold proc_gyb.
  destruct (fs w !! ge) as [[? ?|]|]; try apply rtc_refl.
  destruct (fs w !! tp) as [[body ?|]|]; try apply rtc_refl.
  destruct (gyb tp body fl) as [c|]; [|apply rtc_refl].
  destruct (can_write (fs w) out) eqn:E; [|apply rtc_refl].
  apply rtc_once. by apply fs_step_write.
Qed.

Lemma proc_diff_world (args : list string) (w : world) :
  (proc_diff args w).2 = w.
Proof.
  unfold proc_diff.
  repeat (match goal with
          | |- context [match ?x with _ => _ end] => destruct x
          end; try done).
Qed.

Lemma mkdir_fold_none (ds : list string) : foldl mkdir_step None ds = None.
Proof. by induction ds. Qed.

Lemma mkdir_p_reach A (ds : list string) (m m' : gmap string node) :
  (∀ d, d ∈ ds → A (AMkdir d)) → mkdir_p m ds = Some m' → reach A m m'.
Proof.
  unfold mkdir_p. revert m. induction ds as [|d ds IH]; intros m HA H; simpl in H.
  - injection H as ->. apply rtc_refl.
  - assert (∀ d', d' ∈ ds → A (AMkdir d')) as HA' by (intros; apply HA; by right).
    destruct (m !! d) as [[c t|]|] eqn:E; simpl in H.
    + by rewrite mkdir_fold_none in H.
    + by apply IH.
    + destruct (can_create m d) eqn:Ec.
      * eapply rtc_l; [apply fs_step_mkdir; [apply HA; left|done|done]|].
        by apply IH.
      * by rewrite mkdir_fold_none in H.
Qed.

Lemma os_makedirs_touches A (p : string) :
  (∀ d, d ∈ ancestors p ++ [p] → A (AMkdir d)) → touches A (os_makedirs p).
Proof.
  intros HA. apply touches_os_op. intros w.
  destruct (fs w !! p); simpl; [apply rtc_refl|].
  destruct (mkdir_p (fs w) (ancestors p ++ [p])) as [m'|] eqn:E; simpl;
    [|apply rtc_refl].
  by eapply mkdir_p_reach.
Qed.

Lemma os_path_exists_touches A (p : string) : touches A (os_path_exists p).
Proof. apply touches_os_op. intros w. apply rtc_refl. Qed.

Lemma os_listdir_touches A (d : string) : touches A (os_listdir d).
Proof. apply touches_os_op. intros w. simpl. destruct (is_dir _ _); apply rtc_refl. Qed.

Lemma make_dir_if_needed_touches A (p : string) :
  (∀ d, d ∈ ancestors p ++ [p] → A (AMkdir d)) → touches A (make_dir_if_needed p).
Proof.
  intros HA. unfold make_dir_if_needed.
  apply touches_bind; [apply os_path_exists_touches|]. intros b.
  apply touches_if; [by apply os_makedirs_touches|apply touches_ret].
Qed.

Lemma mkdtemp_loop_reach A (n : nat) (w : world) :
  (∀ k, A (AMkdir (Path.join tempdir (mkdtemp_name k)))) →
  reach A (fs w) (fs (mkdtemp_loop n w).2).
Proof.
  intros HA. revert w. induction n as [|n IH]; intros w; simpl; [apply rtc_refl|].
  destruct (fs w !! Path.join tempdir (mkdtemp_name (rng w))) eqn:E.
  - apply (IH (next_rng w)).
  - destruct (can_create (fs w) (Path.join tempdir (mkdtemp_name (rng w)))) eqn:Ec;
      simpl; [|apply rtc_refl].
    apply rtc_once. by apply fs_step_mkdir.
Qed.

(** ** Directory listings *)

Lemma entry_name_spec (d : string) (e : string * node) (n : string) :
  entry_name d e = Some n ↔ Path.is_name n = true ∧ e.1 = Path.dir_prefix d +:+ n.
Proof.
  unfold entry_name.
  destruct (Str.strip_prefix (Path.dir_prefix d) e.1) as [n'|] eqn:E.
  - apply strip_prefix_spec in E. destruct (Path.is_name n') eqn:En.
    + split; [by intros [= <-]|]. intros [_ H]. rewrite E in H.
      by apply str_app_inv_l in H as ->.
    + split; [done|]. intros [Hn H]. rewrite E in H.
      apply str_app_inv_l in H as ->. congruence.
  - split; [done|]. intros [_ H]. apply strip_prefix_spec in H. congruence.
Qed.

Lemma entries_spec (m : gmap string node) (d n : string) :
  n ∈ entries m d ↔ Path.is_name n = true ∧ is_Some (m !! (Path.dir_prefix d +:+ n)).
Proof.
  unfold entries. rewrite list_elem_of_omap. split.
  - intros ([p nd] & Hin & He). apply elem_of_map_to_list in Hin.
    apply entry_name_spec in He as [Hn Hp]. simpl in Hp. subst p. eauto.
  - intros [Hn [nd Hnd]]. exists (Path.dir_prefix d +:+ n, nd). split.
    + by apply elem_of_map_to_list.
    + by apply entry_name_spec.
Qed.

Lemma entries_is_name (m : gmap string node) (d n : string) :
  n ∈ entries m d → Path.is_name n = true.
Proof. by intros [? _]%entries_spec. Qed.

Lemma entries_NoDup (m : gmap string node) (d : string) : NoDup (entries m d).
Proof.
  unfold entries. pose proof (NoDup_fst_map_to_list m) as Hnd.
  induction (map_to_list m) as [|[p nd] l IH]; simpl; [constructor|].
  apply NoDup_cons in Hnd as [Hp Hnd]. specialize (IH Hnd).
  destruct (entry_name d (p, nd)) as [n|] eqn:E; [|done].
  constructor; [|done]. intros ([p' nd'] & Hin & He')%list_elem_of_omap.
  apply entry_name_spec in E as [_ E]. apply entry_name_spec in He' as [_ E'].
  simpl in *. subst p p'. apply Hp. apply list_elem_of_fmap.
  by exists (Path.dir_prefix d +:+ n, nd').
Qed.

Lemma os_listdir_ok (d : string) (s s' : state) (l : list string) :
  os_listdir d s = (Ok l, s') →
  s' = s ∧ l = entries (fs s) d ∧ is_dir (fs s) d = true.
Proof.
  unfold os_listdir, os_op. destruct (is_dir (fs s) d) eqn:E; [|done].
  intros [= <- <-]. by rewrite set_world_id.
Qed.

(** ** Output names *)

Lemma contains_take (c : ascii) (k : nat) (s : string) :
  Str.contains c (Str.take k s) = true → Str.contains c s = true.
Proof.
  revert k. induction s as [|a s IH]; intros [|k]; simpl; try done.
  destruct (decide (a = c)); [done|]. apply IH.
Qed.

Lemma slash_free_drop_last (k : nat) (g : string) :
  Path.slash_free g = true → Path.slash_free (Str.drop_last k g) = true.
Proof.
  unfold Path.slash_free, Str.drop_last. rewrite !negb_true_iff.
  intros H. destruct (Str.contains _ (Str.take _ _)) eqn:E; [|done].
  apply contains_take in E. congruence.
Qed.

Lemma is_name_slash_free (n : string) :
  Path.is_name n = true → Path.slash_free n = true.
Proof. by intros [_ ?]%is_name_spec. Qed.

Lemma values_is_name (v : string) :
  v ∈ BASE_KIND_FILES.*2 → Path.is_name v = true.
Proof.
  intros H. simpl in H. repeat (apply elem_of_cons in H as [->|H]; [done|]).
  by apply elem_of_nil in H.
Qed.

(** ** The footprint of each function *)

Lemma generate_single_touches A (ge tp n D : string) (ann : bool)
    (extra : list string) (v : bool) :
  A (AWrite (scratch_of n)) → A (AWrite (Path.join D n)) →
  A (AWrite (inside_of D n)) →
  touches A (generate_single_gyb_file ge tp n D tempdir ann extra v).
Proof.
  intros H1 H2 H3. unfold generate_single_gyb_file.
  apply touches_bind; [|intros _]; apply touches_check_call; intros w.
  - rewrite run_gyb. by apply proc_gyb_reach.
  - rewrite run_rsync. by apply proc_rsync_reach.
Qed.

Lemma clear_touches (S D : string) (v : bool) :
  touches (helper_act D) (clear_gyb_files_from_previous_run S D v).
Proof.
  unfold clear_gyb_files_from_previous_run. apply touches_bind_ok.
  { apply os_listdir_touches. }
  intros s l s' (-> & -> & _)%os_listdir_ok.
  apply touches_for_each. intros n Hn%entries_is_name.
  destruct (Str.endswith n ".swift") eqn:Es; [|apply touches_ret].
  apply touches_bind; [apply os_path_exists_touches|]. intros b.
  apply touches_if; [|apply touches_ret].
  apply touches_check_call. intros w. rewrite run_rm.
  apply proc_rm_reach. simpl. eauto.
Qed.

Lemma helper_touches (S : string) (dest : option string) (ge : string)
    (ann v : bool) :
  touches (helper_act (dest_dir S dest)) (generate_gyb_files_helper S dest ge ann v).
Proof.
  unfold generate_gyb_files_helper. fold (dest_dir S dest).
  apply touches_bind; [apply make_dir_if_needed_touches; by left|]. intros _.
  apply touches_bind; [apply make_dir_if_needed_touches; by right|]. intros _.
  apply touches_bind; [apply clear_touches|]. intros _.
  apply touches_bind_ok; [apply os_listdir_touches|].
  intros s l s' (-> & -> & _)%os_listdir_ok.
  apply touches_executor_map. intros g [_ Hg%entries_is_name]%list_elem_of_filter.
  pose proof (slash_free_drop_last 4 g (is_name_slash_free g Hg)) as Hn.
  apply generate_single_touches; simpl.
  - left. by exists (Str.drop_last 4 g).
  - right. exists (Str.drop_last 4 g). auto.
  - right. exists (Str.drop_last 4 g). auto.
Qed.

Lemma syntax_touches (dest : option string) (ge : string) (ann v : bool) :
  touches (syntax_act (template_destination dest))
    (generate_syntax_node_template_gyb_files dest ge ann v).
Proof.
  unfold generate_syntax_node_template_gyb_files.
  fold (dest_dir SWIFTSYNTAX_DIR dest). fold (template_destination dest).
  apply touches_bind; [apply make_dir_if_needed_touches; by left|]. intros _.
  apply touches_bind; [apply make_dir_if_needed_touches; by right|]. intros _.
  apply touches_bind_ok; [apply os_listdir_touches|].
  intros s l s' (-> & -> & _)%os_listdir_ok.
  apply touches_bind; [|intros _].
  - apply touches_for_each. intros n Hn%entries_is_name.
    destruct (Str.endswith n ".swift") eqn:Es; [|apply touches_ret].
    destruct (bool_decide (n ∈ BASE_KIND_FILES.*2)) eqn:Eb; [apply touches_ret|].
    apply bool_decide_eq_false in Eb.
    apply touches_check_call. intros w. rewrite run_rm.
    apply proc_rm_reach. simpl. eauto 10.
  - apply touches_for_each. intros [k val] Hkv.
    assert (val ∈ BASE_KIND_FILES.*2) as Hv.
    { apply list_elem_of_fmap. by exists (k, val). }
    apply generate_single_touches; simpl.
    + left. exists val. split; [|done].
      by apply is_name_slash_free, values_is_name.
    + right. exists val. auto.
    + right. exists val. auto.
Qed.

Lemma check_gyb_exec_touches A (ge : string) : touches A (check_gyb_exec ge).
Proof.
  unfold check_gyb_exec, fatal_error.
  apply touches_bind; [apply os_path_exists_touches|]. intros b.
  apply touches_if; [|apply touches_ret].
  apply touches_bind; [apply touches_printerr|]. intros _. apply touches_raise.
Qed.

Lemma check_rsync_touches A : touches A check_rsync.
Proof.
  unfold check_rsync, call, fatal_error.
  apply touches_bind.
  - apply touches_bind; [apply touches_ret|]. intros _ s.
    unfold spawn. simpl. apply rtc_refl.
  - intros rc. apply touches_if; [|apply touches_ret].
    apply touches_bind; [apply touches_printerr|]. intros _. apply touches_raise.
Qed.

Lemma generate_touches (ge : string) (v ann : bool) (d1 d2 d3 d4 : option string) :
  touches (generate_act d1 d2 d3 d4) (generate_gyb_files ge v ann d1 d2 d3 d4).
Proof.
  unfold generate_gyb_files.
  apply touches_bind; [apply touches_print|]. intros _.
  apply touches_bind; [apply check_gyb_exec_touches|]. intros _.
  apply touches_bind; [apply check_rsync_touches|]. intros _.
  apply touches_bind.
  { eapply touches_mono; [|apply helper_touches]. unfold generate_act. tauto. }
  intros _. apply touches_bind.
  { eapply touches_mono; [|apply helper_touches]. unfold generate_act. tauto. }
  intros _. apply touches_bind.
  { eapply touches_mono; [|apply helper_touches]. unfold generate_act. tauto. }
  intros _. apply touches_bind.
  { eapply touches_mono; [|apply helper_touches]. unfold generate_act. tauto. }
  intros _. apply touches_bind.
  { eapply touches_mono; [|apply syntax_touches]. unfold generate_act. tauto. }
  intros _. apply touches_print.
Qed.

(** ** The directories of the package *)

Lemma dir_prefix_join (a n : string) :
  Path.is_name n = true →
  Path.dir_prefix (Path.join a n) = Path.dir_prefix a +:+ n +:+ "/".
Proof.
  intros Hn. rewrite join_name by by apply is_name_slash_free.
  by apply dir_prefix_child.
Qed.

Lemma join_inj (a b n n' : string) :
  Path.slash_free n = true → Path.slash_free n' = true →
  Path.join a n = Path.join b n' →
  Path.dir_prefix a = Path.dir_prefix b ∧ n = n'.
Proof. intros Hn Hn'. rewrite !join_name by done. by apply child_inj. Qed.

(** The directory prefixes of the directories the script works in, as
    extensions of the prefix of [SOURCES_DIR]. *)
Lemma prefix_source (X : string) :
  Path.is_name X = true →
  Path.dir_prefix (Path.join SOURCES_DIR X)
  = Path.dir_prefix SOURCES_DIR +:+ (X +:+ "/").
Proof. apply dir_prefix_join. Qed.

Lemma prefix_default_dest (X : string) :
  Path.is_name X = true →
  Path.dir_prefix (dest_dir (Path.join SOURCES_DIR X) None)
  = Path.dir_prefix SOURCES_DIR +:+ (X +:+ "/gyb_generated/").
Proof.
  intros HX. unfold dest_dir. rewrite dir_prefix_join by done.
  rewrite prefix_source by done. by rewrite !str_app_assoc.
Qed.

Lemma prefix_default_template_destination :
  Path.dir_prefix (template_destination None)
  = Path.dir_prefix SOURCES_DIR +:+ "SwiftSyntax/gyb_generated/syntax_nodes/".
Proof.
  unfold template_destination. rewrite dir_prefix_join by done.
  unfold SWIFTSYNTAX_DIR. rewrite prefix_default_dest by done.
  by rewrite !str_app_assoc.
Qed.

(** ** Files are removed by [rm] only *)

Lemma fs_step_keeps_file A (m m' : gmap string node) (p : string) :
  fs_step A m m' → (¬ A (ARm p)) → is_file m p → is_file m' p.
Proof.
  intros Hs HA (c & t & Hp). destruct Hs as [q c' t' Hq _|q c' t' _ _|q _ Hq _].
  - exists c, t. rewrite lookup_delete_ne; [done|]. by intros ->.
  - destruct (decide (q = p)) as [->|].
    + exists c', t'. by rewrite lookup_insert_eq.
    + exists c, t. by rewrite lookup_insert_ne.
  - exists c, t. rewrite lookup_insert_ne; [done|]. intros ->. congruence.
Qed.

Lemma reach_keeps_file A (m m' : gmap string node) (p : string) :
  reach A m m' → (¬ A (ARm p)) → is_file m p → is_file m' p.
Proof.
  intros H HA. induction H as [|m1 m2 m3 Hs _ IH]; [done|].
  intros Hp. apply IH. by eapply fs_step_keeps_file.
Qed.

(** C7.  Allow-list protection.  Whatever the state of the file system and
    whatever the outcome of the run, a file of the syntax-node destination
    whose name is one of the values of [BASE_KIND_FILES] is still there
    when [generate_gyb_files] (run on the default destinations, as the
    [generate-source-code] command runs it) ends: no [rm] that any pruning
    loop issues is aimed at it, be there a template for it or not. *)
Theorem allow_list_never_pruned (ge : string) (v ann : bool) (s : state)
    (name : string) :
  name ∈ BASE_KIND_FILES.*2 →
  is_file (fs s) (Path.join (template_destination None) name) →
  (¬ generate_act None None None None
       (ARm (Path.join (template_destination None) name)))
  ∧ is_file (fs (generate_gyb_files ge v ann None None None None s).2)
      (Path.join (template_destination None) name).
Proof.
  intros Hname Hfile.
  assert (¬ generate_act None None None None
              (ARm (Path.join (template_destination None) name))) as HA.
  { pose proof (values_is_name name Hname) as Hn.
    pose proof (is_name_slash_free name Hn) as Hsf.
    assert (∀ X n, Path.is_name X = true → Path.is_name n = true →
              X +:+ "/gyb_generated/" ≠ "SwiftSyntax/gyb_generated/syntax_nodes/" →
              Path.join (template_destination None) name
              ≠ Path.join (dest_dir (Path.join SOURCES_DIR X) None) n) as Hne.
    { intros X n HX Hn' Hc E.
      apply join_inj in E as [E _]; [|done|by apply is_name_slash_free].
      rewrite prefix_default_template_destination, prefix_default_dest in E by done.
      apply str_app_inv_l in E. congruence. }
    unfold generate_act. intros [H|[H|[H|[H|H]]]].
    - destruct H as (n & Hn' & _ & E). by eapply (Hne "SwiftSyntax" n).
    - destruct H as (n & Hn' & _ & E). by eapply (Hne "SwiftSyntaxBuilder" n).
    - destruct H as (n & Hn' & _ & E). by eapply (Hne "SwiftSyntaxParser" n).
    - destruct H as (n & Hn' & _ & E).
      by eapply (Hne "SwiftSyntaxBuilderGeneration" n).
    - destruct H as (n & Hn' & _ & Hnot & E).
      apply join_inj in E as [_ ->]; [done|done|by apply is_name_slash_free]. }
  split; [done|].
  eapply reach_keeps_file; [apply generate_touches|done|done].
Qed.

(** ** One template: render, then synchronise *)

Lemma bind_ok_inv {X Y} (m : M X) (k : X → M Y) (s s' : state) (y : Y) :
  bind m k s = (Ok y, s') → ∃ x s1, m s = (Ok x, s1) ∧ k x s1 = (Ok y, s').
Proof. unfold bind. destruct (m s) as [[x|e] s1]; [eauto|done]. Qed.

Lemma bind_eq_ok {X Y} (m : M X) (k : X → M Y) (s s1 : state) (x : X) :
  m s = (Ok x, s1) → bind m k s = k x s1.
Proof. unfold bind. by intros ->. Qed.

Lemma bind_eq_raise {X Y} (m : M X) (k : X → M Y) (s s1 : state) (e : exn) :
  m s = (Raise e, s1) → bind m k s = (Raise e, s1).
Proof. unfold bind. by intros ->. Qed.

Lemma check_call_ok (cmd : list string) (v : bool) (s s' : state) :
  check_call cmd None v s = (Ok tt, s') →
  (run_process cmd None s).1 = 0%Z ∧ world_of s' = (run_process cmd None s).2.
Proof.
  rewrite check_call_eq. simpl.
  destruct (decide ((run_process cmd None s).1 = 0%Z)); [|done].
  by intros [= <-].
Qed.

Lemma proc_gyb_ok (ge tp out : string) (fl : list string) (w : world) :
  (proc_gyb (ge :: tp :: "-o" :: out :: fl) w).1 = 0%Z →
  ∃ c, rendering (fs w) ge tp fl = Some c ∧ can_write (fs w) out = true
       ∧ (proc_gyb (ge :: tp :: "-o" :: out :: fl) w).2 = write_file out c w.
Proof.
  unfold proc_gyb, rendering.
  destruct (fs w !! ge) as [[? ?|]|]; try done.
  destruct (fs w !! tp) as [[body ?|]|]; try done.
  destruct (gyb tp body fl) as [c|]; [|done].
  destruct (can_write (fs w) out); [|done]. eauto.
Qed.

Lemma proc_gyb_fail (ge tp out : string) (fl : list string) (w : world) :
  (proc_gyb (ge :: tp :: "-o" :: out :: fl) w).1 ≠ 0%Z →
  (proc_gyb (ge :: tp :: "-o" :: out :: fl) w).2 = w
  ∧ (rendering (fs w) ge tp fl = None ∨ can_write (fs w) out = false).
Proof.
  unfold proc_gyb, rendering.
  destruct (fs w !! ge) as [[? ?|]|]; try by auto.
  destruct (fs w !! tp) as [[body ?|]|]; try by auto.
  destruct (gyb tp body fl) as [c|]; [|by auto].
  destruct (can_write (fs w) out); [done|by auto].
Qed.

(** C5.  The synchroniser.  When [generate_single_gyb_file] succeeds (its
    scratch file and its destination being different paths, and the
    destination not a directory), the scratch file holds the rendering [c]
    and the destination was compared with it by content: a destination of
    the same content is left as it was, modification time included, and
    nothing is copied; a destination of another content, or an absent one,
    is replaced by a copy of the scratch file, stamped with the time of the
    copy. *)
Theorem synchroniser_copies_only_on_difference
    (ge tp n D : string) (ann : bool) (extra : list string) (v : bool)
    (s s' : state) :
  scratch_of n ≠ Path.join D n →
  is_dir (fs s) (Path.join D n) = false →
  generate_single_gyb_file ge tp n D tempdir ann extra v s = (Ok tt, s') →
  ∃ c, rendering (fs s) ge tp (line_directive_flags ann ++ extra) = Some c
       ∧ fs s' !! scratch_of n = Some (File c (clock s))
       ∧ match fs s !! Path.join D n with
         | Some (File c' t') =>
             if decide (c = c')
             then fs s' !! Path.join D n = Some (File c' t')
                  ∧ copied s' = copied s
             else fs s' !! Path.join D n = Some (File c (S (clock s)))
                  ∧ copied s' = copied s ++ [Path.join D n]
         | _ =>
             fs s' !! Path.join D n = Some (File c (S (clock s)))
             ∧ copied s' = copied s ++ [Path.join D n]
         end.
Proof.
  intros Hne Hnd Hrun. unfold generate_single_gyb_file in Hrun.
  apply bind_ok_inv in Hrun as ([] & s1 & H1 & H2).
  apply check_call_ok in H1 as [Hrc1 Hw1]. rewrite run_gyb in Hrc1, Hw1.
  apply proc_gyb_ok in Hrc1 as (c & Hc & Hcw & Hw). rewrite Hw in Hw1.
  apply check_call_ok in H2 as [Hrc2 Hw2]. rewrite run_rsync in Hrc2, Hw2.
  fold (scratch_of n) in *. rewrite Hw1 in Hrc2, Hw2.
  exists c. split; [done|].
  unfold proc_rsync in Hrc2, Hw2. simpl fs in Hrc2, Hw2.
  rewrite lookup_insert_eq in Hrc2, Hw2.
  assert (is_dir (<[scratch_of n:=File c (clock s)]> (fs s)) (Path.join D n) = false)
    as Hnd'.
  { unfold is_dir in *. rewrite lookup_insert_ne by done. done. }
  rewrite Hnd' in Hrc2, Hw2.
  unfold rsync_transfer in Hrc2, Hw2. simpl fs in Hrc2, Hw2.
  rewrite lookup_insert_ne in Hrc2, Hw2 by done.
  destruct (fs s !! Path.join D n) as [[c' t'|]|] eqn:Ed.
  - destruct (decide (c = c')) as [->|Hcc].
    + rewrite Hw2. simpl. rewrite lookup_insert_eq, lookup_insert_ne by done. done.
    + rewrite Hw2. simpl. rewrite lookup_insert_eq.
      rewrite lookup_insert_ne by done. by rewrite lookup_insert_eq.
  - done.
  - destruct (can_create _ _); [|done].
    rewrite Hw2. simpl. rewrite lookup_insert_eq.
    rewrite lookup_insert_ne by done. by rewrite lookup_insert_eq.
Qed.

(** ** Invariants with an exceptional exit *)

Lemma ff_weaken {X} (P : state → Prop) (F F' : exn → state → Prop) (m : M X) :
  (∀ e s, F e s → F' e s) → ff P F m → ff P F' m.
Proof.
  intros HF H s Hs. specialize (H s Hs). destruct (m s).1; [done|by apply HF].
Qed.

Lemma ff_ret {X} P F (x : X) : ff P F (ret x).
Proof. by intros s Hs. Qed.

Lemma ff_raise {X} (P : state → Prop) (F : exn → state → Prop) (e : exn) :
  (∀ s, P s → F e s) → ff P F (@raise X e).
Proof. intros H s Hs. by apply H. Qed.

Lemma ff_bind {X Y} P F (m : M X) (k : X → M Y) :
  ff P F m → (∀ x, ff P F (k x)) → ff P F (bind m k).
Proof.
  intros Hm Hk. eapply hoare_bind; [|intros x; apply Hk]. exact Hm.
Qed.

Lemma ff_bind_ok {X Y} (P : state → Prop) F (m : M X) (k : X → M Y) :
  ff P F m →
  (∀ s x s', P s → m s = (Ok x, s') →
     match (k x s').1 with Ok _ => P (k x s').2 | Raise e => F e (k x s').2 end) →
  ff P F (bind m k).
Proof.
  intros Hm Hk s Hs. specialize (Hm s Hs). unfold bind.
  destruct (m s) as [[x|e] s'] eqn:E; simpl in *; [|done]. by eapply Hk.
Qed.

Lemma ff_if {X} P F (b : bool) (m1 m2 : M X) :
  ff P F m1 → ff P F m2 → ff P F (if b then m1 else m2).
Proof. by destruct b. Qed.

Lemma ff_for_each {X} P F (xs : list X) (body : X → M unit) :
  (∀ x, x ∈ xs → ff P F (body x)) → ff P F (for_each xs body).
Proof.
  induction xs as [|x xs IH]; intros H; simpl; [apply ff_ret|].
  apply ff_bind; [apply H; left|]. intros _. apply IH.
  intros y Hy. apply H. by right.
Qed.

Lemma ff_executor_map {X} (P : state → Prop) F (xs : list X) (f : X → M unit) :
  (∀ x, x ∈ xs → ff P (λ _, P) (f x)) → ff P F (executor_map_discarded f xs).
Proof.
  induction xs as [|x xs IH]; intros H; simpl; [apply ff_ret|].
  intros s Hs. pose proof (H x ltac:(left) s Hs) as Hx.
  destruct (f x s) as [r s']. simpl in Hx.
  apply IH; [intros y Hy; apply H; by right|]. by destruct r.
Qed.

Lemma ff_modify (P : state → Prop) F (f : state → state) :
  (∀ s, P s → P (f s)) → ff P F (modify f).
Proof. intros H s Hs. by apply H. Qed.

Lemma ff_os_op {X} (P : state → Prop) (F : exn → state → Prop)
    (f : world → outcome X * world) :
  (∀ s w, P s → P (set_world w s)) → (∀ s e, P s → F e s) →
  ff P F (os_op f).
Proof.
  intros HP HF s Hs. unfold os_op. destruct (f s) as [[x|e] w]; simpl.
  - by apply HP.
  - apply HF. by apply HP.
Qed.

(** ** A failed [rm] ends the run *)

Section rm_failure.
Variable t0 : list (list string * Z).
Variable e0 : list string.

Lemma calm_aborted (e : exn) (s : state) : calm t0 e0 s → aborted t0 e0 e s.
Proof. intros [H _]. by left. Qed.

Lemma calm_set_world (w : world) (s : state) :
calm t0 e0 s → calm t0 e0 (set_world w s).
Proof. done. Qed.

Lemma calm_put_stdout (l : string) (s : state) :
calm t0 e0 s → calm t0 e0 (put_stdout l s).
Proof. done. Qed.

Lemma calm_log_proc (cmd : list string) (rc : Z) (s : state) :
¬ rm_failed (cmd, rc) → calm t0 e0 s → calm t0 e0 (log_proc cmd rc s).
Proof.
intros Hg [(tr & Htr & Hall) He]. split; [|done].
exists (tr ++ [(cmd, rc)]). simpl. rewrite Htr, <- app_assoc. split; [done|].
apply Forall_app. split; [done|]. by constructor.
Qed.

Lemma ff_print (l : string) F : ff (calm t0 e0) F (print l).
Proof. apply ff_modify. intros s. apply calm_put_stdout. Qed.

Lemma ff_calm_os_op {X} (f : world → outcome X * world) :
ff (calm t0 e0) (λ _, calm t0 e0) (os_op f).
Proof. apply ff_os_op; [intros s w; apply calm_set_world|done]. Qed.

(** A process that is not [rm]: whatever its exit status, the log stays
  calm. *)
Lemma ff_check_call_quiet (cmd : list string) (cwd : option string) (v : bool) :
head cmd ≠ Some "rm" → ff (calm t0 e0) (λ _, calm t0 e0) (check_call cmd cwd v).
Proof.
intros Hh s Hs. rewrite check_call_eq. simpl.
assert (calm t0 e0 (if v then put_stdout (escapeCmd cmd) s else s)) as Hs'.
{ by destruct v. }
destruct (cwd_ok _ _); simpl; [|done].
assert (∀ rc, ¬ rm_failed (cmd, rc)) as Hg.
{ intros rc [H _]. by apply Hh. }
destruct (decide _); simpl; by apply calm_log_proc.
Qed.

(** An [rm]: it exits with status 0, or the call raises and the log ends
  with the failed [rm]. *)
Lemma ff_check_call_rm (cmd : list string) (cwd : option string) (v : bool) :
ff (calm t0 e0) (aborted t0 e0) (check_call cmd cwd v).
Proof.
intros s Hs. rewrite check_call_eq. simpl.
assert (calm t0 e0 (if v then put_stdout (escapeCmd cmd) s else s)) as Hs'.
{ by destruct v. }
destruct (cwd_ok _ _); simpl; [|by apply calm_aborted].
destruct (decide ((run_process cmd cwd s).1 = 0%Z)) as [Hrc|Hrc]; simpl.
- apply calm_log_proc; [|done]. intros [_ H]. by apply H.
- destruct (decide (head cmd = Some "rm")) as [Hh|Hh].
  + destruct Hs' as [(tr & Htr & Hall) He].
    right. exists tr, cmd, (run_process cmd cwd s).1.
    split; [done|]. split; [|done]. simpl. rewrite Htr.
    by rewrite <- app_assoc.
  + apply calm_aborted, calm_log_proc; [|done]. intros [H _]. by apply Hh.
Qed.

Lemma ff_generate_single (ge tp n D T : string) (ann : bool)
  (extra : list string) (v : bool) :
ff (calm t0 e0) (λ _, calm t0 e0)
  (generate_single_gyb_file ge tp n D T ann extra v).
Proof.
unfold generate_single_gyb_file.
apply ff_bind; [|intros _]; by apply ff_check_call_quiet.
Qed.

Lemma ff_make_dir_if_needed (p : string) :
ff (calm t0 e0) (aborted t0 e0) (make_dir_if_needed p).
Proof.
apply (ff_weaken _ (λ _, calm t0 e0)); [intros; by apply calm_aborted|].
unfold make_dir_if_needed, os_path_exists, os_makedirs.
apply ff_bind; [apply ff_calm_os_op|]. intros b.
apply ff_if; [apply ff_calm_os_op|apply ff_ret].
Qed.

Lemma ff_os_listdir (d : string) :
ff (calm t0 e0) (aborted t0 e0) (os_listdir d).
Proof.
apply (ff_weaken _ (λ _, calm t0 e0)); [intros; by apply calm_aborted|].
apply ff_calm_os_op.
Qed.

Lemma ff_clear (S D : string) (v : bool) :
ff (calm t0 e0) (aborted t0 e0) (clear_gyb_files_from_previous_run S D v).
Proof.
unfold clear_gyb_files_from_previous_run.
apply ff_bind; [apply ff_os_listdir|]. intros l.
apply ff_for_each. intros n _.
apply ff_if; [|apply ff_ret].
apply ff_bind.
{ apply (ff_weaken _ (λ _, calm t0 e0)); [intros; by apply calm_aborted|].
  apply ff_calm_os_op. }
intros b. apply ff_if; [apply ff_check_call_rm|apply ff_ret].
Qed.

Lemma ff_helper (S : string) (dest : option string) (ge : string) (ann v : bool) :
ff (calm t0 e0) (aborted t0 e0) (generate_gyb_files_helper S dest ge ann v).
Proof.
unfold generate_gyb_files_helper.
apply ff_bind; [apply ff_make_dir_if_needed|]. intros _.
apply ff_bind; [apply ff_make_dir_if_needed|]. intros _.
apply ff_bind; [apply ff_clear|]. intros _.
apply ff_bind; [apply ff_os_listdir|]. intros l.
apply ff_executor_map. intros g _. apply ff_generate_single.
Qed.

Lemma ff_syntax (dest : option string) (ge : string) (ann v : bool) :
ff (calm t0 e0) (aborted t0 e0)
  (generate_syntax_node_template_gyb_files dest ge ann v).
Proof.
unfold generate_syntax_node_template_gyb_files.
apply ff_bind; [apply ff_make_dir_if_needed|]. intros _.
apply ff_bind; [apply ff_make_dir_if_needed|]. intros _.
apply ff_bind; [apply ff_os_listdir|]. intros l.
apply ff_bind; [|intros _].
- apply ff_for_each. intros n _.
  apply ff_if; [|apply ff_ret].
  apply ff_if; [apply ff_check_call_rm|apply ff_ret].
- apply ff_for_each. intros kv _.
  apply (ff_weaken _ (λ _, calm t0 e0)); [intros; by apply calm_aborted|].
  apply ff_generate_single.
Qed.

Lemma ff_fatal_error (message : string) :
ff (calm t0 e0) (aborted t0 e0) (fatal_error message).
Proof. intros s [H _]. by left. Qed.

Lemma ff_generate (ge : string) (v ann : bool) (d1 d2 d3 d4 : option string) :
ff (calm t0 e0) (aborted t0 e0) (generate_gyb_files ge v ann d1 d2 d3 d4).
Proof.
unfold generate_gyb_files.
apply ff_bind; [apply ff_print|]. intros _.
apply ff_bind.
{ unfold check_gyb_exec. apply ff_bind.
  - apply (ff_weaken _ (λ _, calm t0 e0)); [intros; by apply calm_aborted|].
    apply ff_calm_os_op.
  - intros b. apply ff_if; [apply ff_fatal_error|apply ff_ret]. }
intros _. apply ff_bind.
{ unfold check_rsync, call. apply ff_bind.
  - apply ff_bind; [apply ff_ret|]. intros _ s Hs. unfold spawn.
    destruct (run_process _ _ _) as [rc w]. simpl.
    apply calm_log_proc; [|done]. by intros [[=] _].
  - intros rc. apply ff_if; [apply ff_fatal_error|apply ff_ret]. }
intros _. apply ff_bind; [apply ff_helper|]. intros _.
apply ff_bind; [apply ff_helper|]. intros _.
apply ff_bind; [apply ff_helper|]. intros _.
apply ff_bind; [apply ff_helper|]. intros _.
apply ff_bind; [apply ff_syntax|]. intros _.
apply ff_print.
Qed.

End rm_failure.

Lemma no_rm_failed_not_in (t0 : list (list string * Z)) (s : state)
    (e : list string * Z) :
  no_rm_failed t0 s → e ∈ drop (length t0) (procs s) → ¬ rm_failed e.
Proof.
  intros (tr & -> & Hall). rewrite drop_app_length. intros Hin.
  by eapply Forall_forall in Hall.
Qed.

(** C2, as the code has it.  A failed delete is fatal.  In a
    [generate-source-code --gyb-only] run, when an [rm] issued by a pruning
    loop exits with a non-zero status, that [rm] is the last process the
    run starts (no template is rendered after it), the command ends with
    [SystemExit(1)], and the error output reports the failure of that very
    command. *)
Theorem prune_failure_is_fatal (args : Namespace) (s : state)
    (cmd : list string) (rc : Z) :
  args_gyb_only args = true →
  (cmd, rc) ∈ drop (length (procs s))
                (procs (generate_source_code_command args s).2) →
  rm_failed (cmd, rc) →
  (generate_source_code_command args s).1 = Raise (SystemExit 1)
  ∧ last (procs (generate_source_code_command args s).2) = Some (cmd, rc)
  ∧ stderr (generate_source_code_command args s).2
    = stderr s ++ failure_report "Generating .gyb files failed" cmd None.
Proof.
  intros Hgo. unfold generate_source_code_command. rewrite Hgo. simpl negb.
  pose proof (ff_generate (procs s) (stderr s) (args_gyb_exec args)
                (args_verbose args) (args_add_source_locations args)
                None None None None s) as H.
  unfold bind, try_called_process_error at 2.
  unfold try_called_process_error.
  destruct (generate_gyb_files _ _ _ _ _ _ _ s) as [[[]|e] s1] eqn:E;
    simpl in H.
  - simpl. intros Hin Hf. exfalso.
    assert (calm (procs s) (stderr s) s) as Hs.
    { split; [|done]. exists []. by rewrite app_nil_r. }
    destruct (H Hs) as [Hn _]. by eapply no_rm_failed_not_in.
  - assert (calm (procs s) (stderr s) s) as Hs.
    { split; [|done]. exists []. by rewrite app_nil_r. }
    destruct (H Hs) as [Hn|(tr & cmd' & rc' & -> & Hp & Hall & Hf' & He)].
    + intros Hin Hf. exfalso.
      assert ((cmd, rc) ∈ drop (length (procs s)) (procs s1)) as Hin'.
      { destruct e; exact Hin. }
      by eapply no_rm_failed_not_in.
    + simpl. rewrite Hp, He. rewrite drop_app_length.
      intros Hin Hf. apply elem_of_app in Hin as [Hin|Hin].
      { exfalso. by eapply Forall_forall in Hall. }
      apply list_elem_of_singleton in Hin as [= -> ->].
      split; [done|]. split; [by rewrite app_assoc, last_snoc|].
      unfold failure_report. by rewrite <- !app_assoc.
Qed.

(** ** Pruning *)

Lemma swift_is_not_gyb (x : string) :
  Str.endswith (x +:+ ".gyb") ".swift" = false.
Proof.
  destruct (Str.endswith (x +:+ ".gyb") ".swift") eqn:E; [|done].
  assert (Str.endswith ".swift" ".gyb" = true) as H; [|done].
  eapply (endswith_both (x +:+ ".gyb")); [simpl; lia|apply endswith_app|done].
Qed.

Lemma slash_free_template (x : string) :
  Path.slash_free x = true → Path.slash_free (x +:+ ".gyb") = true.
Proof. intros H. by rewrite slash_free_app, H. Qed.

(** The path of a template is not the path of an orphan. *)
Lemma template_not_pruned (m : gmap string node) (S D x : string)
    (visited : list string) :
  Path.is_name x = true →
  pruned_upto m S D visited (Path.join S (x +:+ ".gyb")) = false.
Proof.
  intros Hx. unfold pruned_upto.
  destruct (Str.strip_prefix _ _) as [n|] eqn:E; [|done].
  apply strip_prefix_spec in E. unfold orphan_name.
  destruct (Path.is_name n) eqn:Hn; [|done].
  rewrite join_name in E by by apply slash_free_template, is_name_slash_free.
  apply child_inj in E as [_ E];
    [|by apply slash_free_template, is_name_slash_free|by apply is_name_slash_free].
  subst n. by rewrite swift_is_not_gyb.
Qed.

Lemma dir_not_pruned (m : gmap string node) (S D : string) (visited : list string) :
  pruned_upto m S D visited D = false.
Proof.
  unfold pruned_upto. destruct (Str.strip_prefix _ _) as [n|] eqn:E; [|done].
  apply strip_prefix_spec in E. unfold orphan_name.
  destruct (Path.is_name n) eqn:Hn; [|done].
  symmetry in E. by apply child_not_dir in E.
Qed.

Lemma pruned_upto_snoc (m : gmap string node) (S D x : string)
    (visited : list string) (p : string) :
  Path.is_name x = true →
  pruned_upto m S D (visited ++ [x]) p
  = pruned_upto m S D visited p
    || (bool_decide (p = Path.join D x) && orphan_name m S x).
Proof.
  intros Hx. unfold pruned_upto.
  rewrite join_name by by apply is_name_slash_free.
  destruct (Str.strip_prefix _ _) as [n|] eqn:E.
  - apply strip_prefix_spec in E. subst p.
    destruct (decide (n = x)) as [->|Hne].
    + rewrite (bool_decide_eq_true_2 (_ = _)) by done.
      rewrite (bool_decide_eq_true_2 (x ∈ visited ++ [x])).
      * by destruct (orphan_name m S x), (bool_decide (x ∈ visited)).
      * apply elem_of_app. right. apply list_elem_of_here.
    + rewrite (bool_decide_eq_false_2 (_ +:+ n = _)).
      * rewrite orb_false_r. f_equal. apply bool_decide_ext.
        rewrite elem_of_app, list_elem_of_singleton. naive_solver.
      * intros Heq. by apply str_app_inv_l in Heq.
  - rewrite (bool_decide_eq_false_2 (p = _)); [done|].
    intros ->. by rewrite strip_prefix_app in E.
Qed.

(** C6, as the code has it.  When the pruning loop of a batch returns
    normally, it has removed exactly the entries of the destination whose
    name ends in [.swift] and for which the sources directory holds no
    template [name.gyb]; every other path is as it was.  In particular an
    entry that has a template is retained, and so is an entry whose name
    does not end in [.swift], be there a template for it or not; there is
    no allow-list in this loop. *)
Theorem pruning_removes_swift_orphans (S D : string) (v : bool) (s s' : state) :
  clear_gyb_files_from_previous_run S D v s = (Ok tt, s') →
  ∀ p, fs s' !! p = if is_orphan (fs s) S D p then None else fs s !! p.
Proof.
  intros Hrun.
  set (m := fs s).
  set (I := λ (visited : list string) (s1 : state),
         is_dir m D = true
         ∧ ∀ p, fs s1 !! p = if pruned_upto m S D visited p then None else m !! p).
  set (Q := λ (r : outcome unit) (s1 : state),
         match r with
         | Ok _ => ∀ p, fs s1 !! p = if is_orphan m S D p then None else m !! p
         | Raise _ => True
         end).
  unfold clear_gyb_files_from_previous_run in Hrun.
  destruct (os_listdir D s) as [[l|e] s0] eqn:El;
    [|by rewrite (bind_eq_raise _ _ _ _ _ El) in Hrun].
  rewrite (bind_eq_ok _ _ _ _ _ El) in Hrun.
  apply os_listdir_ok in El as (-> & -> & Hdir). fold m in Hrun, Hdir.
  assert (hoare (I []) (for_each (entries m D) (λ previous_gyb_gen_file,
            if Str.endswith previous_gyb_gen_file ".swift" then
              bind (os_path_exists
                      (Path.join S (previous_gyb_gen_file +:+ ".gyb")))
                (λ exists_, if negb exists_
                            then check_call ["rm"; previous_gyb_gen_file] (Some D) v
                            else ret tt)
            else ret tt)) Q) as Hloop.
  { apply hoare_for_each.
    - intros visited x rest Hl.
      assert (x ∈ entries m D) as Hx.
      { rewrite Hl. apply elem_of_app. right. apply list_elem_of_here. }
      assert (x ∉ visited) as Hnv.
      { pose proof (entries_NoDup m D) as Hnd. rewrite Hl in Hnd.
        apply NoDup_app in Hnd as (_ & Hnd & _). intros Hin.
        apply (Hnd x Hin). apply list_elem_of_here. }
      apply entries_spec in Hx as [Hname [nd Hnd]].
      destruct (Str.endswith x ".swift") eqn:Es.
      + eapply (hoare_bind _ _ _
                  (λ b s2, I visited s2
                           ∧ b = bool_decide
                                   (is_Some (m !! Path.join S (x +:+ ".gyb"))))).
        { apply hoare_os_op. intros s2 [Hd2 Hinv2]. simpl. split; [done|].
          by rewrite Hinv2, template_not_pruned. }
        intros b s2 [[_ Hinv2] ->].
        assert (∀ b, orphan_name m S x = b →
                  (∀ p, (if b && bool_decide (p = Path.join D x) then None
                          else fs s2 !! p)
                        = if pruned_upto m S D (visited ++ [x]) p then None
                          else m !! p)) as Hnext2.
        { intros b Hb p. rewrite pruned_upto_snoc, Hb, Hinv2 by done.
          destruct (pruned_upto m S D visited p), b, (bool_decide _); done. }
        destruct (bool_decide (is_Some (m !! Path.join S (x +:+ ".gyb")))) eqn:Eb;
          cbn [negb].
        * simpl. split; [done|]. intros p. rewrite <- (Hnext2 false); [done|].
          unfold orphan_name. by rewrite Eb, andb_false_r.
        * assert (is_dir (fs s2) D = true) as Hd2.
          { unfold is_dir. rewrite Hinv2, dir_not_pruned. exact Hdir. }
          rewrite check_call_eq. cbv zeta. unfold cwd_ok. rewrite Hd2.
          assert (orphan_name m S x = true) as Ho.
          { unfold orphan_name. by rewrite Hname, Es, Eb. }
          rewrite run_rm. unfold proc_rm, resolve.
          rewrite join_name by by apply is_name_slash_free.
          destruct (Str.startswith x "-"); [by simpl|].
          rewrite Hinv2.
          assert (pruned_upto m S D visited (Path.dir_prefix D +:+ x) = false) as Hp.
          { unfold pruned_upto. rewrite strip_prefix_app.
            by rewrite (bool_decide_eq_false_2 (x ∈ visited)), andb_false_r. }
          rewrite Hp, Hnd. destruct nd as [c t|]; [|by simpl].
          destruct (rm_denied _); [by simpl|]. simpl.
          split; [done|]. intros p. rewrite <- (Hnext2 true) by done. simpl.
          rewrite join_name by by apply is_name_slash_free.
          destruct (decide (p = Path.dir_prefix D +:+ x)) as [->|Hne].
          -- rewrite bool_decide_eq_true_2 by done. apply lookup_delete_eq.
          -- rewrite bool_decide_eq_false_2 by done. by apply lookup_delete_ne.
      + intros s1 [_ Hinv]. simpl. split; [done|]. intros p.
        assert (pruned_upto m S D (visited ++ [x]) p = pruned_upto m S D visited p)
          as ->; [|done].
        rewrite pruned_upto_snoc by done. unfold orphan_name.
        by rewrite Es, andb_false_r, andb_false_l, andb_false_r, orb_false_r.
    - intros s1 [_ Hinv] p. rewrite Hinv. unfold pruned_upto, is_orphan.
      destruct (Str.strip_prefix _ _) as [n|] eqn:E; [|done].
      apply strip_prefix_spec in E. subst p.
      destruct (orphan_name m S n) eqn:Ho; [|done]. simpl.
      destruct (bool_decide (n ∈ entries m D)) eqn:Ee; [done|].
      apply bool_decide_eq_false in Ee.
      destruct (m !! (Path.dir_prefix D +:+ n)) eqn:En; [|done].
      exfalso. apply Ee. apply entries_spec. split; [|by eexists].
      unfold orphan_name in Ho. by destruct (Path.is_name n). }
  specialize (Hloop s). rewrite Hrun in Hloop. simpl in Hloop.
  apply Hloop. split; [done|]. intros p. unfold pruned_upto.
  destruct (Str.strip_prefix _ _); [|done].
  rewrite (bool_decide_eq_false_2 (_ ∈ [])); [by rewrite andb_false_r|].
  apply not_elem_of_nil.
Qed.

(** ** The scratch files *)

Lemma rsync_transfer_keeps (c dst p : string) (t : nat) (w : world) :
  fs w !! p = Some (File c t) →
  fs (rsync_transfer c dst w).2 !! p = Some (File c t).
Proof.
  intros Hp. unfold rsync_transfer.
  destruct (decide (dst = p)) as [->|Hne].
  - rewrite Hp. by rewrite decide_True.
  - destruct (fs w !! dst) as [[c' t'|]|]; [|done|].
    + destruct (decide (c = c')); [done|]. simpl. by rewrite lookup_insert_ne.
    + destruct (can_create _ _); [|done]. simpl. by rewrite lookup_insert_ne.
Qed.

Lemma generate_single_leaves_scratch (ge tp n D : string) (ann : bool)
    (extra : list string) (v : bool) (s s' : state) :
  generate_single_gyb_file ge tp n D tempdir ann extra v s = (Ok tt, s') →
  ∃ c, rendering (fs s) ge tp (line_directive_flags ann ++ extra) = Some c
       ∧ fs s' !! scratch_of n = Some (File c (clock s)).
Proof.
  intros Hrun. unfold generate_single_gyb_file in Hrun.
  apply bind_ok_inv in Hrun as ([] & s1 & H1 & H2).
  apply check_call_ok in H1 as [Hrc1 Hw1]. rewrite run_gyb in Hrc1, Hw1.
  apply proc_gyb_ok in Hrc1 as (c & Hc & Hcw & Hw). rewrite Hw in Hw1.
  apply check_call_ok in H2 as [_ Hw2]. rewrite run_rsync in Hw2.
  fold (scratch_of n) in *. exists c. split; [done|].
  rewrite Hw2, Hw1. unfold proc_rsync. simpl fs.
  rewrite lookup_insert_eq.
  destruct (is_dir _ _); apply rsync_transfer_keeps; simpl;
    by rewrite lookup_insert_eq.
Qed.

Lemma default_dest_in_sources (X : string) :
  Path.is_name X = true →
  Str.startswith (Path.dir_prefix (dest_dir (Path.join SOURCES_DIR X) None))
    (Path.dir_prefix SOURCES_DIR) = true.
Proof. intros HX. rewrite prefix_default_dest by done. apply startswith_app. Qed.

Lemma default_template_destination_in_sources :
  Str.startswith (Path.dir_prefix (template_destination None))
    (Path.dir_prefix SOURCES_DIR) = true.
Proof. rewrite prefix_default_template_destination. apply startswith_app. Qed.

(** No pruning loop of a run on the default destinations removes a file of
    a directory that is not inside [Sources]. *)
Lemma generate_removes_in_sources_only (T n : string) :
  Str.startswith (Path.dir_prefix T) (Path.dir_prefix SOURCES_DIR) = false →
  Path.slash_free n = true →
  ¬ generate_act None None None None (ARm (Path.join T n)).
Proof.
  intros HT Hn.
  assert (∀ D n', Path.is_name n' = true →
            Str.startswith (Path.dir_prefix D) (Path.dir_prefix SOURCES_DIR) = true →
            Path.join T n ≠ Path.join D n') as Hne.
  { intros D n' Hn' HD E.
    apply join_inj in E as [E _]; [|done|by apply is_name_slash_free].
    congruence. }
  unfold generate_act. intros [H|[H|[H|[H|H]]]].
  - destruct H as (n' & Hn' & _ & E).
    eapply Hne; [done| |exact E]. by apply default_dest_in_sources.
  - destruct H as (n' & Hn' & _ & E).
    eapply Hne; [done| |exact E]. by apply default_dest_in_sources.
  - destruct H as (n' & Hn' & _ & E).
    eapply Hne; [done| |exact E]. by apply default_dest_in_sources.
  - destruct H as (n' & Hn' & _ & E).
    eapply Hne; [done| |exact E]. by apply default_dest_in_sources.
  - destruct H as (n' & Hn' & _ & _ & E).
    eapply Hne; [done| |exact E]. apply default_template_destination_in_sources.
Qed.

(** C9, as the code has it.  The scratch location is the directory
    [tempfile.gettempdir()] itself, the same for every batch and every run,
    and nothing cleans it: a successful [generate_single_gyb_file] leaves
    its rendering in the scratch file [tempdir/name]; and, the temporary
    directory not lying inside [Sources], a regular file of the temporary
    directory that is there when [generate_gyb_files] starts is still there
    when it ends, whatever the outcome. *)
Theorem scratch_files_are_left_behind :
  (∀ ge tp n D ann extra v (s s' : state),
     generate_single_gyb_file ge tp n D tempdir ann extra v s = (Ok tt, s') →
     ∃ c, rendering (fs s) ge tp (line_directive_flags ann ++ extra) = Some c
          ∧ fs s' !! scratch_of n = Some (File c (clock s)))
  ∧ (∀ ge v ann (s : state) n,
       Str.startswith (Path.dir_prefix tempdir) (Path.dir_prefix SOURCES_DIR)
       = false →
       Path.slash_free n = true →
       is_file (fs s) (scratch_of n) →
       is_file (fs (generate_gyb_files ge v ann None None None None s).2)
         (scratch_of n)).
Proof.
  split.
  - intros. by eapply generate_single_leaves_scratch.
  - intros ge v ann s n HT Hn Hf.
    eapply reach_keeps_file; [apply generate_touches| |done].
    by apply generate_removes_in_sources_only.
Qed.

(** ** One unit, exactly *)

Lemma check_call_world (cmd : list string) (v : bool) (s : state) :
  world_of (check_call cmd None v s).2 = (run_process cmd None s).2.
Proof. rewrite check_call_eq. simpl. by destruct v. Qed.

Lemma check_call_outcome (cmd : list string) (v : bool) (s : state) :
  (check_call cmd None v s).1
  = if decide ((run_process cmd None s).1 = 0%Z) then Ok tt
    else Raise (CalledProcessError (run_process cmd None s).1 cmd None).
Proof. by rewrite check_call_eq. Qed.

Lemma proc_gyb_eq (ge tp out : string) (fl : list string) (w : world) :
  proc_gyb (ge :: tp :: "-o" :: out :: fl) w
  = match rendering (fs w) ge tp fl with
    | Some c => if can_write (fs w) out then (0%Z, write_file out c w)
                else (1%Z, w)
    | None => ((proc_gyb (ge :: tp :: "-o" :: out :: fl) w).1, w)
    end.
Proof.
  unfold proc_gyb, rendering.
  destruct (fs w !! ge) as [[? ?|]|]; try done.
  destruct (fs w !! tp) as [[body ?|]|]; try done.
  by destruct (gyb tp body fl).
Qed.

Lemma proc_gyb_none (ge tp out : string) (fl : list string) (w : world) :
  rendering (fs w) ge tp fl = None →
  (proc_gyb (ge :: tp :: "-o" :: out :: fl) w).1 ≠ 0%Z.
Proof.
  unfold proc_gyb, rendering.
  destruct (fs w !! ge) as [[? ?|]|]; try done.
  destruct (fs w !! tp) as [[body ?|]|]; try done.
  by intros ->.
Qed.

Lemma proc_rsync_after_write (n D c : string) (w : world) :
  proc_rsync ["--checksum"; scratch_of n; Path.join D n]
    (write_file (scratch_of n) c w)
  = rsync_transfer c
      (unit_target (<[scratch_of n := File c (clock w)]> (fs w)) D n)
      (write_file (scratch_of n) c w).
Proof.
  unfold proc_rsync, unit_target, inside_of. simpl fs.
  rewrite lookup_insert_eq. by destruct (is_dir _ _).
Qed.

Lemma generate_single_world (ge tp n D : string) (ann : bool)
    (extra : list string) (v : bool) (s : state) :
  world_of (generate_single_gyb_file ge tp n D tempdir ann extra v s).2
  = unit_world ge tp n D (line_directive_flags ann ++ extra) s.
Proof.
  unfold generate_single_gyb_file, unit_world, bind.
  pose proof (check_call_world
                (gyb_command ge tp n tempdir ann extra) v s) as Hw.
  pose proof (check_call_outcome
                (gyb_command ge tp n tempdir ann extra) v s) as Ho.
  destruct (check_call (gyb_command ge tp n tempdir ann extra) None v s)
    as [r s1]. cbn [fst snd] in Hw, Ho.
  rewrite run_gyb in Hw, Ho. fold (scratch_of n) in Hw, Ho.
  rewrite proc_gyb_eq in Hw, Ho.
  destruct (rendering (fs s) ge tp _) as [c|] eqn:Er.
  - destruct (can_write (fs s) (scratch_of n)); cbn [fst snd] in Hw, Ho.
    + rewrite decide_True in Ho by done. subst r.
      rewrite check_call_world, run_rsync. fold (scratch_of n).
      by rewrite Hw, proc_rsync_after_write.
    + rewrite decide_False in Ho by done. by subst r.
  - cbn [fst snd] in Hw, Ho. destruct (decide _) as [E|E]; subst r; [|done].
    by apply proc_gyb_none in E.
Qed.

Lemma generate_single_outcome (ge tp n D : string) (ann : bool)
    (extra : list string) (v : bool) (s : state) :
  (generate_single_gyb_file ge tp n D tempdir ann extra v s).1 = Ok tt
  ↔ unit_ok ge tp n D (line_directive_flags ann ++ extra) s = true.
Proof.
  unfold generate_single_gyb_file, unit_ok, bind.
  pose proof (check_call_world
                (gyb_command ge tp n tempdir ann extra) v s) as Hw.
  pose proof (check_call_outcome
                (gyb_command ge tp n tempdir ann extra) v s) as Ho.
  destruct (check_call (gyb_command ge tp n tempdir ann extra) None v s)
    as [r s1]. cbn [fst snd] in Hw, Ho.
  rewrite run_gyb in Hw, Ho. fold (scratch_of n) in Hw, Ho.
  rewrite proc_gyb_eq in Hw, Ho.
  destruct (rendering (fs s) ge tp _) as [c|] eqn:Er.
  - destruct (can_write (fs s) (scratch_of n)); cbn [fst snd] in Hw, Ho.
    + rewrite decide_True in Ho by done. subst r.
      rewrite check_call_outcome, run_rsync. fold (scratch_of n).
      rewrite Hw, proc_rsync_after_write. cbn [andb].
      destruct (decide _) as [E|E].
      * by rewrite bool_decide_eq_true_2.
      * by rewrite bool_decide_eq_false_2.
    + rewrite decide_False in Ho by done. by subst r.
  - cbn [fst snd] in Hw, Ho. destruct (decide _) as [E|E]; subst r; [|done].
    by apply proc_gyb_none in E.
Qed.

(** ** Frames *)

Lemma reach_file_back A (m m' : gmap string node) (p c : string) (t : nat) :
  reach A m m' → (∀ q, ¬ A (AWrite q)) → (¬ A (ARm p)) →
  m' !! p = Some (File c t) → m !! p = Some (File c t).
Proof.
  intros H HW HR. induction H as [|m1 m2 m3 Hs _ IH]; [done|].
  intros Hp. specialize (IH Hp).
  destruct Hs as [q c' t' Hq _|q c' t' Hq _|q _ Hq _].
  - rewrite lookup_delete_ne in IH; [done|]. by intros ->.
  - by apply HW in Hq.
  - destruct (decide (q = p)) as [->|].
    + by rewrite lookup_insert_eq in IH.
    + by rewrite lookup_insert_ne in IH.
Qed.

Lemma inside_of_eq (D n : string) :
  Path.slash_free n = true → inside_of D n = Path.join (Path.join D n) n.
Proof.
  intros Hn. unfold inside_of, scratch_of.
  by rewrite (join_name tempdir n), basename_child.
Qed.

Lemma join_ne_name (a b n n' : string) :
  Path.slash_free n = true → Path.slash_free n' = true → n ≠ n' →
  Path.join a n ≠ Path.join b n'.
Proof. intros Hn Hn' Hne E. by apply join_inj in E as [_ E]. Qed.

Lemma unit_target_insert_file (m : gmap string node) (p c : string) (t : nat)
    (D n : string) :
  can_write m p = true →
  unit_target (<[p := File c t]> m) D n = unit_target m D n.
Proof.
  intros Hcw. unfold unit_target, is_dir.
  destruct (decide (p = Path.join D n)) as [->|Hne].
  - rewrite lookup_insert_eq. unfold can_write in Hcw.
    destruct (m !! Path.join D n) as [[? ?|]|] eqn:E; try done.
  - by rewrite lookup_insert_ne.
Qed.

(** A unit that succeeds leaves the rendering in its scratch file and at
    its target, and changes nothing else. *)
Lemma unit_world_ok (ge tp n D : string) (fl : list string) (w : world) :
  unit_ok ge tp n D fl w = true →
  ∃ c, rendering (fs w) ge tp fl = Some c
       ∧ can_write (fs w) (scratch_of n) = true
       ∧ (∃ t, fs (unit_world ge tp n D fl w) !! unit_target (fs w) D n
               = Some (File c t))
       ∧ (∀ p, p ≠ scratch_of n → p ≠ unit_target (fs w) D n →
               fs (unit_world ge tp n D fl w) !! p = fs w !! p).
Proof.
  unfold unit_ok, unit_world.
  destruct (rendering (fs w) ge tp fl) as [c|]; [|done].
  destruct (can_write (fs w) (scratch_of n)) eqn:Ecw; [|done]. simpl.
  rewrite unit_target_insert_file by done.
  set (tgt := unit_target (fs w) D n). intros Hrc%bool_decide_eq_true.
  exists c. split; [done|]. split; [done|].
  unfold rsync_transfer in *. simpl fs in *.
  destruct (decide (tgt = scratch_of n)) as [Et|Et].
  - rewrite Et, lookup_insert_eq, decide_True by done. simpl. split.
    + exists (clock w). by rewrite lookup_insert_eq.
    + intros p Hp _. by rewrite lookup_insert_ne.
  - rewrite lookup_insert_ne in * by done.
    destruct (fs w !! tgt) as [[c' t'|]|] eqn:E.
    + destruct (decide (c = c')) as [->|]; simpl.
      * split; [exists t'; by rewrite lookup_insert_ne|].
        intros p Hp _. by rewrite lookup_insert_ne.
      * split; [eexists; apply lookup_insert_eq|].
        intros p Hp Hp'. by rewrite !lookup_insert_ne.
    + done.
    + destruct (can_create _ _); [|done]. simpl.
      split; [eexists; apply lookup_insert_eq|].
      intros p Hp Hp'. by rewrite !lookup_insert_ne.
Qed.

(** ** The multi-output template *)

Lemma base_kind_NoDup : NoDup (BASE_KIND_FILES.*1) ∧ NoDup (BASE_KIND_FILES.*2).
Proof. split; by apply (bool_decide_unpack _). Qed.

Lemma syntax_template_name_not_output (out : string) :
  out ∈ BASE_KIND_FILES.*2 → "SyntaxNodes.swift.gyb.template" ≠ out.
Proof.
  intros H E. subst out. simpl in H.
  repeat (apply elem_of_cons in H as [H|H]; [done|]).
  by apply elem_of_nil in H.
Qed.

Lemma syntax_output_not_removed (D out : string) :
  out ∈ BASE_KIND_FILES.*2 → ¬ syntax_act D (ARm (Path.join D out)).
Proof.
  intros Hout (n & Hn & _ & Hnot & E).
  apply join_inj in E as [_ ->]; [done| |by apply is_name_slash_free].
  by apply is_name_slash_free, values_is_name.
Qed.

Lemma syntax_prefix_touches (dest : option string) (v : bool) (l : list string) :
  (∀ n, n ∈ l → Path.is_name n = true) →
  touches (syntax_prune_act (template_destination dest))
    (for_each l (λ previous_gyb_gen_file,
       if Str.endswith previous_gyb_gen_file ".swift" then
         if negb (bool_decide (previous_gyb_gen_file ∈ BASE_KIND_FILES.*2)) then
           check_call ["rm"; previous_gyb_gen_file]
             (Some (template_destination dest)) v
         else ret tt
       else ret tt)).
Proof.
  intros Hl. apply touches_for_each. intros n Hn%Hl.
  destruct (Str.endswith n ".swift") eqn:Es; [|apply touches_ret].
  destruct (bool_decide (n ∈ BASE_KIND_FILES.*2)) eqn:Eb; [apply touches_ret|].
  apply bool_decide_eq_false in Eb.
  apply touches_check_call. intros w. rewrite run_rm.
  apply proc_rm_reach. simpl. eauto 10.
Qed.

(** ** Relations every step of a run keeps *)

Section keeps_rules.
Context (R : relation state) `{!PreOrder R}.

Lemma keeps_ret {X} (x : X) : keeps R (ret x).
Proof. intros s. simpl. reflexivity. Qed.

Lemma keeps_raise {X} (e : exn) : keeps R (raise e : M X).
Proof. intros s. simpl. reflexivity. Qed.

Lemma keeps_modify (f : state → state) : (∀ s, R s (f s)) → keeps R (modify f).
Proof. intros H s. apply H. Qed.

Lemma keeps_bind {X Y} (m : M X) (k : X → M Y) :
  keeps R m → (∀ x, keeps R (k x)) → keeps R (bind m k).
Proof.
  intros Hm Hk s. specialize (Hm s). unfold bind.
  destruct (m s) as [[x|e] s1]; simpl in *; [|done].
  etrans; [exact Hm|apply Hk].
Qed.

Lemma keeps_if {X} (b : bool) (m1 m2 : M X) :
  keeps R m1 → keeps R m2 → keeps R (if b then m1 else m2).
Proof. by destruct b. Qed.

Lemma keeps_for_each {X} (xs : list X) (body : X → M unit) :
  (∀ x, x ∈ xs → keeps R (body x)) → keeps R (for_each xs body).
Proof.
  induction xs as [|x xs IH]; intros H; simpl; [apply keeps_ret|].
  apply keeps_bind; [apply H, list_elem_of_here|]. intros _.
  apply IH. intros y Hy. by apply H, list_elem_of_further.
Qed.

Lemma keeps_executor_map {X} (xs : list X) (f : X → M unit) :
  (∀ x, x ∈ xs → keeps R (f x)) → keeps R (executor_map_discarded f xs).
Proof.
  induction xs as [|x xs IH]; intros H; simpl; [apply keeps_ret|].
  intros s. pose proof (H x (list_elem_of_here _ _) s) as Hx.
  destruct (f x s) as [r s1]. simpl in *.
  etrans; [exact Hx|]. apply IH. intros y Hy. by apply H, list_elem_of_further.
Qed.

Lemma keeps_try {X} (m : M X) (h : exn → M X) :
  keeps R m → (∀ e, keeps R (h e)) → keeps R (try_called_process_error m h).
Proof.
  intros Hm Hh s. specialize (Hm s). unfold try_called_process_error.
  destruct (m s) as [[x|[rc cmd out|c|f]] s']; simpl in *; try done.
  etrans; [exact Hm|apply Hh].
Qed.

Lemma keeps_os_op {X} (f : world → outcome X * world) :
  (∀ s : state, R s (set_world (f s).2 s)) → keeps R (os_op f).
Proof. intros H s. unfold os_op. specialize (H s). by destruct (f s). Qed.

Lemma keeps_read {X} (f : world → outcome X * world) :
  (∀ w, (f w).2 = w) → keeps R (os_op f).
Proof.
  intros H. apply keeps_os_op. intros s. rewrite H, set_world_id. reflexivity.
Qed.

Lemma keeps_check_call (cmd : list string) (cwd : option string) (v : bool) :
  (∀ l s, R s (put_stdout l s)) → keeps R (spawn cmd cwd) →
  keeps R (check_call cmd cwd v).
Proof.
  intros Hout Hsp. unfold check_call, subprocess_check_call, enter_cwd.
  apply keeps_bind.
  { apply keeps_if; [|apply keeps_ret]. apply keeps_modify, Hout. }
  intros _. apply keeps_bind.
  { apply keeps_read. intros w. destruct cwd as [d|]; [|done].
    by destruct (is_dir (fs w) d). }
  intros _. apply keeps_bind; [done|]. intros rc.
  destruct (decide (rc = 0%Z)); [apply keeps_ret|apply keeps_raise].
Qed.

(** The generation run keeps every relation that its printing, the
    directories it makes, its [rm]s and its units keep. *)
Section skeleton.
Variables (gyb_exec : string) (add_source_locations : bool).
Hypothesis R_stdout : ∀ l s, R s (put_stdout l s).
Hypothesis R_stderr : ∀ l s, R s (put_stderr l s).
Hypothesis R_mkdir : ∀ (s : state) ds m',
  mkdir_p (fs s) ds = Some m' → R s (set_world (set_fs (λ _, m') s) s).
Hypothesis R_rm : ∀ n D, keeps R (spawn ["rm"; n] (Some D)).
Hypothesis R_version : keeps R (spawn ["rsync"; "--version"] None).
Hypothesis R_unit : ∀ tp n D extra v,
  keeps R (generate_single_gyb_file gyb_exec tp n D tempdir
             add_source_locations extra v).

Lemma os_path_exists_keeps (p : string) : keeps R (os_path_exists p).
Proof. by apply keeps_read. Qed.

Lemma os_listdir_keeps (d : string) : keeps R (os_listdir d).
Proof. apply keeps_read. intros w. by destruct (is_dir (fs w) d). Qed.

Lemma make_dir_if_needed_keeps (p : string) : keeps R (make_dir_if_needed p).
Proof.
  unfold make_dir_if_needed. apply keeps_bind; [apply os_path_exists_keeps|].
  intros b. apply keeps_if; [|apply keeps_ret].
  apply keeps_os_op. intros s.
  destruct (fs s !! p); simpl; [rewrite set_world_id; reflexivity|].
  destruct (mkdir_p (fs s) (ancestors p ++ [p])) as [m'|] eqn:E; simpl.
  - by eapply R_mkdir.
  - rewrite set_world_id. reflexivity.
Qed.

Lemma clear_keeps (S D : string) (v : bool) :
  keeps R (clear_gyb_files_from_previous_run S D v).
Proof.
  unfold clear_gyb_files_from_previous_run.
  apply keeps_bind; [apply os_listdir_keeps|]. intros l.
  apply keeps_for_each. intros n _.
  apply keeps_if; [|apply keeps_ret].
  apply keeps_bind; [apply os_path_exists_keeps|]. intros b.
  apply keeps_if; [|apply keeps_ret].
  by apply keeps_check_call.
Qed.

Lemma helper_keeps (S : string) (dest : option string) (v : bool) :
  keeps R (generate_gyb_files_helper S dest gyb_exec add_source_locations v).
Proof.
  unfold generate_gyb_files_helper.
  apply keeps_bind; [apply make_dir_if_needed_keeps|]. intros _.
  apply keeps_bind; [apply make_dir_if_needed_keeps|]. intros _.
  apply keeps_bind; [apply clear_keeps|]. intros _.
  apply keeps_bind; [apply os_listdir_keeps|]. intros l.
  apply keeps_executor_map. intros g _. apply R_unit.
Qed.

Lemma syntax_keeps (dest : option string) (v : bool) :
  keeps R (generate_syntax_node_template_gyb_files dest gyb_exec
             add_source_locations v).
Proof.
  unfold generate_syntax_node_template_gyb_files.
  apply keeps_bind; [apply make_dir_if_needed_keeps|]. intros _.
  apply keeps_bind; [apply make_dir_if_needed_keeps|]. intros _.
  apply keeps_bind; [apply os_listdir_keeps|]. intros l.
  apply keeps_bind.
  - apply keeps_for_each. intros n _.
    apply keeps_if; [|apply keeps_ret].
    apply keeps_if; [|apply keeps_ret].
    by apply keeps_check_call.
  - intros _. apply keeps_for_each. intros kv _. apply R_unit.
Qed.


End skeleton.


End keeps_rules.

(** ** The trace of a run *)

Local Instance logged_preorder (T : list string * Z → Prop) :
  PreOrder (logged T).
Proof.
  split.
  - intros s. exists []. by rewrite app_nil_r.
  - intros s1 s2 s3 (l1 & E1 & F1) (l2 & E2 & F2). exists (l1 ++ l2).
    rewrite E2, E1, app_assoc. split; [done|]. by apply Forall_app.
Qed.

Lemma logged_same (T : list string * Z → Prop) (s s' : state) :
  procs s' = procs s → logged T s s'.
Proof. intros E. exists []. by rewrite app_nil_r. Qed.

Lemma spawn_logged (T : list string * Z → Prop) (cmd : list string)
    (cwd : option string) :
  (∀ rc, T (cmd, rc)) → keeps (logged T) (spawn cmd cwd).
Proof.
  intros H s. unfold spawn. destruct (run_process cmd cwd s) as [rc w]. simpl.
  exists [(cmd, rc)]. split; [done|]. by apply Forall_singleton.
Qed.

Lemma logged_new (T : list string * Z → Prop) (s s' : state) :
  logged T s s' → Forall T (drop (length (procs s)) (procs s')).
Proof. intros (l & -> & H). by rewrite drop_app_length. Qed.


(** ** What a run writes *)

Local Instance only_adds_preorder (R : string → Prop) : PreOrder (only_adds R).
Proof.
  split.
  - intros s p c t H. by left.
  - intros s1 s2 s3 H12 H23 p c t H.
    destruct (H23 _ _ _ H) as [H2|H2]; [|by right]. by apply H12.
Qed.







(** ** What [diff] compares *)

Lemma same_tree_spec (m : gmap string node) (a b : string) :
  same_tree m a b = true ↔
  ∀ r, r ≠ EmptyString → Path.hidden r = false →
    node_data (m !! (Path.dir_prefix a +:+ r))
    = node_data (m !! (Path.dir_prefix b +:+ r)).
Proof.
  assert (∀ a b, forallb (covered m a b) (map_to_list m) = true ↔
            ∀ r nd, r ≠ EmptyString → Path.hidden r = false →
              m !! (Path.dir_prefix a +:+ r) = Some nd →
              node_data (m !! (Path.dir_prefix b +:+ r)) = node_data (Some nd))
    as Hcov.
  { clear a b. intros a b. rewrite forallb_forall. split.
    - intros H r nd Hr Hh Hm.
      specialize (H (Path.dir_prefix a +:+ r, nd)).
      unfold covered in H. cbn [fst snd] in H.
      rewrite strip_prefix_app in H.
      destruct (bool_decide (r = EmptyString)) eqn:E;
        [by apply bool_decide_eq_true in E|].
      rewrite Hh in H. simpl in H.
      eapply bool_decide_eq_true_1, H.
      apply list_elem_of_In. by apply elem_of_map_to_list.
    - intros H [p nd] Hin. apply list_elem_of_In, elem_of_map_to_list in Hin.
      unfold covered. cbn [fst snd].
      destruct (Str.strip_prefix (Path.dir_prefix a) p) as [r|] eqn:E; [|done].
      apply strip_prefix_spec in E. subst p.
      destruct (bool_decide (r = EmptyString)) eqn:Er; [done|].
      apply bool_decide_eq_false in Er.
      destruct (Path.hidden r) eqn:Eh; [done|]. simpl.
      apply bool_decide_eq_true. by apply H. }
  unfold same_tree. rewrite andb_true_iff, !Hcov. split.
  - intros [Hab Hba] r Hr Hh.
    destruct (m !! (Path.dir_prefix a +:+ r)) as [nd|] eqn:Ea.
    + symmetry. by apply Hab.
    + destruct (m !! (Path.dir_prefix b +:+ r)) as [nd'|] eqn:Eb; [|done].
      specialize (Hba r nd' Hr Hh Eb). by rewrite Ea in Hba.
  - intros H. split; intros r nd Hr Hh Hm.
    + rewrite <- H by done. by rewrite Hm.
    + rewrite H by done. by rewrite Hm.
Qed.

Lemma check_generated_files_match_ok (a b : string) (s s' : state) :
  check_generated_files_match a b s = (Ok tt, s') →
  world_of s' = world_of s ∧ same_visible_tree (fs s) a b.
Proof.
  unfold check_generated_files_match. intros H.
  apply check_call_ok in H as [Hrc Hw]. rewrite run_diff in Hrc, Hw.
  rewrite proc_diff_world in Hw. split; [done|].
  unfold proc_diff in Hrc.
  destruct (is_dir (fs s) a) eqn:Ea; [|done].
  destruct (is_dir (fs s) b) eqn:Eb; [|done]. simpl in Hrc.
  destruct (same_tree (fs s) a b) eqn:Et; [|done].
  split; [done|]. split; [done|]. by apply same_tree_spec.
Qed.


(** ** The renderer runs of the multi-output batch *)

Lemma check_call_ok_procs (cmd : list string) (v : bool) (s s' : state) :
  check_call cmd None v s = (Ok tt, s') → procs s' = procs s ++ [(cmd, 0%Z)].
Proof.
  rewrite check_call_eq. simpl.
  destruct (decide ((run_process cmd None s).1 = 0%Z)) as [E|]; [|done].
  intros [= <-]. rewrite E. by destruct v.
Qed.

Lemma generate_single_ok_procs (ge tp n D : string) (ann : bool)
    (extra : list string) (v : bool) (s s' : state) :
  generate_single_gyb_file ge tp n D tempdir ann extra v s = (Ok tt, s') →
  procs s' = procs s ++ [ (gyb_command ge tp n tempdir ann extra, 0%Z);
                          (rsync_command n D tempdir, 0%Z) ].
Proof.
  unfold generate_single_gyb_file. intros H.
  apply bind_ok_inv in H as ([] & s1 & H1 & H2).
  apply check_call_ok_procs in H1, H2. rewrite H2, H1.
  by rewrite <- app_assoc.
Qed.

Lemma units_ok_procs {X} (xs : list X) (unit_of : X → string * string * list string)
    (ge D : string) (ann v : bool) (s s' : state) :
  for_each xs (λ x, generate_single_gyb_file ge (unit_of x).1.1 (unit_of x).1.2
                      D tempdir ann (unit_of x).2 v) s = (Ok tt, s') →
  filter (λ e, head e.1 = Some sys_executable)
    (drop (length (procs s)) (procs s'))
  = (λ x, (gyb_command ge (unit_of x).1.1 (unit_of x).1.2 tempdir ann
             (unit_of x).2, 0%Z)) <$> xs.
Proof.
  assert (∀ s s' : state,
    for_each xs (λ x, generate_single_gyb_file ge (unit_of x).1.1
                        (unit_of x).1.2 D tempdir ann (unit_of x).2 v) s
    = (Ok tt, s') →
    ∃ l, procs s' = procs s ++ l
         ∧ filter (λ e, head e.1 = Some sys_executable) l
           = (λ x, (gyb_command ge (unit_of x).1.1 (unit_of x).1.2 tempdir
                      ann (unit_of x).2, 0%Z)) <$> xs) as Hgen.
  { clear s s'. induction xs as [|x xs IH]; intros s s' H; simpl in H.
    - injection H as <-. exists []. by rewrite app_nil_r.
    - apply bind_ok_inv in H as ([] & s1 & H1 & H2).
      apply generate_single_ok_procs in H1.
      apply IH in H2 as (l & E & F).
      eexists. split; [by rewrite E, H1, <- app_assoc|].
      rewrite filter_app, F. done. }
  intros H. apply Hgen in H as (l & -> & F). by rewrite drop_app_length.
Qed.

Lemma syntax_prune_logged (dest : option string) (v : bool) (l : list string) :
  keeps (logged (λ e, head e.1 = Some "rm"))
    (for_each l (λ previous_gyb_gen_file,
       if Str.endswith previous_gyb_gen_file ".swift" then
         if negb (bool_decide (previous_gyb_gen_file ∈ BASE_KIND_FILES.*2)) then
           check_call ["rm"; previous_gyb_gen_file]
             (Some (template_destination dest)) v
         else ret tt
       else ret tt)).
Proof.
  apply keeps_for_each; [apply _|]. intros n _.
  apply keeps_if; [|apply keeps_ret; apply _].
  apply keeps_if; [|apply keeps_ret; apply _].
  apply keeps_check_call; [apply _| |].
  - intros x s. by apply logged_same.
  - apply spawn_logged. by intros rc.
Qed.

Lemma make_dir_if_needed_procs (p : string) (s : state) :
  procs (make_dir_if_needed p s).2 = procs s.
Proof.
  pose proof (make_dir_if_needed_keeps (logged (λ _, False))) as H.
  destruct (H (λ s ds m' _, logged_same _ s _ eq_refl) p s) as (l & E & F).
  rewrite E. destruct l as [|e l]; [by rewrite app_nil_r|].
  by apply Forall_cons in F as [? _].
Qed.

(** The subprocesses of the batch of the multi-output template: every [rm]
    among them, whatever its exit status, is an [rm] of one name that ends
    in [.swift] and is not an output name of [BASE_KIND_FILES]. *)
Lemma syntax_batch_rm_logged (dest : option string) (ge : string)
    (ann v : bool) :
  keeps (logged (λ e, head e.1 = Some "rm" →
                      ∃ n, e.1 = ["rm"; n]
                           ∧ Str.endswith n ".swift" = true
                           ∧ n ∉ BASE_KIND_FILES.*2))
    (generate_syntax_node_template_gyb_files dest ge ann v).
Proof.
  unfold generate_syntax_node_template_gyb_files.
  apply keeps_bind; [apply _| |intros _].
  { apply make_dir_if_needed_keeps; [apply _|].
    intros s ds m' _. by apply logged_same. }
  apply keeps_bind; [apply _| |intros _].
  { apply make_dir_if_needed_keeps; [apply _|].
    intros s ds m' _. by apply logged_same. }
  apply keeps_bind; [apply _|apply os_listdir_keeps, _|]. intros l.
  apply keeps_bind; [apply _| |intros _].
  - apply keeps_for_each; [apply _|]. intros n _.
    destruct (Str.endswith n ".swift") eqn:Es; [|apply keeps_ret, _].
    destruct (bool_decide (n ∈ BASE_KIND_FILES.*2)) eqn:Eb;
      [apply keeps_ret, _|]. cbn [negb].
    apply keeps_check_call; [apply _| |].
    + intros x s. by apply logged_same.
    + apply spawn_logged. intros rc _. exists n.
      split; [done|]. split; [done|]. by apply bool_decide_eq_false in Eb.
  - apply keeps_for_each; [apply _|]. intros kv _.
    unfold generate_single_gyb_file.
    apply keeps_bind; [apply _| |intros ?]; apply keeps_check_call;
      try apply _; try (intros ? ?; by apply logged_same);
      apply spawn_logged; intros rc H; by vm_compute in H.
Qed.

(** C8.  Multi-output expansion.  The kinds of [BASE_KIND_FILES] are
    pairwise distinct, and so are their output names.  Whatever the
    outcome of the batch of the multi-output template, no [rm] it runs
    names an output: every [rm] of the batch removes one [.swift] name
    that is not an output name.  When the batch returns normally, the
    renderer was run exactly once per kind [k], in order, with the flag
    [-DEMIT_KIND=k] and the output name of [k]; the template was there when
    the batch started; and for every kind [k] with output name [out], the
    rendering of the template with the flag [-DEMIT_KIND=k] is the content
    of the file at the destination path of [out] (of the file [rsync] put
    inside it, when a directory has taken that path). *)
Theorem multi_output_expansion (dest : option string) (ge : string)
    (ann v : bool) (s : state) :
  let r := generate_syntax_node_template_gyb_files dest ge ann v s in
  let new := drop (length (procs s)) (procs r.2) in
  NoDup (BASE_KIND_FILES.*1) ∧ NoDup (BASE_KIND_FILES.*2)
  ∧ (∀ e, e ∈ new → head e.1 = Some "rm" →
       ∃ n, e.1 = ["rm"; n] ∧ Str.endswith n ".swift" = true
            ∧ n ∉ BASE_KIND_FILES.*2)
  ∧ (r.1 = Ok tt →
     filter (λ e, head e.1 = Some sys_executable) new
     = (λ kv, (gyb_command ge syntax_template kv.2 tempdir ann
                 ["-DEMIT_KIND=" +:+ kv.1], 0%Z)) <$> BASE_KIND_FILES
     ∧ ∀ k out, (k, out) ∈ BASE_KIND_FILES →
         ∃ body t,
           fs s !! syntax_template = Some (File body t)
           ∧ expansion_in_place (fs r.2) (template_destination dest) body
               ann k out).
Proof.
  intros r new. destruct base_kind_NoDup as [Hnd1 Hnd2].
  split; [done|]. split; [done|]. split.
  { pose proof (syntax_batch_rm_logged dest ge ann v s) as H.
    apply logged_new in H. rewrite Forall_forall in H. exact H. }
  subst new r.
  destruct (generate_syntax_node_template_gyb_files dest ge ann v s)
    as [o s'] eqn:Hrun.
  cbn [fst snd]. intros ->.
  unfold generate_syntax_node_template_gyb_files in Hrun.
  fold (dest_dir SWIFTSYNTAX_DIR dest) in Hrun.
  fold (template_destination dest) in Hrun. fold syntax_template in Hrun.
  set (TD := template_destination dest) in *.
  apply bind_ok_inv in Hrun as ([] & s1 & H1 & Hrun).
  apply bind_ok_inv in Hrun as ([] & s2 & H2 & Hrun).
  apply bind_ok_inv in Hrun as (l & s3 & H3 & Hrun).
  apply os_listdir_ok in H3 as (-> & -> & Hdir).
  apply bind_ok_inv in Hrun as ([] & s4 & H4 & Hrun).
  split.
  { pose proof (make_dir_if_needed_procs tempdir s) as P1.
    pose proof (make_dir_if_needed_procs TD s1) as P2.
    pose proof (syntax_prune_logged dest v (entries (fs s2) TD) s2) as P4.
    fold TD in P4. rewrite H1 in P1. rewrite H2 in P2. rewrite H4 in P4.
    cbn [fst snd] in *. destruct P4 as (l & P4 & F).
    pose proof (units_ok_procs BASE_KIND_FILES
                  (λ kv, (syntax_template, kv.2, ["-DEMIT_KIND=" +:+ kv.1]))
                  ge TD ann v s4 s' Hrun) as U.
    cbn [fst snd] in U.
    assert (∃ l', procs s' = procs s4 ++ l') as [l' E'].
    { clear -Hrun. revert s4 Hrun.
      induction BASE_KIND_FILES as [|x xs IH]; intros s4 H; simpl in H.
      - injection H as <-. exists []. by rewrite app_nil_r.
      - apply bind_ok_inv in H as ([] & s5 & H5 & H6).
        apply generate_single_ok_procs in H5. apply IH in H6 as [l' E].
        eexists. by rewrite E, H5, <- app_assoc. }
    rewrite E', drop_app_length in U.
    rewrite E', P4, P2, P1, <- app_assoc, drop_app_length, filter_app, U.
    replace (filter _ l) with (@nil (list string * Z)); [done|].
    symmetry. clear -F. induction F as [|e l He _ IH]; [done|].
    rewrite filter_cons_False; [done|]. rewrite He. by intros [=]. }
  (* what precedes the renderings writes no file *)
  assert (reach (syntax_prune_act TD) (fs s) (fs s4)) as Hpre.
  { etrans; [|etrans].
    - pose proof (make_dir_if_needed_touches (syntax_prune_act TD) tempdir
                    (λ _ _, I) s) as H. by rewrite H1 in H.
    - pose proof (make_dir_if_needed_touches (syntax_prune_act TD) TD
                    (λ _ _, I) s1) as H. by rewrite H2 in H.
    - pose proof (syntax_prefix_touches dest v (entries (fs s2) TD)
                    (entries_is_name _ _) s2) as H.
      fold TD in H. by rewrite H4 in H. }
  (* the renderings, one kind after the other *)
  set (Inv := λ (visited : list (string * string)) (st : state),
         fs st !! syntax_template = fs s4 !! syntax_template
         ∧ ∀ k out, (k, out) ∈ visited →
             ∃ body t, fs s4 !! syntax_template = Some (File body t)
                       ∧ expansion_in_place (fs st) TD body ann k out).
  assert (hoare (Inv [])
            (for_each BASE_KIND_FILES (λ kv,
               generate_single_gyb_file ge syntax_template kv.2 TD tempdir ann
                 ["-DEMIT_KIND=" +:+ kv.1] v))
            (λ r st, match r with
                     | Ok _ => Inv BASE_KIND_FILES st
                     | Raise _ => True
                     end)) as Hloop.
  { apply hoare_for_each; [|done].
    intros visited [k out] rest Hl st [Htp Hvis]. cbn [fst snd].
    pose proof (generate_single_world ge syntax_template out TD ann
                  ["-DEMIT_KIND=" +:+ k] v st) as Hw.
    pose proof (generate_single_outcome ge syntax_template out TD ann
                  ["-DEMIT_KIND=" +:+ k] v st) as Ho.
    destruct (generate_single_gyb_file _ _ _ _ _ _ _ _ st) as [[[]|e] st'];
      [|done]. cbn [fst snd] in *.
    apply proj1 in Ho. specialize (Ho eq_refl).
    apply unit_world_ok in Ho as (c & Hrend & Hcw & [t Htgt] & Hframe).
    rewrite <- Hw in Htgt, Hframe. clear Hw.
    assert (out ∈ BASE_KIND_FILES.*2) as Hout.
    { apply list_elem_of_fmap. exists (k, out). split; [done|].
      rewrite Hl. apply elem_of_app. right. apply list_elem_of_here. }
    pose proof (is_name_slash_free _ (values_is_name _ Hout)) as Hsf.
    assert (∀ a out', Path.slash_free out' = true →
              ("SyntaxNodes.swift.gyb.template" ≠ out') →
              syntax_template ≠ Path.join a out') as Htne.
    { intros a out' Hsf' Hne. by apply join_ne_name. }
    assert (∀ a out', Path.slash_free out' = true → out' ≠ out →
              Path.join a out' ≠ scratch_of out
              ∧ Path.join a out' ≠ unit_target (fs st) TD out) as Hone.
    { intros a out' Hsf' Hne. split; [by apply join_ne_name|].
      unfold unit_target. destruct (is_dir (fs st) (Path.join TD out)).
      - rewrite inside_of_eq by done. by apply join_ne_name.
      - by apply join_ne_name. }
    split.
    - rewrite <- Htp. apply Hframe.
      + apply Htne; [done|by apply syntax_template_name_not_output].
      + unfold unit_target. destruct (is_dir (fs st) (Path.join TD out)).
        * rewrite inside_of_eq by done.
          apply Htne; [done|by apply syntax_template_name_not_output].
        * apply Htne; [done|by apply syntax_template_name_not_output].
    - intros k' out' [Hin|Hin]%elem_of_app.
      + destruct (Hvis k' out' Hin) as (body & t0 & Hb & c' & Hc' & Hexp).
        exists body, t0. split; [done|]. exists c'. split; [done|].
        assert (out' ∈ BASE_KIND_FILES.*2) as Hout'.
        { apply list_elem_of_fmap. exists (k', out'). split; [done|].
          rewrite Hl. apply elem_of_app. by left. }
        assert (out' ≠ out) as Hne.
        { intros ->. rewrite Hl, fmap_app, fmap_cons in Hnd2.
          apply NoDup_app in Hnd2 as (_ & Hnd2 & _).
          apply (Hnd2 out).
          - apply list_elem_of_fmap. by exists (k', out).
          - apply list_elem_of_here. }
        pose proof (is_name_slash_free _ (values_is_name _ Hout')) as Hsf'.
        destruct (Hone TD out') as [Hn1 Hn2]; [done|done|].
        destruct (Hone (Path.join TD out') out') as [Hn3 Hn4]; [done|done|].
        rewrite (Hframe (Path.join TD out')) by done.
        rewrite (inside_of_eq TD out') in * by done.
        by rewrite (Hframe (Path.join (Path.join TD out') out')) by done.
      + apply list_elem_of_singleton in Hin as [= -> ->].
        unfold rendering in Hrend. rewrite Htp in Hrend.
        destruct (fs st !! ge) as [[? ?|]|]; try done.
        destruct (fs s4 !! syntax_template) as [[body t0|]|] eqn:Eb; try done.
        exists body, t0. split; [done|]. exists c. split; [exact Hrend|].
        unfold unit_target in Htgt, Hframe.
        destruct (is_dir (fs st) (Path.join TD out)) eqn:Ed.
        * rewrite (Hframe (Path.join TD out)).
          -- apply bool_decide_eq_true in Ed. rewrite Ed. by exists t.
          -- intros E. unfold can_write in Hcw. rewrite <- E in Hcw.
             apply bool_decide_eq_true in Ed. by rewrite Ed in Hcw.
          -- rewrite inside_of_eq by done.
             rewrite (join_name (Path.join TD out)) by done.
             intros E. symmetry in E. by apply child_not_dir in E;
               [|apply values_is_name].
        * by rewrite Htgt. }
  assert (Inv [] s4) as H0.
  { split; [done|]. intros k out Hin. by apply elem_of_nil in Hin. }
  apply Hloop in H0. rewrite Hrun in H0. cbn [fst snd] in H0.
  destruct H0 as [_ Hall].
  intros k out Hin.
  destruct (Hall k out Hin) as (body & t0 & Hb & Hexp).
  exists body, t0. split; [|done].
  eapply reach_file_back; [exact Hpre|intros q H; exact H| |exact Hb].
  intros (n & Hn & Hsw & _ & E).
  apply join_inj in E as [_ <-]; [|done|by apply is_name_slash_free].
  by vm_compute in Hsw.
Qed.

(** ** Single changes of the file system *)

Lemma fs_step_exists A (m m' : gmap string node) (p : string) :
  fs_step A m m' → (¬ A (ARm p)) → m !! p ≠ None → m' !! p ≠ None.
Proof.
  intros Hs HA Hp. destruct Hs as [q c t Hq _|q c t _ _|q _ _ _].
  - rewrite lookup_delete_ne; [done|]. by intros ->.
  - destruct (decide (q = p)) as [->|].
    + by rewrite lookup_insert_eq.
    + by rewrite lookup_insert_ne.
  - destruct (decide (q = p)) as [->|].
    + by rewrite lookup_insert_eq.
    + by rewrite lookup_insert_ne.
Qed.

Lemma can_write_not_dir (m : gmap string node) (p : string) :
  can_write m p = true → m !! p ≠ Some Dir.
Proof. unfold can_write. by destruct (m !! p) as [[]|]. Qed.

Lemma fs_step_is_dir A (m m' : gmap string node) (p : string) :
  fs_step A m m' → is_dir m p = true → is_dir m' p = true.
Proof.
  unfold is_dir. intros Hs Hp%bool_decide_eq_true. apply bool_decide_eq_true.
  destruct Hs as [q c t _ Hq|q c t _ Hq|q _ Hq _].
  - rewrite lookup_delete_ne; [done|]. intros ->. congruence.
  - rewrite lookup_insert_ne; [done|]. intros ->.
    by apply can_write_not_dir in Hq.
  - rewrite lookup_insert_ne; [done|]. intros ->. congruence.
Qed.

Lemma fs_step_is_dir_back A (m m' : gmap string node) (p : string) :
  fs_step A m m' → is_dir m' p = true →
  is_dir m p = true ∨ (m !! p = None ∧ can_create m p = true).
Proof.
  unfold is_dir. intros Hs Hp%bool_decide_eq_true.
  destruct Hs as [q c t _ Hq|q c t _ Hq|q _ Hq Hc].
  - apply lookup_delete_Some in Hp as [_ Hp]. left. by apply bool_decide_eq_true.
  - destruct (decide (q = p)) as [->|].
    + by rewrite lookup_insert_eq in Hp.
    + rewrite lookup_insert_ne in Hp by done. left. by apply bool_decide_eq_true.
  - destruct (decide (q = p)) as [->|].
    + by right.
    + rewrite lookup_insert_ne in Hp by done. left. by apply bool_decide_eq_true.
Qed.

Lemma fs_step_lookup A (m m' : gmap string node) (p : string) :
  fs_step A m m' → (¬ A (ARm p)) → (¬ A (AWrite p)) → m !! p ≠ None →
  m' !! p = m !! p.
Proof.
  intros Hs HR HW Hp. destruct Hs as [q c t Hq _|q c t Hq _|q _ Hq _].
  - rewrite lookup_delete_ne; [done|]. by intros ->.
  - rewrite lookup_insert_ne; [done|]. by intros ->.
  - rewrite lookup_insert_ne; [done|]. by intros ->.
Qed.

Lemma reach_inv A (P : gmap string node → Prop) (m m' : gmap string node) :
  (∀ m1 m2, P m1 → fs_step A m1 m2 → P m2) → reach A m m' → P m → P m'.
Proof.
  intros Hstep H. induction H as [|m1 m2 m3 Hs _ IH]; [done|].
  intros HP. apply IH. by eapply Hstep.
Qed.

Lemma reach_scratch_only (m m' : gmap string node) (p : string) :
  reach scratch_write m m' → (¬ scratch_path p) → m' !! p = m !! p.
Proof.
  intros H Hp. induction H as [|m1 m2 m3 Hs _ IH]; [done|].
  rewrite IH. destruct Hs as [q c t Hq _|q c t Hq _|q Hq _ _]; try done.
  rewrite lookup_insert_ne; [done|]. by intros ->.
Qed.

(** ** Regular directories *)

Lemma regular_prefix (d : string) :
  regular d → Path.dir_prefix d = d +:+ "/".
Proof.
  intros [Hne Hs]. unfold Path.dir_prefix.
  rewrite decide_False by done. by rewrite Hs.
Qed.

Lemma regular_join (a x : string) :
  Path.is_name x = true → regular (Path.join a x).
Proof.
  intros Hx. pose proof (dir_prefix_join a x Hx) as Hp.
  pose proof Hx as [Hne Hsf]%is_name_spec.
  rewrite join_name in * by done. split.
  - destruct (Path.dir_prefix a); [by rewrite str_app_empty_l|done].
  - destruct (Path.ends_with_slash (Path.dir_prefix a +:+ x)) eqn:E; [|done].
    unfold Path.dir_prefix at 1 in Hp. rewrite E in Hp.
    destruct (decide _) as [E0|_].
    + symmetry in Hp. rewrite <- str_app_assoc, E0 in Hp. done.
    + apply (f_equal String.length) in Hp.
      rewrite <- str_app_assoc, (str_length_app _ "/") in Hp. simpl in Hp. lia.
Qed.

Lemma regular_join_eq (d n : string) :
  regular d → Path.slash_free n = true → Path.join d n = d +:+ "/" +:+ n.
Proof.
  intros Hd Hn. by rewrite join_name, regular_prefix, str_app_assoc.
Qed.

Lemma parent_is_dir_join (m : gmap string node) (d n : string) :
  regular d → Path.slash_free n = true →
  parent_is_dir m (Path.join d n) = is_dir m d.
Proof.
  intros Hd Hn. unfold parent_is_dir, Path.dirname.
  rewrite regular_join_eq, split_app_slash by done. simpl.
  destruct Hd as [Hne _]. by rewrite decide_False.
Qed.

Lemma basename_join (d n : string) :
  Path.slash_free n = true → Path.basename (Path.join d n) = n.
Proof. intros Hn. rewrite join_name by done. by apply basename_child. Qed.

Lemma can_create_join (m : gmap string node) (d n : string) :
  regular d → Path.slash_free n = true →
  can_create m (Path.join d n)
  = is_dir m d && negb (bool_decide (n = EmptyString)).
Proof.
  intros Hd Hn. unfold can_create.
  by rewrite parent_is_dir_join, basename_join.
Qed.

Lemma inside_of_empty (D : string) :
  regular D → inside_of D EmptyString = Path.join D EmptyString.
Proof.
  intros HD. rewrite inside_of_eq by done.
  rewrite (join_name D) by done. rewrite regular_prefix by done.
  rewrite str_app_empty_r. rewrite join_name by done.
  unfold Path.dir_prefix. destruct (decide _) as [E|_].
  - by destruct D.
  - replace (Path.ends_with_slash (D +:+ "/")) with true.
    + by rewrite str_app_empty_r.
    + symmetry. apply ends_with_slash_spec. by exists D.
Qed.

Lemma target_parent (m : gmap string node) (D n : string) :
  regular D → Path.slash_free n = true → is_dir m D = true →
  parent_is_dir m (unit_target m D n) = true.
Proof.
  intros HD Hn Hd. unfold unit_target.
  destruct (is_dir m (Path.join D n)) eqn:E.
  - destruct (decide (n = EmptyString)) as [->|Hne].
    + rewrite inside_of_empty by done. by rewrite parent_is_dir_join.
    + rewrite inside_of_eq by done.
      rewrite parent_is_dir_join; [done| |done].
      apply regular_join. by apply is_name_spec.
  - by rewrite parent_is_dir_join.
Qed.

Lemma can_create_target (m : gmap string node) (D n : string) :
  regular D → Path.slash_free n = true → is_dir m D = true →
  can_create m (unit_target m D n) = negb (bool_decide (n = EmptyString)).
Proof.
  intros HD Hn Hd. unfold can_create. rewrite target_parent by done.
  unfold unit_target. destruct (is_dir m (Path.join D n)).
  - rewrite inside_of_eq by done. by rewrite basename_join.
  - by rewrite basename_join.
Qed.

(** ** Paths of a batch *)

Lemma dir_prefix_join_empty (D : string) :
  regular D → Path.dir_prefix (Path.join D EmptyString) = Path.dir_prefix D.
Proof.
  intros HD. rewrite join_name by done. rewrite (regular_prefix D) by done.
  rewrite str_app_empty_r. unfold Path.dir_prefix.
  destruct (decide _) as [E|_]; [by destruct D|].
  replace (Path.ends_with_slash (D +:+ "/")) with true; [done|].
  symmetry. apply ends_with_slash_spec. by exists D.
Qed.

Lemma apart_paths (S D g n n' : string) :
  apart S D → Path.slash_free g = true → Path.slash_free n = true →
  Path.slash_free n' = true →
  Path.join S g ≠ scratch_of n' ∧ Path.join S g ≠ Path.join D n
  ∧ Path.join S g ≠ inside_of D n ∧ scratch_of n' ≠ Path.join D n
  ∧ scratch_of n' ≠ inside_of D n.
Proof.
  intros (HD & H1 & H2 & H3 & H4) Hg Hn Hn'.
  assert (Path.dir_prefix S ≠ Path.dir_prefix (Path.join D n)
          ∧ Path.dir_prefix tempdir ≠ Path.dir_prefix (Path.join D n))
    as [H5 H6].
  { destruct (decide (n = EmptyString)) as [->|Hne].
    - by rewrite dir_prefix_join_empty.
    - apply H4. by apply is_name_spec. }
  rewrite inside_of_eq by done. unfold scratch_of.
  repeat split; intros E; apply join_inj in E as [E _]; done.
Qed.

Lemma outputs_differ (D n n' : string) :
  Path.slash_free n = true → Path.slash_free n' = true → n ≠ n' →
  Path.join D n ≠ Path.join D n' ∧ Path.join D n ≠ inside_of D n'
  ∧ inside_of D n ≠ Path.join D n' ∧ inside_of D n ≠ inside_of D n'.
Proof.
  intros Hn Hn' Hne. rewrite !inside_of_eq by done.
  repeat split; intros E; apply join_inj in E as [_ E]; done.
Qed.

(** ** What a change of the file system leaves settled *)

Lemma rendering_step A (m m' : gmap string node) (ge tp : string)
    (fl : list string) :
  fs_step A m m' → m !! ge ≠ None →
  (¬ A (ARm ge)) → (¬ A (ARm tp)) → (¬ A (AWrite tp)) →
  rendering m' ge tp fl = rendering m ge tp fl.
Proof.
  intros Hs Hge HRge HRtp HWtp. unfold rendering.
  destruct Hs as [q c t Hq _|q c t Hq Hc|q _ Hq _].
  - rewrite !lookup_delete_ne; [done|by intros ->|by intros ->].
  - rewrite (lookup_insert_ne _ q tp) by by intros ->.
    destruct (decide (q = ge)) as [->|].
    + rewrite lookup_insert_eq. unfold can_write in Hc.
      by destruct (m !! ge) as [[]|].
    + by rewrite lookup_insert_ne.
  - rewrite (lookup_insert_ne _ q ge) by by intros ->.
    destruct (decide (q = tp)) as [->|].
    + rewrite lookup_insert_eq, Hq. by destruct (m !! ge) as [[]|].
    + by rewrite lookup_insert_ne.
Qed.

Lemma can_write_step_back A (m m' : gmap string node) (n : string) :
  regular tempdir → Path.slash_free n = true →
  fs_step A m m' → m !! tempdir ≠ None →
  can_write m' (scratch_of n) = true → can_write m (scratch_of n) = true.
Proof.
  intros HT Hn Hs Htmp Hc.
  assert (is_dir m' tempdir = true → is_dir m tempdir = true) as Hback.
  { intros H. by destruct (fs_step_is_dir_back _ _ _ _ Hs H) as [?|[? _]]. }
  assert (m' !! scratch_of n = m !! scratch_of n →
          can_write m (scratch_of n) = true) as Hsame.
  { intros E. unfold can_write in *. rewrite E in Hc.
    destruct (m !! scratch_of n) as [[]|]; try done.
    unfold scratch_of in *. rewrite can_create_join in * by done.
    apply andb_true_iff in Hc as [Hc1 Hc2].
    by rewrite Hback, Hc2. }
  destruct Hs as [q c t _ Hq|q c t _ Hq|q _ Hq _].
  - destruct (decide (q = scratch_of n)) as [->|].
    + by eapply can_write_file.
    + apply Hsame. by rewrite lookup_delete_ne.
  - destruct (decide (q = scratch_of n)) as [->|]; [done|].
    apply Hsame. by rewrite lookup_insert_ne.
  - destruct (decide (q = scratch_of n)) as [->|].
    + unfold can_write in Hc. by rewrite lookup_insert_eq in Hc.
    + apply Hsame. by rewrite lookup_insert_ne.
Qed.

Lemma target_settled_alt (m : gmap string node) (D n c : string) :
  regular D → Path.slash_free n = true → is_dir m D = true →
  target_settled m D n c ↔
  match m !! unit_target m D n with
  | Some (File c' _) => c' = c
  | Some Dir => True
  | None => n = EmptyString
  end.
Proof.
  intros HD Hn Hd. unfold target_settled. rewrite can_create_target by done.
  destruct (m !! unit_target m D n) as [[]|]; try done.
  rewrite negb_false_iff. split.
  - by intros ?%bool_decide_eq_true.
  - intros ->. by apply bool_decide_eq_true.
Qed.

Lemma unit_settled_step A (m m' : gmap string node) (ge tp n D : string)
    (fl : list string) :
  regular tempdir → regular D → Path.slash_free n = true →
  fs_step A m m' →
  m !! ge ≠ None → m !! tempdir ≠ None → is_dir m D = true →
  (¬ A (ARm ge)) →
  (∀ p, A (ARm p) ∨ A (AWrite p) →
        p ≠ tp ∧ p ≠ Path.join D n ∧ p ≠ inside_of D n) →
  unit_settled m ge tp n D fl → unit_settled m' ge tp n D fl.
Proof.
  intros HT HD Hn Hs Hge Htmp HdD HAge HA Hset c Hr Hc.
  rewrite (rendering_step A m m') in Hr; try done;
    [|intros H; by destruct (HA tp (or_introl H)) as [? _]
     |intros H; by destruct (HA tp (or_intror H)) as [? _]].
  apply (can_write_step_back A m m') in Hc; try done.
  specialize (Hset c Hr Hc).
  pose proof (fs_step_is_dir _ _ _ _ Hs HdD) as HdD'.
  apply target_settled_alt in Hset; [|done..].
  apply target_settled_alt; [done..|].
  unfold unit_target in *.
  destruct Hs as [q c0 t0 HAq Hq|q c0 t0 HAq Hq|q HAq Hq Hcq].
  - destruct (HA q (or_introl HAq)) as (_ & H1 & H2).
    unfold is_dir in *. rewrite (lookup_delete_ne _ q (Path.join D n)) by done.
    destruct (bool_decide (m !! Path.join D n = Some Dir));
      by rewrite lookup_delete_ne.
  - destruct (HA q (or_intror HAq)) as (_ & H1 & H2).
    unfold is_dir in *. rewrite (lookup_insert_ne _ q (Path.join D n)) by done.
    destruct (bool_decide (m !! Path.join D n = Some Dir));
      by rewrite lookup_insert_ne.
  - destruct (decide (q = Path.join D n)) as [->|Hne].
    + exfalso. unfold is_dir in Hset at 1. rewrite Hq in Hset.
      rewrite bool_decide_eq_false_2 in Hset by done.
      rewrite Hq in Hset. subst n.
      rewrite can_create_join in Hcq by done.
      by rewrite andb_false_r in Hcq.
    + unfold is_dir in *.
      rewrite (lookup_insert_ne _ q (Path.join D n)) by done.
      destruct (bool_decide (m !! Path.join D n = Some Dir)) eqn:E.
      * destruct (decide (q = inside_of D n)) as [->|Hne'].
        -- rewrite Hq in Hset. subst n. by rewrite inside_of_empty in Hne.
        -- by rewrite lookup_insert_ne.
      * by rewrite lookup_insert_ne.
Qed.

Lemma no_orphans_step A (S D : string) (m m' : gmap string node) :
  fs_step A m m' →
  (∀ p g, A (ARm p) → Path.slash_free g = true → p ≠ Path.join S g) →
  (∀ p n, A (AWrite p) ∨ A (AMkdir p) → Path.is_name n = true →
          Str.endswith n ".swift" = true → p = Path.join D n →
          m !! Path.join S (n +:+ ".gyb") ≠ None) →
  no_orphans S D m → no_orphans S D m'.
Proof.
  intros Hs HR HW Hno n Hn He Hex.
  assert (Path.slash_free (n +:+ ".gyb") = true) as Hsf.
  { rewrite slash_free_app. by rewrite (is_name_slash_free n). }
  apply (fs_step_exists A m); [done| |].
  { intros H. by eapply HR. }
  destruct (m !! Path.join D n) as [nd|] eqn:E; [apply Hno; congruence|].
  destruct Hs as [q c t HAq Hq|q c t HAq Hq|q HAq Hq Hcq].
  - rewrite lookup_delete_ne in Hex; [done|]. intros ->. congruence.
  - destruct (decide (q = Path.join D n)) as [->|].
    + eapply HW; eauto.
    + by rewrite lookup_insert_ne in Hex.
  - destruct (decide (q = Path.join D n)) as [->|].
    + eapply HW; eauto.
    + by rewrite lookup_insert_ne in Hex.
Qed.

Lemma unit_done_step A (m m' : gmap string node) (ge tp n D : string)
    (fl : list string) :
  fs_step A m m' → m !! ge ≠ None →
  (¬ A (ARm ge)) → (¬ A (ARm (scratch_of n))) →
  (∀ p, A (ARm p) ∨ A (AWrite p) →
        p ≠ tp ∧ p ≠ Path.join D n ∧ p ≠ inside_of D n) →
  unit_done m ge tp n D fl → unit_done m' ge tp n D fl.
Proof.
  intros Hs Hge HAge HAs HA (c & Hr & Hf & t & Ht).
  exists c. split; [|split].
  - rewrite (rendering_step A m m'); try done.
    + intros H; by destruct (HA tp (or_introl H)) as [? _].
    + intros H; by destruct (HA tp (or_intror H)) as [? _].
  - by eapply fs_step_keeps_file.
  - exists t. unfold unit_target in *.
    destruct Hs as [q c0 t0 HAq Hq|q c0 t0 HAq Hq|q HAq Hq Hcq].
    + destruct (HA q (or_introl HAq)) as (_ & H1 & H2).
      unfold is_dir in *. rewrite (lookup_delete_ne _ q (Path.join D n)) by done.
      destruct (bool_decide (m !! Path.join D n = Some Dir));
        by rewrite lookup_delete_ne.
    + destruct (HA q (or_intror HAq)) as (_ & H1 & H2).
      unfold is_dir in *. rewrite (lookup_insert_ne _ q (Path.join D n)) by done.
      destruct (bool_decide (m !! Path.join D n = Some Dir));
        by rewrite lookup_insert_ne.
    + unfold is_dir in *.
      destruct (decide (q = Path.join D n)) as [->|Hne].
      * rewrite Hq in Ht. rewrite bool_decide_eq_false_2 in Ht by done.
        congruence.
      * rewrite (lookup_insert_ne _ q (Path.join D n)) by done.
        destruct (bool_decide (m !! Path.join D n = Some Dir));
          (rewrite lookup_insert_ne; [done|intros ->; congruence]).
Qed.

Lemma unit_done_settled (m : gmap string node) (ge tp n D : string)
    (fl : list string) :
  unit_done m ge tp n D fl → unit_settled m ge tp n D fl.
Proof.
  intros (c & Hr & _ & t & Ht) c' Hr' _. unfold target_settled.
  rewrite Ht. congruence.
Qed.

(** ** What a unit leaves, and what it does when all is settled *)

Lemma rendering_insert_file (m : gmap string node) (ge tp p c c0 : string)
    (t0 : nat) (fl : list string) :
  rendering m ge tp fl = Some c → p ≠ tp →
  rendering (<[p := File c0 t0]> m) ge tp fl = Some c.
Proof.
  unfold rendering. intros H Hne. rewrite (lookup_insert_ne _ p tp) by done.
  destruct (decide (p = ge)) as [->|].
  - rewrite lookup_insert_eq. by destruct (m !! ge) as [[]|].
  - by rewrite lookup_insert_ne.
Qed.

Lemma can_create_insert_file (m : gmap string node) (p q c : string) (t : nat) :
  can_create (<[p := File c t]> m) q = true → can_create m q = true.
Proof.
  unfold can_create, parent_is_dir. intros [H1 H2]%andb_true_iff.
  rewrite H2, andb_true_r. destruct (Path.dirname q) as [d|]; [|done].
  destruct (decide (d = EmptyString)); [done|].
  unfold is_dir in *. apply bool_decide_eq_true in H1.
  apply bool_decide_eq_true. destruct (decide (p = d)) as [->|].
  - by rewrite lookup_insert_eq in H1.
  - by rewrite lookup_insert_ne in H1.
Qed.

Lemma unit_world_settles (ge tp n D : string) (fl : list string) (w : world) :
  tp ≠ scratch_of n → tp ≠ Path.join D n → tp ≠ inside_of D n →
  scratch_of n ≠ Path.join D n → scratch_of n ≠ inside_of D n →
  unit_settled (fs (unit_world ge tp n D fl w)) ge tp n D fl.
Proof.
  intros Hts Htj Hti Hsj Hsi. unfold unit_world.
  destruct (rendering (fs w) ge tp fl) as [c|] eqn:Er;
    [|intros c' Hr'; congruence].
  destruct (can_write (fs w) (scratch_of n)) eqn:Ecw;
    [|intros c' _ Hc'; congruence].
  rewrite unit_target_insert_file by done.
  assert (unit_target (fs w) D n ≠ scratch_of n
          ∧ unit_target (fs w) D n ≠ tp) as [Hns Hnt].
  { unfold unit_target. by destruct (is_dir _ _). }
  set (tgt := unit_target (fs w) D n) in *.
  set (m1 := <[scratch_of n := File c (clock w)]> (fs w)).
  assert (rendering m1 ge tp fl = Some c) as Er1.
  { by apply rendering_insert_file. }
  assert (unit_target m1 D n = tgt) as Et1.
  { by apply unit_target_insert_file. }
  assert (m1 !! tgt = fs w !! tgt) as Em.
  { unfold m1. by rewrite lookup_insert_ne. }
  assert (∀ m', rendering m' ge tp fl = Some c → unit_target m' D n = tgt →
            match m' !! tgt with
            | Some (File c' _) => c' = c
            | Some Dir => True
            | None => can_create m' tgt = false
            end → unit_settled m' ge tp n D fl) as Hclose.
  { intros m' Hr Ht Hm c' Hr' _. unfold target_settled. rewrite Ht.
    assert (c' = c) as -> by congruence. done. }
  assert (∀ t, can_write m1 tgt = true →
            unit_settled (<[tgt := File c t]> m1) ge tp n D fl) as Hwritten.
  { intros t Hcw. apply Hclose.
    - by apply rendering_insert_file.
    - by rewrite unit_target_insert_file.
    - by rewrite lookup_insert_eq. }
  unfold rsync_transfer.
  change (fs (write_file (scratch_of n) c w)) with m1. rewrite Em.
  destruct (fs w !! tgt) as [[c0 t0|]|] eqn:E.
  - destruct (decide (c = c0)) as [->|Hne]; cbn [snd].
    + change (fs (write_file (scratch_of n) c0 w)) with m1.
      apply Hclose; [done..|]. rewrite Em. by rewrite ?E.
    + apply Hwritten. apply (can_write_file _ _ c0 t0). by rewrite Em.
  - cbn [snd]. change (fs (write_file (scratch_of n) c w)) with m1.
    apply Hclose; [done..|]. rewrite Em. by rewrite ?E.
  - destruct (can_create m1 tgt) eqn:Ec; cbn [snd].
    + apply Hwritten. apply can_write_create; [by rewrite Em|done].
    + change (fs (write_file (scratch_of n) c w)) with m1.
      apply Hclose; [done..|]. rewrite Em. by rewrite ?E.
Qed.

Lemma unit_world_quiet (ge tp n D : string) (fl : list string) (w : world) :
  Path.slash_free n = true →
  scratch_of n ≠ Path.join D n → scratch_of n ≠ inside_of D n →
  unit_settled (fs w) ge tp n D fl →
  copied (unit_world ge tp n D fl w) = copied w
  ∧ reach scratch_write (fs w) (fs (unit_world ge tp n D fl w)).
Proof.
  intros Hn Hsj Hsi Hset. unfold unit_world.
  destruct (rendering (fs w) ge tp fl) as [c|] eqn:Er; [|by split].
  destruct (can_write (fs w) (scratch_of n)) eqn:Ecw; [|by split].
  specialize (Hset c Er Ecw). unfold target_settled in Hset.
  rewrite unit_target_insert_file by done.
  assert (unit_target (fs w) D n ≠ scratch_of n) as Hns.
  { unfold unit_target. by destruct (is_dir _ _). }
  set (tgt := unit_target (fs w) D n) in *.
  assert (reach scratch_write (fs w) (<[scratch_of n := File c (clock w)]> (fs w)))
    as Hreach.
  { apply rtc_once. apply fs_step_write; [|done]. by exists n. }
  unfold rsync_transfer. cbn [fs write_file tick set_fs].
  rewrite (lookup_insert_ne _ (scratch_of n) tgt) by done.
  destruct (fs w !! tgt) as [[c0 t0|]|] eqn:E.
  - subst c0. rewrite decide_True by done. by split.
  - by split.
  - destruct (can_create (<[scratch_of n:=File c (clock w)]> (fs w)) tgt) eqn:Ec.
    + apply can_create_insert_file in Ec. congruence.
    + by split.
Qed.

Lemma unit_done_ok (ge tp n D : string) (fl : list string) (w : world) :
  scratch_of n ≠ Path.join D n → scratch_of n ≠ inside_of D n →
  unit_done (fs w) ge tp n D fl → unit_ok ge tp n D fl w = true.
Proof.
  intros Hsj Hsi (c & Hr & (c1 & t1 & Hf) & t & Ht). unfold unit_ok.
  rewrite Hr. rewrite (can_write_file _ _ c1 t1) by done. simpl.
  rewrite unit_target_insert_file by by eapply can_write_file.
  assert (unit_target (fs w) D n ≠ scratch_of n) as Hns.
  { unfold unit_target. by destruct (is_dir _ _). }
  unfold rsync_transfer. cbn [fs write_file tick set_fs].
  rewrite lookup_insert_ne by done. rewrite Ht.
  rewrite decide_True by done. by apply bool_decide_eq_true.
Qed.

(** ** What a sequence of changes leaves as it was *)

Lemma fs_step_frame A (m m' : gmap string node) (p : string) :
  fs_step A m m' → (¬ A (ARm p)) → (¬ A (AWrite p)) → (¬ A (AMkdir p)) →
  m' !! p = m !! p.
Proof.
  intros Hs HR HW HM. destruct Hs as [q c t Hq _|q c t Hq _|q Hq _ _].
  - rewrite lookup_delete_ne; [done|]. by intros ->.
  - rewrite lookup_insert_ne; [done|]. by intros ->.
  - rewrite lookup_insert_ne; [done|]. by intros ->.
Qed.

Lemma reach_frame A (m m' : gmap string node) (p : string) :
  reach A m m' → (¬ A (ARm p)) → (¬ A (AWrite p)) → (¬ A (AMkdir p)) →
  m' !! p = m !! p.
Proof.
  intros H HR HW HM. induction H as [|m1 m2 m3 Hs _ IH]; [done|].
  rewrite IH. by eapply fs_step_frame.
Qed.

Lemma reach_exists A (m m' : gmap string node) (p : string) :
  reach A m m' → (¬ A (ARm p)) → m !! p ≠ None → m' !! p ≠ None.
Proof.
  intros H HR. apply (reach_inv A (λ m, m !! p ≠ None)); [|done].
  intros m1 m2 H1 Hs. by eapply fs_step_exists.
Qed.

Lemma reach_is_dir A (m m' : gmap string node) (p : string) :
  reach A m m' → is_dir m p = true → is_dir m' p = true.
Proof.
  intros H. apply (reach_inv A (λ m, is_dir m p = true)); [|done].
  intros m1 m2 H1 Hs. by eapply fs_step_is_dir.
Qed.

Lemma mkdir_p_last (m m' : gmap string node) (ds : list string) (p : string) :
  mkdir_p m (ds ++ [p]) = Some m' → m' !! p = Some Dir.
Proof.
  unfold mkdir_p. rewrite foldl_app. simpl.
  destruct (foldl mkdir_step (Some m) ds) as [m0|]; simpl; [|done].
  destruct (m0 !! p) as [[c t|]|] eqn:E.
  - done.
  - by intros [= <-].
  - destruct (can_create m0 p); [|done]. intros [= <-].
    by rewrite lookup_insert_eq.
Qed.

Lemma make_dir_if_needed_ok (p : string) (s s' : state) :
  make_dir_if_needed p s = (Ok tt, s') → fs s' !! p ≠ None.
Proof.
  unfold make_dir_if_needed, os_path_exists, os_makedirs, bind, os_op, ret.
  destruct s as [w so se pr]. simpl.
  destruct (fs w !! p) as [nd|] eqn:E; simpl.
  - intros [= <-]. simpl. by rewrite E.
  - rewrite E.
    destruct (mkdir_p (fs w) (ancestors p ++ [p])) as [m'|] eqn:Em; [|done].
    intros [= <-]. simpl. apply mkdir_p_last in Em. by rewrite Em.
Qed.

Lemma make_dir_if_needed_reach (p : string) (s : state) :
  reach only_mkdir (fs s) (fs (make_dir_if_needed p s).2).
Proof. by apply make_dir_if_needed_touches. Qed.

Lemma inside_not_child (D n n1 : string) :
  regular D → Path.slash_free n = true → Path.is_name n1 = true →
  inside_of D n ≠ Path.join D n1.
Proof.
  intros HD Hn Hn1 E. pose proof Hn1 as [Hne Hsf]%is_name_spec.
  destruct (decide (n = EmptyString)) as [->|Hn0].
  - rewrite inside_of_empty in E by done.
    by apply join_inj in E as [_ <-].
  - rewrite inside_of_eq in E by done.
    apply join_inj in E as [E _]; [|done..].
    rewrite dir_prefix_join in E by by apply is_name_spec.
    apply (f_equal String.length) in E.
    rewrite !str_length_app in E. simpl in E.
    destruct n; [done|]. simpl in E. lia.
Qed.

Lemma gyb_name (g : string) :
  Str.endswith g ".gyb" = true → g = Str.drop_last 4 g +:+ ".gyb".
Proof.
  intros [p ->]%endswith_spec.
  change 4 with (String.length ".gyb"). by rewrite drop_last_app.
Qed.

Lemma unit_reach (ge tp n D : string) (ann : bool) (extra : list string)
    (v : bool) (s : state) :
  reach (unit_act n D) (fs s)
    (fs (generate_single_gyb_file ge tp n D tempdir ann extra v s).2).
Proof. apply generate_single_touches; simpl; auto. Qed.

(** ** Where a run changes the file system *)

Lemma startswith_trans (a b c : string) :
  Str.startswith a b = true → Str.startswith b c = true →
  Str.startswith a c = true.
Proof.
  intros [r ->]%startswith_spec [r' ->]%startswith_spec.
  rewrite str_app_assoc. apply startswith_app.
Qed.

Lemma startswith_refl (a : string) : Str.startswith a a = true.
Proof. apply startswith_spec. exists EmptyString. by rewrite str_app_empty_r. Qed.

Lemma startswith_dir_prefix (x : string) :
  Str.startswith (Path.dir_prefix x) x = true.
Proof.
  unfold Path.dir_prefix. destruct (decide (x = EmptyString)) as [->|]; [done|].
  destruct (Path.ends_with_slash x); [apply startswith_refl|apply startswith_app].
Qed.

Lemma join_under (D n : string) :
  Path.slash_free n = true →
  Str.startswith (Path.join D n) (Path.dir_prefix D) = true.
Proof. intros Hn. rewrite join_name by done. apply startswith_app. Qed.

Lemma below_join_under (D n p : string) :
  Path.slash_free n = true →
  Str.startswith p (Path.dir_prefix (Path.join D n)) = true →
  Str.startswith p (Path.dir_prefix D) = true.
Proof.
  intros Hn Hp. eapply startswith_trans; [exact Hp|].
  eapply startswith_trans; [apply startswith_dir_prefix|by apply join_under].
Qed.

Lemma inside_under (D n : string) :
  Path.slash_free n = true →
  Str.startswith (inside_of D n) (Path.dir_prefix D) = true.
Proof.
  intros Hn. rewrite inside_of_eq by done.
  apply (below_join_under D n); [done|]. by apply join_under.
Qed.

Lemma helper_act_in_place (D : string) (a : act) :
  helper_act D a → in_place [D] a.
Proof.
  destruct a as [p|p|p]; simpl; [| |done].
  - intros (n & Hn & _ & ->). right. exists D. split; [apply list_elem_of_here|].
    by apply join_under, is_name_slash_free.
  - intros [H|(n & Hn & [->| ->])]; [by left|right; exists D..];
      (split; [apply list_elem_of_here|]);
      [by apply join_under|by apply inside_under].
Qed.

Lemma syntax_act_in_place (D : string) (a : act) :
  syntax_act (Path.join D "syntax_nodes") a → in_place [D] a.
Proof.
  destruct a as [p|p|p]; simpl; [| |done].
  - intros (n & Hn & _ & _ & ->). right. exists D.
    split; [apply list_elem_of_here|].
    apply (below_join_under D "syntax_nodes"); [done|].
    by apply join_under, is_name_slash_free.
  - intros [H|(n & Hn%values_is_name%is_name_slash_free & [->| ->])];
      [by left|right; exists D..];
      (split; [apply list_elem_of_here|]);
      apply (below_join_under D "syntax_nodes"); try done;
      [by apply join_under|by apply inside_under].
Qed.

Lemma in_place_mono (Ds Ds' : list string) (a : act) :
  (∀ D, D ∈ Ds → D ∈ Ds') → in_place Ds a → in_place Ds' a.
Proof.
  intros H. destruct a as [p|p|p]; simpl; [| |done];
    (intros [?|(D & HD & Hp)]; [by left|right; exists D; auto]).
Qed.

Lemma generate_act_in_place (d1 d2 d3 d4 : option string) (a : act) :
  generate_act d1 d2 d3 d4 a →
  in_place [ dest_dir SWIFTSYNTAX_DIR d1; dest_dir SWIFTSYNTAXBUILDER_DIR d2;
             dest_dir SWIFTSYNTAXPARSER_DIR d3;
             dest_dir SWIFTSYNTAXBUILDERGENERATION_DIR d4 ] a.
Proof.
  unfold generate_act, template_destination.
  intros [H|[H|[H|[H|H]]]];
    [apply helper_act_in_place in H..|apply syntax_act_in_place in H];
    (eapply in_place_mono; [|exact H]); intros D ->%list_elem_of_singleton;
    set_solver.
Qed.

Lemma reach_in_place (Ds : list string) (m m' : gmap string node) (p : string) :
  reach (in_place Ds) m m' → (¬ scratch_path p) →
  (∀ D, D ∈ Ds → Str.startswith p (Path.dir_prefix D) = false) →
  m' !! p = m !! p ∨ (m !! p = None ∧ m' !! p = Some Dir).
Proof.
  intros H Hs HD.
  assert (∀ q, q = p → ¬ (scratch_path q
            ∨ ∃ D, D ∈ Ds ∧ Str.startswith q (Path.dir_prefix D) = true)) as Hq.
  { intros q -> [?|(D & HDs & Hp)]; [done|]. rewrite HD in Hp; done. }
  apply (reach_inv (in_place Ds)
           (λ m1, m1 !! p = m !! p ∨ (m !! p = None ∧ m1 !! p = Some Dir)) m);
    [|done|by left].
  intros m1 m2 H1 Hstep.
  destruct Hstep as [q c t HA _|q c t HA _|q _ Hnone _].
  - rewrite lookup_delete_ne; [done|]. intros ->. by eapply Hq.
  - rewrite lookup_insert_ne; [done|]. intros ->. by eapply Hq.
  - destruct (decide (q = p)) as [->|].
    + right. rewrite lookup_insert_eq. split; [|done].
      destruct H1 as [H1|[H1 H2]]; congruence.
    + by rewrite lookup_insert_ne.
Qed.

(** X1.  A generation run keeps to its directories.  Whatever the
    arguments and the state, a path that is no scratch file of the
    temporary directory and does not lie below one of the four destination
    directories holds after [generate_gyb_files] what it held before, or
    was absent and is now a directory: outside these places no file is
    written, changed or removed.  In particular the templates and the rest
    of the sources are read only. *)
Theorem generation_keeps_to_its_directories (ge : string) (v ann : bool)
    (d1 d2 d3 d4 : option string) (s : state) (p : string) :
  (¬ scratch_path p) →
  (∀ D, D ∈ [ dest_dir SWIFTSYNTAX_DIR d1;
              dest_dir SWIFTSYNTAXBUILDER_DIR d2;
              dest_dir SWIFTSYNTAXPARSER_DIR d3;
              dest_dir SWIFTSYNTAXBUILDERGENERATION_DIR d4 ] →
        Str.startswith p (Path.dir_prefix D) = false) →
  fs (generate_gyb_files ge v ann d1 d2 d3 d4 s).2 !! p = fs s !! p
  ∨ (fs s !! p = None
     ∧ fs (generate_gyb_files ge v ann d1 d2 d3 d4 s).2 !! p = Some Dir).
Proof.
  intros Hs HD. eapply reach_in_place; [|done|done].
  eapply reach_mono; [apply generate_act_in_place|apply generate_touches].
Qed.

Lemma mkdtemp_result (s s' : state) (d : string) :
  tempfile_mkdtemp s = (Ok d, s') →
  ∃ k, d = Path.join tempdir (mkdtemp_name k).
Proof.
  unfold tempfile_mkdtemp, os_op.
  assert (∀ n w d, (mkdtemp_loop n w).1 = Ok d →
            ∃ k, d = Path.join tempdir (mkdtemp_name k)) as H.
  { clear. induction n as [|n IH]; intros w d; simpl; [done|].
    destruct (fs w !! Path.join tempdir (mkdtemp_name (rng w))).
    - apply IH.
    - destruct (can_create _ _); simpl; [|done]. intros [= <-]. eauto. }
  destruct (mkdtemp_loop TMP_MAX s) as [r w] eqn:E. intros [= -> _].
  apply (H TMP_MAX s). by rewrite E.
Qed.

Lemma verify_touches (ge : string) (v : bool) :
  (∀ k, Path.slash_free (mkdtemp_name k) = true) →
  touches (in_place [tempdir]) (verify_generated_files ge v).
Proof.
  intros Hnames.
  assert (∀ d1 d2 d3 d4 a,
            (∀ d, d ∈ [d1; d2; d3; d4] →
                  ∃ k, d = Path.join tempdir (mkdtemp_name k)) →
            generate_act (Some d1) (Some d2) (Some d3) (Some d4) a →
            in_place [tempdir] a) as Hact.
  { intros d1 d2 d3 d4 a Hd Ha. apply generate_act_in_place in Ha. simpl in Ha.
    destruct a as [p|p|p]; simpl in *; [| |done];
      (destruct Ha as [?|(D & HD & Hp)]; [by left|right]);
      exists tempdir; (split; [apply list_elem_of_here|]);
      destruct (Hd D HD) as [k ->];
      by apply (below_join_under tempdir (mkdtemp_name k)). }
  assert (∀ a b, touches (in_place [tempdir]) (check_generated_files_match a b))
    as Hdiff.
  { intros a b. apply touches_check_call. intros w.
    rewrite run_diff, proc_diff_world. apply rtc_refl. }
  assert (touches (in_place [tempdir]) tempfile_mkdtemp) as Htmp.
  { apply touches_os_op. intros w. by apply mkdtemp_loop_reach. }
  unfold verify_generated_files.
  apply touches_bind_ok; [done|]. intros s0 d1 s1 [k1 E1]%mkdtemp_result.
  apply touches_bind_ok; [done|]. intros s1' d2 s2 [k2 E2]%mkdtemp_result.
  apply touches_bind_ok; [done|]. intros s2' d3 s3 [k3 E3]%mkdtemp_result.
  apply touches_bind_ok; [done|]. intros s3' d4 s4 [k4 E4]%mkdtemp_result.
  apply touches_bind.
  { eapply touches_mono; [|apply generate_touches].
    intros a. apply Hact. intros d Hd.
    repeat (apply elem_of_cons in Hd as [->|Hd]; [eauto|]).
    by apply elem_of_nil in Hd. }
  intros _. do 3 (apply touches_bind; [apply Hdiff|]; intros _). apply Hdiff.
Qed.

(** X2.  Verification keeps to the temporary directory.  When the names
    [tempfile.mkdtemp] draws hold no slash, a path that does not lie below
    the temporary directory holds after [verify_generated_files] what it
    held before, or was absent and is now a directory, whatever the outcome:
    the check never writes, changes or removes a file of the package. *)
Theorem verification_keeps_to_the_temporary_directory (ge : string) (v : bool)
    (s : state) (p : string) :
  (∀ k, Path.slash_free (mkdtemp_name k) = true) →
  Str.startswith p (Path.dir_prefix tempdir) = false →
  fs (verify_generated_files ge v s).2 !! p = fs s !! p
  ∨ (fs s !! p = None ∧ fs (verify_generated_files ge v s).2 !! p = Some Dir).
Proof.
  intros Hnames Hp. eapply reach_in_place.
  - by apply verify_touches.
  - intros (n & Hn & ->). unfold scratch_of in Hp.
    by rewrite join_under in Hp.
  - intros D ->%list_elem_of_singleton. done.
Qed.

(** ** The exceptions a run raises *)

Section raises_rules.
Context (F : exn → state → Prop).

Lemma raises_ret {X} (x : X) : raises F (ret x).
Proof. by intros s. Qed.

Lemma raises_raise {X} (e : exn) : (∀ s, F e s) → raises F (raise e : M X).
Proof. intros H s. apply H. Qed.

Lemma raises_modify (f : state → state) : raises F (modify f).
Proof. by intros s. Qed.

Lemma raises_bind {X Y} (m : M X) (k : X → M Y) :
  raises F m → (∀ x, raises F (k x)) → raises F (bind m k).
Proof.
  intros Hm Hk s. specialize (Hm s). unfold bind.
  destruct (m s) as [[x|e] s1]; simpl in *; [apply Hk|done].
Qed.

Lemma raises_if {X} (b : bool) (m1 m2 : M X) :
  raises F m1 → raises F m2 → raises F (if b then m1 else m2).
Proof. by destruct b. Qed.

Lemma raises_for_each {X} (xs : list X) (body : X → M unit) :
  (∀ x, x ∈ xs → raises F (body x)) → raises F (for_each xs body).
Proof.
  induction xs as [|x xs IH]; intros H; simpl; [apply raises_ret|].
  apply raises_bind; [apply H, list_elem_of_here|]. intros _.
  apply IH. intros y Hy. by apply H, list_elem_of_further.
Qed.

Lemma executor_map_ok {X} (f : X → M unit) (xs : list X) (s : state) :
  (executor_map_discarded f xs s).1 = Ok tt.
Proof.
  revert s. induction xs as [|x xs IH]; intros s; simpl; [done|].
  destruct (f x s) as [r s']. apply IH.
Qed.

Lemma raises_executor_map {X} (xs : list X) (f : X → M unit) :
  raises F (executor_map_discarded f xs).
Proof. intros s. by rewrite executor_map_ok. Qed.

Lemma raises_os_op {X} (f : world → outcome X * world) :
  (∀ w e, (f w).1 = Raise e → ∃ x, e = OSError x) →
  (∀ x s, F (OSError x) s) → raises F (os_op f).
Proof.
  intros Hf HF s. unfold os_op. specialize (Hf s).
  destruct (f s) as [[x|e] w]; simpl in *; [done|].
  destruct (Hf e eq_refl) as [x ->]. apply HF.
Qed.

(** The generation run raises what its [rm]s and its units raise, errors of
    the operating system, and [SystemExit(1)]. *)
Section raises_skeleton.
Variables (gyb_exec : string) (add_source_locations : bool).
Hypothesis F_os : ∀ x s, F (OSError x) s.
Hypothesis F_rm : ∀ n D v, raises F (check_call ["rm"; n] (Some D) v).

Lemma os_path_exists_raises (p : string) : raises F (os_path_exists p).
Proof. by intros s. Qed.

Lemma os_listdir_raises (d : string) : raises F (os_listdir d).
Proof.
  apply raises_os_op; [|done]. intros w e.
  destruct (is_dir (fs w) d); simpl; [done|]. intros [= <-]. eauto.
Qed.

Lemma make_dir_if_needed_raises (p : string) : raises F (make_dir_if_needed p).
Proof.
  unfold make_dir_if_needed.
  apply raises_bind; [apply os_path_exists_raises|]. intros b.
  apply raises_if; [|apply raises_ret].
  apply raises_os_op; [|done]. intros w e.
  destruct (fs w !! p); simpl; [intros [= <-]; eauto|].
  destruct (mkdir_p _ _); simpl; [done|]. intros [= <-]. eauto.
Qed.

Lemma clear_raises (S D : string) (v : bool) :
  raises F (clear_gyb_files_from_previous_run S D v).
Proof.
  unfold clear_gyb_files_from_previous_run.
  apply raises_bind; [apply os_listdir_raises|]. intros l.
  apply raises_for_each. intros n _.
  apply raises_if; [|apply raises_ret].
  apply raises_bind; [apply os_path_exists_raises|]. intros b.
  apply raises_if; [apply F_rm|apply raises_ret].
Qed.

Lemma helper_raises (S : string) (dest : option string) (v : bool) :
  raises F (generate_gyb_files_helper S dest gyb_exec add_source_locations v).
Proof.
  unfold generate_gyb_files_helper.
  apply raises_bind; [apply make_dir_if_needed_raises|]. intros _.
  apply raises_bind; [apply make_dir_if_needed_raises|]. intros _.
  apply raises_bind; [apply clear_raises|]. intros _.
  apply raises_bind; [apply os_listdir_raises|]. intros l.
  apply raises_executor_map.
Qed.

Hypothesis F_exit : ∀ s, F (SystemExit 1) s.
Hypothesis F_unit : ∀ tp n D extra v,
  raises F (generate_single_gyb_file gyb_exec tp n D tempdir
              add_source_locations extra v).

Lemma syntax_raises (dest : option string) (v : bool) :
  raises F (generate_syntax_node_template_gyb_files dest gyb_exec
              add_source_locations v).
Proof.
  unfold generate_syntax_node_template_gyb_files.
  apply raises_bind; [apply make_dir_if_needed_raises|]. intros _.
  apply raises_bind; [apply make_dir_if_needed_raises|]. intros _.
  apply raises_bind; [apply os_listdir_raises|]. intros l.
  apply raises_bind.
  - apply raises_for_each. intros n _.
    apply raises_if; [|apply raises_ret].
    apply raises_if; [apply F_rm|apply raises_ret].
  - intros _. apply raises_for_each. intros kv _. apply F_unit.
Qed.

Lemma generate_raises (v : bool) (d1 d2 d3 d4 : option string) :
  raises F (generate_gyb_files gyb_exec v add_source_locations d1 d2 d3 d4).
Proof.
  unfold generate_gyb_files.
  apply raises_bind; [apply raises_modify|]. intros _.
  apply raises_bind.
  { unfold check_gyb_exec, fatal_error.
    apply raises_bind; [apply os_path_exists_raises|]. intros b.
    apply raises_if; [|apply raises_ret].
    apply raises_bind; [apply raises_modify|]. intros _.
    by apply raises_raise. }
  intros _. apply raises_bind.
  { unfold check_rsync, call, fatal_error.
    apply raises_bind.
    - apply raises_bind; [apply raises_ret|]. intros _ s. unfold spawn.
      by destruct (run_process _ _ _).
    - intros rc. apply raises_if; [|apply raises_ret].
      apply raises_bind; [apply raises_modify|]. intros _.
      by apply raises_raise. }
  intros _.
  do 4 (apply raises_bind; [apply helper_raises|]; intros _).
  apply raises_bind; [apply syntax_raises|]. intros _.
  apply raises_modify.
Qed.

End raises_skeleton.
End raises_rules.

Lemma check_call_describes_last (cmd : list string) (cwd : option string)
    (v : bool) :
  raises describes_last (check_call cmd cwd v).
Proof.
  intros s. rewrite check_call_eq. simpl.
  destruct (cwd_ok (fs s) cwd); simpl; [|done].
  destruct (decide ((run_process cmd cwd s).1 = 0%Z)) as [E|E]; simpl; [done|].
  split; [|done]. destruct v; simpl; by rewrite last_snoc.
Qed.

Lemma generate_single_describes_last (ge tp n D : string) (ann : bool)
    (extra : list string) (v : bool) :
  raises describes_last
    (generate_single_gyb_file ge tp n D tempdir ann extra v).
Proof.
  unfold generate_single_gyb_file.
  apply raises_bind; [|intros _]; apply check_call_describes_last.
Qed.

(** X3.  What escapes a generation run.  Whatever the arguments and the
    state, an exception that [generate_gyb_files] raises is an error of the
    operating system, [SystemExit(1)], or a [CalledProcessError] that
    describes the subprocess that was run last: nothing is run after a
    failure that is not swallowed, the status of the error is that process's
    non-zero exit status, and its [output] is [None], so that the failure
    report of the command line always prints [None] for the output. *)
Theorem generation_error_is_of_the_last_process (ge : string) (v ann : bool)
    (d1 d2 d3 d4 : option string) (s : state) :
  match (generate_gyb_files ge v ann d1 d2 d3 d4 s).1 with
  | Ok _ => True
  | Raise e => describes_last e (generate_gyb_files ge v ann d1 d2 d3 d4 s).2
  end.
Proof.
  apply generate_raises; try done.
  - intros n D v'. apply check_call_describes_last.
  - intros tp n D extra v'. apply generate_single_describes_last.
Qed.

(** X4.  A batch swallows the failures of its units.  Whatever the
    templates and the state, [generate_gyb_files_helper] never raises for a
    renderer or an [rsync] that failed: what it raises is an error of the
    operating system or the [CalledProcessError] of an [rm] of its pruning
    loop, and never [SystemExit]. *)
Theorem batch_raises_for_rm_only (S : string) (dest : option string)
    (ge : string) (ann v : bool) (s : state) :
  match (generate_gyb_files_helper S dest ge ann v s).1 with
  | Ok _ => True
  | Raise e => only_rm_fails e (generate_gyb_files_helper S dest ge ann v s).2
  end.
Proof.
  apply helper_raises; [done|].
  intros n D v'. generalize (Some D). intros cwd s'.
  rewrite check_call_eq. simpl.
  destruct (cwd_ok (fs s') cwd); simpl; [|done].
  destruct (decide _); simpl; [done|]. eauto.
Qed.

Lemma try_no_process_error (m : M unit) (d : string) :
  raises no_process_error
    (try_called_process_error m (fail_for_called_process_error d)).
Proof.
  intros s. unfold try_called_process_error.
  destruct (m s) as [[x|[rc cmd out|c|f]] s'] eqn:E; simpl; try done.
Qed.

(** X5.  The command line never ends in a [CalledProcessError].  Whatever
    the SwiftPM step does, [generate_source_code_command] turns every
    failure of a subprocess into an exit; and with [--gyb-only], when it
    exits it is with status 1. *)
Theorem command_exits_instead_of_raising (args : Namespace) (s : state) :
  match (generate_source_code_command args s).1 with
  | Ok _ => True
  | Raise (CalledProcessError _ _ _) => False
  | Raise (SystemExit c) => args_gyb_only args = true → c = 1%Z
  | Raise (OSError _) => True
  end.
Proof.
  unfold generate_source_code_command, bind.
  pose proof (generation_error_is_of_the_last_process (args_gyb_exec args)
                (args_verbose args) (args_add_source_locations args)
                None None None None s) as Hg.
  unfold try_called_process_error at 1.
  destruct (generate_gyb_files _ _ _ _ _ _ _ s) as [[[]|[rc cmd out|c|f]] s1];
    simpl in *; try done.
  pose proof (try_no_process_error
                (if negb (args_gyb_only args)
                 then run_code_generation args
                        (Path.join SWIFTSYNTAXBUILDER_DIR "generated")
                 else ret ())
                "Source generation using SwiftSyntaxBuilder failed" s1) as H2.
  destruct (try_called_process_error _ _ s1) as [[[]|[rc cmd out|c|f]] s2] eqn:E;
    simpl in *; try done.
  intros Hg'. rewrite Hg' in E. simpl in E. done.
Qed.

(** ** One unit, run once and run again *)

Lemma unit_world_quiet_frame (ge tp n D : string) (fl : list string)
    (w : world) (p : string) :
  scratch_of n ≠ Path.join D n → scratch_of n ≠ inside_of D n →
  unit_settled (fs w) ge tp n D fl → p ≠ scratch_of n →
  fs (unit_world ge tp n D fl w) !! p = fs w !! p.
Proof.
  intros Hsj Hsi Hset Hp. unfold unit_world.
  destruct (rendering (fs w) ge tp fl) as [c|] eqn:Er; [|done].
  destruct (can_write (fs w) (scratch_of n)) eqn:Ecw; [|done].
  specialize (Hset c Er Ecw). unfold target_settled in Hset.
  rewrite unit_target_insert_file by done.
  assert (unit_target (fs w) D n ≠ scratch_of n) as Hns.
  { unfold unit_target. by destruct (is_dir _ _). }
  set (tgt := unit_target (fs w) D n) in *.
  unfold rsync_transfer. cbn [fs write_file tick set_fs].
  rewrite (lookup_insert_ne _ (scratch_of n) tgt) by done.
  destruct (fs w !! tgt) as [[c0 t0|]|] eqn:E.
  - subst c0. rewrite decide_True by done. simpl.
    by rewrite lookup_insert_ne.
  - simpl. by rewrite lookup_insert_ne.
  - destruct (can_create (<[scratch_of n:=File c (clock w)]> (fs w)) tgt) eqn:Ec.
    + apply can_create_insert_file in Ec. congruence.
    + simpl. by rewrite lookup_insert_ne.
Qed.

(** X6.  A unit run again transfers nothing.  When the template is not the
    scratch file or the output of the unit, and the scratch file is not its
    output, running [generate_single_gyb_file] a second time right after
    the first makes [rsync] transfer nothing and leaves every path but the
    scratch file as the first run left it: the output keeps its content and
    its modification time. *)
Theorem unit_run_again_transfers_nothing (ge tp n D : string) (ann : bool)
    (extra : list string) (v : bool) (s : state) :
  Path.slash_free n = true →
  tp ≠ scratch_of n → tp ≠ Path.join D n → tp ≠ inside_of D n →
  scratch_of n ≠ Path.join D n → scratch_of n ≠ inside_of D n →
  let s1 := (generate_single_gyb_file ge tp n D tempdir ann extra v s).2 in
  let s2 := (generate_single_gyb_file ge tp n D tempdir ann extra v s1).2 in
  copied s2 = copied s1
  ∧ ∀ p, p ≠ scratch_of n → fs s2 !! p = fs s1 !! p.
Proof.
  intros Hn Hts Htj Hti Hsj Hsi s1 s2.
  assert (unit_settled (fs s1) ge tp n D (line_directive_flags ann ++ extra))
    as Hset.
  { unfold s1. rewrite generate_single_world. by apply unit_world_settles. }
  unfold s2. rewrite !generate_single_world. split.
  - by apply unit_world_quiet.
  - intros p Hp. by apply unit_world_quiet_frame.
Qed.


(** X8.  Without gyb nothing is started.  When nothing is at the path of
    [gyb_exec], [generate_source_code_command] exits with status 1 after the
    banner and one message on the error output: no subprocess is run, not
    even the [rsync] check, and the world is untouched. *)
Theorem missing_gyb_stops_the_command (args : Namespace) (s : state) :
  fs s !! args_gyb_exec args = None →
  (generate_source_code_command args s).1 = Raise (SystemExit 1)
  ∧ world_of (generate_source_code_command args s).2 = world_of s
  ∧ procs (generate_source_code_command args s).2 = procs s
  ∧ stdout (generate_source_code_command args s).2
    = stdout s ++ ["** Generating gyb Files **"]
  ∧ length (stderr (generate_source_code_command args s).2)
    = S (length (stderr s)).
Proof.
  intros H. destruct s as [w so se pr]. simpl in H.
  unfold generate_source_code_command, try_called_process_error, bind,
    generate_gyb_files, check_gyb_exec, os_path_exists, os_op, print, modify,
    fatal_error, printerr, raise, bind.
  simpl. rewrite H. simpl. rewrite length_app. simpl.
  repeat split; try done. lia.
Qed.

(** ** Making directories *)

Lemma mkdir_p_grows (ds : list string) (m m' : gmap string node) :
  mkdir_p m ds = Some m' →
  (∀ q nd, m !! q = Some nd → m' !! q = Some nd)
  ∧ (∀ q, m !! q = None → m' !! q = None ∨ m' !! q = Some Dir).
Proof.
  intros H. apply (mkdir_p_reach only_mkdir) in H; [|done].
  split.
  - intros q nd Hq. revert Hq.
    apply (reach_inv only_mkdir (λ m1, m1 !! q = Some nd) m m'); [|done].
    intros m1 m2 H1 Hs. destruct Hs as [? ? ? HA _|? ? ? HA _|d _ Hd _]; try done.
    rewrite lookup_insert_ne; [done|]. intros ->. congruence.
  - intros q Hq.
    apply (reach_inv only_mkdir
             (λ m1, m1 !! q = None ∨ m1 !! q = Some Dir) m m'); [|done|by left].
    intros m1 m2 H1 Hs.
    destruct Hs as [? ? ? HA _|? ? ? HA _|d _ Hd _]; try done.
    destruct (decide (d = q)) as [->|].
    + right. by rewrite lookup_insert_eq.
    + by rewrite lookup_insert_ne.
Qed.

Lemma make_dir_if_needed_exists (p : string) (s : state) :
  fs s !! p ≠ None → make_dir_if_needed p s = (Ok tt, s).
Proof.
  intros H. destruct s as [w so se pr]. simpl in H.
  unfold make_dir_if_needed, os_path_exists, bind, os_op, ret. simpl.
  destruct (fs w !! p) as [nd|] eqn:E; [|done]. done.
Qed.

(** X9.  [make_dir_if_needed] only adds directories.  When something is
    already at the path, be it a regular file, it returns normally and
    changes nothing.  When it returns normally, the path exists, every node
    there was is as it was, whatever is new is a directory, and calling it
    again changes nothing. *)
Theorem make_dir_if_needed_adds_directories_only (p : string) (s : state) :
  (fs s !! p ≠ None → make_dir_if_needed p s = (Ok tt, s))
  ∧ ∀ s', make_dir_if_needed p s = (Ok tt, s') →
      fs s' !! p ≠ None
      ∧ (∀ q nd, fs s !! q = Some nd → fs s' !! q = Some nd)
      ∧ (∀ q, fs s !! q = None → fs s' !! q = None ∨ fs s' !! q = Some Dir)
      ∧ make_dir_if_needed p s' = (Ok tt, s').
Proof.
  split; [apply make_dir_if_needed_exists|]. intros s' H.
  pose proof (make_dir_if_needed_ok p s s' H) as Hex.
  split; [done|]. split; [|split; [|by apply make_dir_if_needed_exists]].
  - intros q nd Hq. pose proof (make_dir_if_needed_reach p s) as Hr.
    rewrite H in Hr. simpl in Hr. revert Hq.
    apply (reach_inv only_mkdir (λ m1, m1 !! q = Some nd) (fs s) (fs s'));
      [|done].
    intros m1 m2 H1 Hs. destruct Hs as [? ? ? HA _|? ? ? HA _|d _ Hd _]; try done.
    rewrite lookup_insert_ne; [done|]. intros ->. congruence.
  - intros q Hq. pose proof (make_dir_if_needed_reach p s) as Hr.
    rewrite H in Hr. simpl in Hr.
    apply (reach_inv only_mkdir
             (λ m1, m1 !! q = None ∨ m1 !! q = Some Dir) (fs s) (fs s'));
      [|done|by left].
    intros m1 m2 H1 Hs.
    destruct Hs as [? ? ? HA _|? ? ? HA _|d _ Hd _]; try done.
    destruct (decide (d = q)) as [->|].
    + right. by rewrite lookup_insert_eq.
    + by rewrite lookup_insert_ne.
Qed.

(** ** Printing a command *)

Lemma escape_quotes_inj (s t : string) :
  Str.escape_quotes s = Str.escape_quotes t → s = t.
Proof.
  revert t. induction s as [|a s IH]; intros [|b t]; simpl.
  - done.
  - by destruct (decide (b = Str.dquote)).
  - by destruct (decide (a = Str.dquote)).
  - destruct (decide (a = Str.dquote)) as [->|Ha],
             (decide (b = Str.dquote)) as [->|Hb].
    + intros [= H]. by rewrite (IH t H).
    + intros [= <- H]. destruct t as [|c t]; simpl in H; [done|].
      destruct (decide (c = Str.dquote)) as [->|Hc]; [done|].
      injection H as H _. congruence.
    + intros [= -> H]. destruct s as [|c s]; simpl in H; [done|].
      destruct (decide (c = Str.dquote)) as [->|Hc]; [done|].
      injection H as H _. congruence.
    + intros [= -> H]. by rewrite (IH t H).
Qed.

(** X10.  [escapeCmdArg] is faithful.  An argument that holds neither a
    double quote nor a space is printed as it is, and no two arguments are
    printed alike: the command a failure report or the verbose output shows
    determines each argument of the command that was run. *)
Theorem escapeCmdArg_is_faithful (a : string) :
  (Str.contains Str.dquote a = false → Str.contains Str.space a = false →
   escapeCmdArg a = a)
  ∧ ∀ b, escapeCmdArg a = escapeCmdArg b → a = b.
Proof.
  split.
  { intros H1 H2. unfold escapeCmdArg. by rewrite H1, H2. }
  intros b. unfold escapeCmdArg.
  destruct (Str.contains Str.dquote a || Str.contains Str.space a) eqn:Ea,
           (Str.contains Str.dquote b || Str.contains Str.space b) eqn:Eb.
  - intros [= H]. apply str_app_inv_r in H. by apply escape_quotes_inj.
  - intros <-. by simpl in Eb.
  - intros ->. by simpl in Ea.
  - done.
Qed.

(** ** An orphan that [rm] takes for options *)

Lemma os_listdir_dir (d : string) (s : state) :
  is_dir (fs s) d = true → os_listdir d s = (Ok (entries (fs s) d), s).
Proof.
  intros H. destruct s as [w so se pr]. unfold os_listdir, os_op. simpl in *.
  by rewrite H.
Qed.

Lemma os_path_exists_eq (p : string) (s : state) :
  os_path_exists p s = (Ok (bool_decide (is_Some (fs s !! p))), s).
Proof. by destruct s. Qed.

(** X11.  An orphan whose name starts with a dash cannot be pruned.  The
    pruning loop passes the bare name to [rm], which takes a name that
    starts with a dash for options: when the destination holds such an
    entry that ends in [.swift] and has no template,
    [clear_gyb_files_from_previous_run] raises the [CalledProcessError] of
    an [rm], and the entry is still there. *)
Theorem dash_named_orphan_fails_the_pruning (S D : string) (v : bool)
    (s : state) (n : string) :
  is_dir (fs s) D = true →
  Path.is_name n = true → Str.endswith n ".swift" = true →
  Str.startswith n "-" = true →
  fs s !! Path.join D n ≠ None →
  fs s !! Path.join S (n +:+ ".gyb") = None →
  ∃ rc x,
    (clear_gyb_files_from_previous_run S D v s).1
    = Raise (CalledProcessError rc ["rm"; x] None)
    ∧ fs (clear_gyb_files_from_previous_run S D v s).2 !! Path.join D n ≠ None.
Proof.
  intros HD Hn He Hdash Hex Htp.
  pose proof (is_name_slash_free n Hn) as Hsf.
  set (Inv := λ (visited : list string) (st : state),
         is_dir (fs st) D = true ∧ fs st !! Path.join D n ≠ None
         ∧ fs st !! Path.join S (n +:+ ".gyb") = None ∧ n ∉ visited).
  set (Q := λ (r : outcome unit) (st : state),
         ∃ rc x, r = Raise (CalledProcessError rc ["rm"; x] None)
                 ∧ fs st !! Path.join D n ≠ None).
  unfold clear_gyb_files_from_previous_run.
  rewrite (bind_eq_ok _ _ s s (entries (fs s) D)) by by apply os_listdir_dir.
  set (body := λ previous_gyb_gen_file : string, _).
  enough (hoare (Inv []) (for_each (entries (fs s) D) body) Q) as H.
  { apply (H s). repeat split; try done. apply not_elem_of_nil. }
  apply hoare_for_each.
  2: { intros st (_ & _ & _ & Hnot). exfalso. apply Hnot.
       apply entries_spec. split; [done|].
       rewrite <- join_name by done.
       by destruct (fs s !! Path.join D n). }
  intros visited x rest Hl st (H1 & H2 & H3 & H4).
  assert (Path.is_name x = true) as Hx.
  { apply (entries_is_name (fs s) D). rewrite Hl.
    apply elem_of_app. right. apply list_elem_of_here. }
  pose proof (is_name_slash_free x Hx) as Hxsf.
  assert (x ≠ n → Inv (visited ++ [x]) st) as Hskip.
  { intros Hne. repeat split; try done.
    intros [?|?%list_elem_of_singleton]%elem_of_app; done. }
  unfold body.
  destruct (Str.endswith x ".swift") eqn:Ex.
  2: { simpl. apply Hskip. intros ->. congruence. }
  rewrite (bind_eq_ok _ _ st st _ (os_path_exists_eq _ st)).
  destruct (bool_decide (is_Some (fs st !! Path.join S (x +:+ ".gyb")))) eqn:Eb;
    cbn [negb].
  { simpl. apply Hskip. intros ->. apply bool_decide_eq_true in Eb.
    rewrite H3 in Eb. by destruct Eb. }
  rewrite check_call_eq. cbn [cwd_ok]. rewrite H1. rewrite run_rm.
  unfold proc_rm. cbn [resolve].
  assert (∀ st' : state, fs st' = fs st →
            Q (Raise (CalledProcessError 1 ["rm"; x] None)) st') as Hfail.
  { intros st' E. exists 1%Z, x. split; [done|]. by rewrite E. }
  destruct (Str.startswith x "-") eqn:Ed.
  { cbn [fst snd]. rewrite decide_False by done.
    apply Hfail. by destruct v. }
  assert (x ≠ n) as Hne by (intros ->; congruence).
  destruct (fs st !! Path.join D x) as [[c t|]|] eqn:Ef.
  - destruct (rm_denied (Path.join D x)).
    + cbn [fst snd]. rewrite decide_False by done. apply Hfail. by destruct v.
    + cbn [fst snd]. rewrite decide_True by done.
      assert (∀ st' : state, fs st' = delete (Path.join D x) (fs st) →
                Inv (visited ++ [x]) st') as Hok.
      { intros st' E. unfold Inv. rewrite E. repeat split.
        - unfold is_dir in *. apply bool_decide_eq_true in H1.
          apply bool_decide_eq_true. rewrite lookup_delete_ne; [done|].
          intros E'. congruence.
        - rewrite lookup_delete_ne; [done|].
          intros E'. by apply join_inj in E' as [_ E'].
        - apply lookup_delete_None. by right.
        - intros [?|?%list_elem_of_singleton]%elem_of_app; done. }
      apply Hok. by destruct v.
  - cbn [fst snd]. rewrite decide_False by done. apply Hfail. by destruct v.
  - cbn [fst snd]. rewrite decide_False by done. apply Hfail. by destruct v.
Qed.

(** ** The directories verification makes *)

Lemma mkdtemp_fresh (s s' : state) (d : string) :
  tempfile_mkdtemp s = (Ok d, s') →
  fs s !! d = None ∧ fs s' = <[d := Dir]> (fs s).
Proof.
  unfold tempfile_mkdtemp, os_op.
  assert (∀ n w d w', mkdtemp_loop n w = (Ok d, w') →
            fs w !! d = None ∧ fs w' = <[d := Dir]> (fs w)) as H.
  { clear. induction n as [|n IH]; intros w d w'; simpl; [done|].
    destruct (fs w !! Path.join tempdir (mkdtemp_name (rng w))) eqn:E.
    - intros H. by apply IH in H.
    - destruct (can_create _ _); simpl; [|done]. by intros [= <- <-]. }
  destruct (mkdtemp_loop TMP_MAX s) as [r w] eqn:E. intros [= -> <-].
  apply H in E. by destruct s.
Qed.

(** X12.  Verification leaves its directories behind.  When
    [verify_generated_files] returns normally, four directories that were
    not there before, pairwise distinct, each made by [tempfile.mkdtemp]
    in the temporary directory, are there afterwards: nothing it makes is
    cleaned up. *)
Theorem verification_leaves_its_directories (ge : string) (v : bool)
    (s : state) :
  (verify_generated_files ge v s).1 = Ok tt →
  ∃ d1 d2 d3 d4,
    NoDup [d1; d2; d3; d4]
    ∧ ∀ d, d ∈ [d1; d2; d3; d4] →
        (∃ k, d = Path.join tempdir (mkdtemp_name k))
        ∧ fs s !! d = None
        ∧ is_dir (fs (verify_generated_files ge v s).2) d = true.
Proof.
  destruct (verify_generated_files ge v s) as [r sf] eqn:E.
  cbn [fst snd]. intros ->. unfold verify_generated_files in E.
  apply bind_ok_inv in E as (d1 & s1 & H1 & E).
  apply bind_ok_inv in E as (d2 & s2 & H2 & E).
  apply bind_ok_inv in E as (d3 & s3 & H3 & E).
  apply bind_ok_inv in E as (d4 & s4 & H4 & E).
  apply bind_ok_inv in E as ([] & s5 & H5 & E).
  apply bind_ok_inv in E as ([] & s6 & H6 & E).
  apply bind_ok_inv in E as ([] & s7 & H7 & E).
  apply bind_ok_inv in E as ([] & s8 & H8 & E).
  apply check_generated_files_match_ok in H6 as [W6 _].
  apply check_generated_files_match_ok in H7 as [W7 _].
  apply check_generated_files_match_ok in H8 as [W8 _].
  apply check_generated_files_match_ok in E as [W9 _].
  assert (fs sf = fs s5) as Hfs by (by rewrite W9, W8, W7, W6).
  pose proof (mkdtemp_result _ _ _ H1) as K1.
  pose proof (mkdtemp_result _ _ _ H2) as K2.
  pose proof (mkdtemp_result _ _ _ H3) as K3.
  pose proof (mkdtemp_result _ _ _ H4) as K4.
  apply mkdtemp_fresh in H1 as [N1 F1]. apply mkdtemp_fresh in H2 as [N2 F2].
  apply mkdtemp_fresh in H3 as [N3 F3]. apply mkdtemp_fresh in H4 as [N4 F4].
  rewrite F1 in N2, F2. rewrite F2 in N3, F3. rewrite F3 in N4, F4.
  apply lookup_insert_None in N2 as [N2 D12].
  apply lookup_insert_None in N3 as [N3 D23].
  apply lookup_insert_None in N3 as [N3 D13].
  apply lookup_insert_None in N4 as [N4 D34].
  apply lookup_insert_None in N4 as [N4 D24].
  apply lookup_insert_None in N4 as [N4 D14].
  assert (∀ d, is_dir (fs s4) d = true → is_dir (fs sf) d = true) as Hkeep.
  { intros d Hd. rewrite Hfs.
    pose proof (generate_touches ge v false (Some d1) (Some d2) (Some d3)
                  (Some d4) s4) as Hr.
    rewrite H5 in Hr. by eapply reach_is_dir. }
  exists d1, d2, d3, d4. split.
  { repeat (apply NoDup_cons; split;
              [rewrite ?elem_of_cons, elem_of_nil; intuition congruence|]).
    apply NoDup_nil_2. }
  intros d Hd. rewrite !elem_of_cons, elem_of_nil in Hd.
  destruct Hd as [->|[->|[->|[->|[]]]]];
    (split; [done|]); (split; [done|]); apply Hkeep; rewrite F4;
    unfold is_dir; apply bool_decide_eq_true.
  - rewrite !lookup_insert_ne by congruence. by rewrite lookup_insert_eq.
  - rewrite !lookup_insert_ne by congruence. by rewrite lookup_insert_eq.
  - rewrite lookup_insert_ne by congruence. by rewrite lookup_insert_eq.
  - by rewrite lookup_insert_eq.
Qed.

(** ** The [build] command *)

Section build_properties.

Variable platform_system : string.
Variable os_environ : gmap string string.
Variable os_path_realpath : world → string → string.
Variable swiftpm : list string → gmap string string → world → option (Z * world).

Local Abbreviation building := (Builder_build os_environ swiftpm).

Lemma realpath_eq (path : option string) (s : state) :
  realpath os_path_realpath path s = (Ok (os_path_realpath s <$> path), s).
Proof. destruct path, s; reflexivity. Qed.

Lemma Builder_build_eq (self : Builder) (p : string) (s : state) :
  let cmd := swiftpm_call self ++ ["--product"; p] in
  let env :=
    <["SWIFT_SYNTAX_PARSER_LIB_SEARCH_PATH" :=
        Path.join (Path.join (Path.join (toolchain self) "lib") "swift")
          "macosx"]>
      (<["SWIFTCI_USE_LOCAL_DEPS" := "1"]>
         (<["SWIFT_BUILD_SCRIPT_ENVIRONMENT" := "1"]> os_environ)) in
  let s1 := put_stdout ("** Building " +:+ p +:+ " **") s in
  let s2 := if verbose self then put_stdout (escapeCmd cmd) s1 else s1 in
  building self p s =
    match swiftpm cmd env s with
    | Some (rc, w) =>
        (if decide (rc = 0%Z) then Ok tt
         else Raise (CalledProcessError rc cmd None),
         log_proc cmd rc (set_world w s2))
    | None => (Raise (OSError (default EmptyString (head cmd))), s2)
    end.
Proof.
  intros cmd env s1 s2. subst s1 s2.
  unfold Builder_build, check_call_env, bind, print, modify, ret, raise.
  fold cmd env. destruct s as [w so se pr].
  destruct (verbose self); simpl;
    destruct (swiftpm cmd env w) as [[rc w']|]; simpl; try done;
    by destruct (decide (rc = 0%Z)).
Qed.

(** Building products one after the other: the commands that succeeded,
    then at most one that failed. *)
Lemma builds_spec (b : Builder) (ps : list string) (s : state) :
  let cmd_of := λ p, swiftpm_call b ++ ["--product"; p] in
  let r := for_each ps (building b) s in
  ∃ done_ rest,
    procs r.2 = procs s ++ ((λ c, (c, 0%Z)) <$> done_) ++ rest
    ∧ stderr r.2 = stderr s
    ∧ match r.1 with
      | Ok _ => done_ = cmd_of <$> ps ∧ rest = []
      | Raise (CalledProcessError rc cmd out) =>
          out = None ∧ rc ≠ 0%Z ∧ rest = [(cmd, rc)]
          ∧ ∃ more, cmd_of <$> ps = done_ ++ cmd :: more
      | Raise (OSError f) =>
          rest = []
          ∧ ∃ cmd more, cmd_of <$> ps = done_ ++ cmd :: more
                        ∧ f = default EmptyString (head cmd)
      | Raise (SystemExit _) => False
      end.
Proof.
  intros cmd_of. revert s. induction ps as [|p ps IH]; intros s; cbn zeta.
  { exists [], []. simpl. by rewrite app_nil_r. }
  assert (for_each (p :: ps) (building b) s
          = match building b p s with
            | (Ok _, s') => for_each ps (building b) s'
            | (Raise e, s') => (Raise e, s')
            end) as -> by reflexivity.
  rewrite Builder_build_eq. cbn zeta. fold (cmd_of p).
  set (s2 := if verbose b then _ else _).
  assert (procs s2 = procs s ∧ stderr s2 = stderr s) as [Hp He].
  { subst s2. by destruct (verbose b). }
  destruct (swiftpm (cmd_of p) _ s) as [[rc w]|].
  - destruct (decide (rc = 0%Z)) as [->|Hrc].
    + destruct (IH (log_proc (cmd_of p) 0 (set_world w s2)))
        as (d & rest & Hprocs & Herr & Hcase).
      cbv beta iota.
      exists (cmd_of p :: d), rest. rewrite Hprocs, Herr. simpl.
      rewrite Hp, He, <- app_assoc. split; [done|]. split; [done|].
      destruct (for_each ps (building b) _).1 as [[]|[rc c o|c|f]].
      * destruct Hcase as [-> ->]. done.
      * destruct Hcase as (-> & ? & -> & more & Hm).
        repeat split; try done. exists more.
        change (cmd_of p :: (cmd_of <$> ps) = cmd_of p :: (d ++ c :: more)).
        by rewrite Hm.
      * done.
      * destruct Hcase as (-> & c & more & Hm & ->).
        split; [done|]. exists c, more. split; [|done].
        change (cmd_of p :: (cmd_of <$> ps) = cmd_of p :: (d ++ c :: more)).
        by rewrite Hm.
    + cbv beta iota. exists [], [(cmd_of p, rc)]. simpl. rewrite Hp, He.
      repeat split; try done. by exists (cmd_of <$> ps).
  - cbv beta iota. exists [], []. simpl. rewrite Hp, He, app_nil_r.
    repeat split; try done. by exists (cmd_of p), (cmd_of <$> ps).
Qed.

Lemma bind_ret_tt (m : M unit) (s : state) : (m ;; ret tt) s = m s.
Proof. unfold bind, ret. by destruct (m s) as [[[]|e] s']. Qed.

(** The command as a loop over the products. *)
Lemma build_command_eq (args : Build.Namespace) (s : state) :
  build_command platform_system os_environ os_path_realpath swiftpm
      args s =
    try_called_process_error
      (for_each ["SwiftSyntax"; "SwiftSyntaxParser"; "SwiftSyntaxBuilder";
                 "SwiftSyntaxBuilderGeneration"]
         (building
            (Builder_init platform_system (Build.toolchain args)
               (os_path_realpath s <$> Build.build_dir args)
               (Build.multiroot_data_file args) (Build.release args)
               (Build.verbose args) (Build.disable_sandbox args))))
      (fail_for_called_process_error "Building SwiftSyntax failed") s.
Proof.
  unfold build_command, try_called_process_error.
  unfold bind at 1. rewrite realpath_eq.
  set (builder := Builder_init _ _ _ _ _ _ _).
  assert ((building builder "SwiftSyntax" ;;
           building builder "SwiftSyntaxParser" ;;
           building builder "SwiftSyntaxBuilder" ;;
           building builder "SwiftSyntaxBuilderGeneration") s
          = for_each ["SwiftSyntax"; "SwiftSyntaxParser"; "SwiftSyntaxBuilder";
                      "SwiftSyntaxBuilderGeneration"]
              (building builder) s) as ->; [|done].
  cbn [for_each]. unfold bind at 1 4.
  destruct (building builder "SwiftSyntax" s) as [[[]|e] s1]; [|done].
  unfold bind at 1 3.
  destruct (building builder "SwiftSyntaxParser" s1) as [[[]|e] s2];
    [|done].
  unfold bind at 1 2.
  destruct (building builder "SwiftSyntaxBuilder" s2) as [[[]|e] s3];
    [|done].
  by rewrite bind_ret_tt.
Qed.

(** X13.  Building stops at the first failure.  The [build] command runs
    the package manager once per product, in the order SwiftSyntax,
    SwiftSyntaxParser, SwiftSyntaxBuilder, SwiftSyntaxBuilderGeneration,
    every command being the same but for the product.  The trace it adds
    is the commands that succeeded, followed by at most one that did not:
    after a non-zero exit status nothing more is built, the failure is
    reported for that command and the script exits with status 1; a
    command that cannot be started ends the run with [OSError] and no
    report.  [CalledProcessError] never leaves the command. *)
Theorem build_stops_at_the_first_failure (args : Build.Namespace)
    (s : state) :
  let builder :=
    Builder_init platform_system (Build.toolchain args)
      (os_path_realpath s <$> Build.build_dir args)
      (Build.multiroot_data_file args) (Build.release args)
      (Build.verbose args) (Build.disable_sandbox args) in
  let commands :=
    (λ p, swiftpm_call builder ++ ["--product"; p])
      <$> ["SwiftSyntax"; "SwiftSyntaxParser"; "SwiftSyntaxBuilder";
           "SwiftSyntaxBuilderGeneration"] in
  let r := build_command platform_system os_environ os_path_realpath swiftpm
             args s in
  ∃ done_ rest,
    procs r.2 = procs s ++ ((λ c, (c, 0%Z)) <$> done_) ++ rest
    ∧ match r.1 with
      | Ok _ => done_ = commands ∧ rest = [] ∧ stderr r.2 = stderr s
      | Raise (SystemExit code) =>
          code = 1%Z
          ∧ ∃ cmd rc more,
              rc ≠ 0%Z ∧ rest = [(cmd, rc)]
              ∧ commands = done_ ++ cmd :: more
              ∧ stderr r.2
                = stderr s
                  ++ failure_report "Building SwiftSyntax failed" cmd None
      | Raise (OSError f) =>
          rest = [] ∧ stderr r.2 = stderr s
          ∧ ∃ cmd more, commands = done_ ++ cmd :: more
                        ∧ f = default EmptyString (head cmd)
      | Raise (CalledProcessError _ _ _) => False
      end.
Proof.
  intros builder commands r. subst r.
  rewrite build_command_eq. fold builder.
  unfold try_called_process_error.
  destruct (builds_spec builder
              ["SwiftSyntax"; "SwiftSyntaxParser"; "SwiftSyntaxBuilder";
               "SwiftSyntaxBuilderGeneration"] s)
    as (d & rest & Hprocs & Herr & Hcase).
  cbn zeta in Hprocs, Herr, Hcase. fold commands in Hcase.
  destruct (for_each _ (building builder) s) as [[[]|[rc c o|c|f]] s'];
    cbn [fst snd] in *.
  - exists d, rest. split; [done|]. by destruct Hcase as [-> ->].
  - destruct Hcase as (-> & Hrc & -> & more & Hcmds).
    exists d, [(c, rc)].
    unfold fail_for_called_process_error, bind, printerr, modify, raise.
    simpl. split; [done|]. split; [done|].
    exists c, rc, more. rewrite Herr.
    unfold failure_report. by rewrite <- !app_assoc.
  - done.
  - destruct Hcase as (-> & c & more & Hcmds & ->).
    exists d, []. split; [done|]. split; [done|]. split; [done|].
    by exists c, more.
Qed.

End build_properties.

(** ** Reports on the error output *)

#[local] Instance same_stderr_preorder : PreOrder same_stderr.
Proof.
  split; [by intros s|]. intros s1 s2 s3 H1 H2. unfold same_stderr in *.
  by rewrite H2.
Qed.

Lemma check_call_same_stderr (cmd : list string) (cwd : option string)
    (v : bool) :
  keeps same_stderr (check_call cmd cwd v).
Proof.
  intros s. rewrite check_call_eq. cbn zeta.
  destruct v, (cwd_ok _ _); reflexivity.
Qed.

Lemma check_call_not_an_exit (cmd : list string) (cwd : option string)
    (v : bool) :
  raises not_an_exit (check_call cmd cwd v).
Proof.
  intros s. rewrite check_call_eq. cbn zeta.
  destruct (cwd_ok _ _); [|done]. by destruct (decide _).
Qed.

Lemma unit_same_stderr (ge tp n D : string) (ann : bool)
    (extra : list string) (v : bool) :
  keeps same_stderr (generate_single_gyb_file ge tp n D tempdir ann extra v).
Proof.
  unfold generate_single_gyb_file.
  apply keeps_bind; [apply _|apply check_call_same_stderr|]. intros _.
  apply check_call_same_stderr.
Qed.

Lemma unit_not_an_exit (ge tp n D : string) (ann : bool)
    (extra : list string) (v : bool) :
  raises not_an_exit (generate_single_gyb_file ge tp n D tempdir ann extra v).
Proof.
  unfold generate_single_gyb_file.
  apply raises_bind; [apply check_call_not_an_exit|]. intros _.
  apply check_call_not_an_exit.
Qed.

Section reports.
Variable e0 : list string.

Lemma ff_silent {X} (m : M X) :
  keeps same_stderr m → raises not_an_exit m →
  ff (quiet e0) (reported e0) m.
Proof.
  intros Hk Hr s Hs. specialize (Hk s). specialize (Hr s).
  unfold same_stderr, quiet in *.
  destruct (m s).1 as [x|[rc c o|c|f]]; simpl in *; try congruence. done.
Qed.

Lemma ff_fatal_error_reported (message : string) :
  ff (quiet e0) (reported e0) (fatal_error message).
Proof.
  intros s Hs. simpl. exists [message]. split; [done|].
  unfold quiet in Hs. by rewrite Hs.
Qed.

Lemma ff_generate_reported (ge : string) (v ann : bool)
    (d1 d2 d3 d4 : option string) :
  ff (quiet e0) (reported e0) (generate_gyb_files ge v ann d1 d2 d3 d4).
Proof.
  assert (∀ S dest,
            ff (quiet e0) (reported e0)
              (generate_gyb_files_helper S dest ge ann v)) as Hhelper.
  { intros S dest. apply ff_silent.
    - apply helper_keeps.
      + apply _.
      + by intros l s.
      + by intros s ds m' _.
      + intros n D s. unfold spawn. by destruct (run_process _ _ _).
      + intros. apply unit_same_stderr.
    - apply helper_raises; [done|]. intros. apply check_call_not_an_exit. }
  unfold generate_gyb_files.
  apply ff_bind; [by apply ff_modify|]. intros _.
  apply ff_bind.
  { unfold check_gyb_exec. apply ff_bind.
    - apply ff_silent; [apply keeps_read; [apply _|done]|by intros s].
    - intros b. apply ff_if; [apply ff_fatal_error_reported|apply ff_ret]. }
  intros _. apply ff_bind.
  { unfold check_rsync, call. apply ff_bind.
    - apply ff_silent.
      + intros s. unfold bind, ret, spawn. cbn -[run_process].
        by destruct (run_process _ _ _).
      + intros s. unfold bind, ret, spawn. cbn -[run_process].
        by destruct (run_process _ _ _).
    - intros rc. apply ff_if; [apply ff_fatal_error_reported|apply ff_ret]. }
  intros _.
  do 4 (apply ff_bind; [apply Hhelper|]; intros _).
  apply ff_bind; [|intros _; by apply ff_modify].
  apply ff_silent.
  - apply syntax_keeps.
    + apply _.
    + by intros l s.
    + by intros s ds m' _.
    + intros n D s. unfold spawn. by destruct (run_process _ _ _).
    + intros. apply unit_same_stderr.
  - apply syntax_raises.
    + done.
    + intros. apply check_call_not_an_exit.
    + intros. apply unit_not_an_exit.
Qed.

End reports.

(** X14.  The command complains exactly when it exits.  A
    [generate-source-code --gyb-only] run that returns normally has printed
    nothing on the error output; one that ends with [SystemExit] has
    printed at least one line there; one that ends with an error of the
    operating system has printed nothing. *)
Theorem command_reports_when_it_exits (args : Namespace) (s : state) :
  args_gyb_only args = true →
  let r := generate_source_code_command args s in
  match r.1 with
  | Ok _ => stderr r.2 = stderr s
  | Raise (SystemExit _) => ∃ l, l ≠ [] ∧ stderr r.2 = stderr s ++ l
  | Raise (OSError _) => stderr r.2 = stderr s
  | Raise (CalledProcessError _ _ _) => False
  end.
Proof.
  intros Hg r. subst r. unfold generate_source_code_command.
  rewrite Hg. cbn [negb].
  pose proof (ff_generate_reported (stderr s) (args_gyb_exec args)
                (args_verbose args) (args_add_source_locations args)
                None None None None s eq_refl) as H.
  unfold bind, try_called_process_error.
  destruct (generate_gyb_files _ _ _ _ _ _ _ s) as [[[]|[rc c o|c|f]] s1];
    cbn [fst snd] in H; unfold quiet, reported in H; simpl.
  - done.
  - exists (failure_report "Generating .gyb files failed" c o).
    split; [done|]. rewrite H. unfold failure_report.
    by rewrite <- !app_assoc.
  - done.
  - done.
Qed.

End Script.

(** * The claims on the example package *)

(** C1.  Failure isolation, as the code has it.  Two templates, of which
    [B.swift.gyb] fails to render: the renderer is run on both and exits
    with status 1 on [B.swift.gyb]; the output of [A.swift.gyb] is rendered
    and synchronised; but the command returns normally and prints nothing
    on the error output: the failure raised in the worker of the pool is
    dropped with the iterator of [executor.map], and the handler of
    [generate_source_code_command] never sees it. *)
Theorem render_failure_in_batch_is_dropped :
  let r := generate_source_code_command Demo.package_dir Demo.tmp
             Demo.render Demo.nothing_denied Demo.no_code_generation
             (Demo.args false) Demo.one_bad in
  r.1 = Ok tt
  ∧ stderr r.2 = []
  ∧ procs r.2 !! 3
    = Some ([ sys_executable; Demo.gyb_exec;
              "/w/swift-syntax/Sources/SwiftSyntax/B.swift.gyb"; "-o";
              "/tmp/B.swift"; "--line-directive=" ], 1%Z)
  ∧ fs r.2 !! "/w/swift-syntax/Sources/SwiftSyntax/gyb_generated/A.swift"
    = Some (File "a" 2)
  ∧ fs r.2 !! "/w/swift-syntax/Sources/SwiftSyntax/gyb_generated/B.swift"
    = None.
Proof. vm_compute. done. Qed.

(** C2, as stated, fails.  The destination holds [Old.swift], which no
    template produces any more, and [rm] is refused on it: the [rm] exits
    with status 1, the command ends with [SystemExit(1)], no renderer is
    started, and the output of the one template, [A.swift], is not
    generated. *)
Lemma failed_delete_fails_the_run :
  let r := generate_source_code_command Demo.package_dir Demo.tmp
             Demo.render Demo.old_denied Demo.no_code_generation
             (Demo.args false) Demo.stale in
  procs r.2 = [ (["rsync"; "--version"], 0%Z); (["rm"; "Old.swift"], 1%Z) ]
  ∧ r.1 = Raise (SystemExit 1)
  ∧ fs r.2 !! "/w/swift-syntax/Sources/SwiftSyntax/gyb_generated/A.swift"
    = None.
Proof. vm_compute. done. Qed.

Lemma prune_failure_is_fatal_witness :
  let r := generate_source_code_command Demo.package_dir Demo.tmp
             Demo.render Demo.old_denied Demo.no_code_generation
             (Demo.args false) Demo.stale in
  r.1 = Raise (SystemExit 1)
  ∧ last (procs r.2) = Some (["rm"; "Old.swift"], 1%Z)
  ∧ stderr r.2
    = stderr Demo.stale
      ++ failure_report "Generating .gyb files failed" ["rm"; "Old.swift"] None.
Proof.
  apply (prune_failure_is_fatal Demo.package_dir Demo.tmp Demo.render
           Demo.old_denied Demo.no_code_generation (Demo.args false)
           Demo.stale ["rm"; "Old.swift"] 1%Z).
  - reflexivity.
  - vm_compute. apply list_elem_of_further, list_elem_of_here.
  - split; [reflexivity|discriminate].
Defined.

Lemma allow_list_never_pruned_witness :
  let s := Demo.make_state
             [ ("/w/swift-syntax/Sources/SwiftSyntax/gyb_generated", Dir);
               ("/w/swift-syntax/Sources/SwiftSyntax/gyb_generated/syntax_nodes",
                Dir);
               ("/w/swift-syntax/Sources/SwiftSyntax/gyb_generated/syntax_nodes/SyntaxNodes.swift",
                File "kept" 0);
               ("/w/swift-syntax/Sources/SwiftSyntax/gyb_generated/syntax_nodes/Gone.swift",
                File "gone" 0) ] in
  let p := Path.join (template_destination Demo.package_dir None)
             "SyntaxNodes.swift" in
  (¬ generate_act Demo.package_dir Demo.tmp None None None None (ARm p))
  ∧ is_file (fs (generate_gyb_files Demo.package_dir Demo.tmp Demo.render
                   Demo.nothing_denied Demo.gyb_exec false false
                   None None None None s).2) p.
Proof.
  apply (allow_list_never_pruned Demo.package_dir Demo.tmp Demo.render
           Demo.nothing_denied).
  - vm_compute. do 4 apply list_elem_of_further. apply list_elem_of_here.
  - exists "kept", 0. vm_compute. reflexivity.
Defined.

Lemma synchroniser_copies_only_on_difference_witness :
  let s := Demo.make_state
             [ ("/w/swift-syntax/Sources/SwiftSyntax/A.swift.gyb", File "a" 0);
               ("/dst", Dir); ("/dst/A.swift", File "a" 0) ] in
  let r := generate_single_gyb_file Demo.render Demo.nothing_denied
             Demo.gyb_exec "/w/swift-syntax/Sources/SwiftSyntax/A.swift.gyb"
             "A.swift" "/dst" Demo.tmp false [] false s in
  ∃ c, rendering Demo.render (fs s) Demo.gyb_exec
         "/w/swift-syntax/Sources/SwiftSyntax/A.swift.gyb"
         (line_directive_flags false ++ []) = Some c
       ∧ fs r.2 !! scratch_of Demo.tmp "A.swift" = Some (File c (clock s))
       ∧ match fs s !! Path.join "/dst" "A.swift" with
         | Some (File c' t') =>
             if decide (c = c')
             then fs r.2 !! Path.join "/dst" "A.swift" = Some (File c' t')
                  ∧ copied r.2 = copied s
             else fs r.2 !! Path.join "/dst" "A.swift"
                  = Some (File c (S (clock s)))
                  ∧ copied r.2 = copied s ++ [Path.join "/dst" "A.swift"]
         | _ =>
             fs r.2 !! Path.join "/dst" "A.swift" = Some (File c (S (clock s)))
             ∧ copied r.2 = copied s ++ [Path.join "/dst" "A.swift"]
         end.
Proof.
  intros s r.
  apply (synchroniser_copies_only_on_difference Demo.tmp Demo.render
           Demo.nothing_denied Demo.gyb_exec
           "/w/swift-syntax/Sources/SwiftSyntax/A.swift.gyb"
           "A.swift" "/dst" false [] false s r.2).
  - vm_compute. discriminate.
  - vm_compute. reflexivity.
  - vm_compute. reflexivity.
Defined.

(** C6, as stated, fails.  The destination holds [Old.h], the output of a
    template [Old.h.gyb] that is gone: the run completes normally and
    [Old.h] is still there, because the pruning loop looks at names that end
    in [.swift] only. *)
Lemma stale_output_is_not_pruned :
  let s := Demo.make_state
             [ ("/w/swift-syntax/Sources/SwiftSyntax/A.swift.gyb", File "a" 0);
               ("/w/swift-syntax/Sources/SwiftSyntax/gyb_generated", Dir);
               ("/w/swift-syntax/Sources/SwiftSyntax/gyb_generated/Old.h",
                File "old" 0) ] in
  let r := generate_source_code_command Demo.package_dir Demo.tmp
             Demo.render Demo.nothing_denied Demo.no_code_generation
             (Demo.args false) s in
  fs s !! "/w/swift-syntax/Sources/SwiftSyntax/Old.h.gyb" = None
  ∧ r.1 = Ok tt
  ∧ fs r.2 !! "/w/swift-syntax/Sources/SwiftSyntax/gyb_generated/Old.h"
    = Some (File "old" 0).
Proof. vm_compute. done. Qed.

Lemma pruning_removes_swift_orphans_witness :
  let S := "/w/swift-syntax/Sources/SwiftSyntax" in
  let D := "/w/swift-syntax/Sources/SwiftSyntax/gyb_generated" in
  let r := clear_gyb_files_from_previous_run Demo.render Demo.nothing_denied
             S D false Demo.stale in
  fs r.2 !! Demo.old_swift
  = if is_orphan (fs Demo.stale) S D Demo.old_swift then None
    else fs Demo.stale !! Demo.old_swift.
Proof.
  intros S D r.
  apply (pruning_removes_swift_orphans Demo.render Demo.nothing_denied
           S D false Demo.stale r.2).
  vm_compute. reflexivity.
Defined.

(** C9, as stated, fails.  After a run that completes normally the scratch
    file of [A.swift], which was not there before, is still in the
    temporary directory, and that directory is [tempfile.gettempdir()]
    itself. *)
Lemma scratch_file_survives_the_run :
  let r := generate_source_code_command Demo.package_dir Demo.tmp
             Demo.render Demo.nothing_denied Demo.no_code_generation
             (Demo.args false) Demo.fresh in
  r.1 = Ok tt
  ∧ fs Demo.fresh !! scratch_of Demo.tmp "A.swift" = None
  ∧ fs r.2 !! scratch_of Demo.tmp "A.swift" = Some (File "a" 1).
Proof. vm_compute. done. Qed.

Lemma scratch_files_are_left_behind_witness :
  let s := Demo.make_state
             [ ("/w/swift-syntax/Sources/SwiftSyntax/A.swift.gyb", File "a" 0);
               ("/dst", Dir); ("/tmp/Earlier.swift", File "e" 0) ] in
  (∃ c, rendering Demo.render (fs s) Demo.gyb_exec
          "/w/swift-syntax/Sources/SwiftSyntax/A.swift.gyb"
          (line_directive_flags false ++ []) = Some c
        ∧ fs (generate_single_gyb_file Demo.render Demo.nothing_denied
                Demo.gyb_exec "/w/swift-syntax/Sources/SwiftSyntax/A.swift.gyb"
                "A.swift" "/dst" Demo.tmp false [] false s).2
          !! scratch_of Demo.tmp "A.swift" = Some (File c (clock s)))
  ∧ is_file (fs (generate_gyb_files Demo.package_dir Demo.tmp Demo.render
                   Demo.nothing_denied Demo.gyb_exec false false
                   None None None None s).2)
      (scratch_of Demo.tmp "Earlier.swift").
Proof.
  intros s.
  pose proof (scratch_files_are_left_behind Demo.package_dir Demo.tmp
                Demo.render Demo.nothing_denied) as [H1 H2].
  split.
  - apply (H1 Demo.gyb_exec "/w/swift-syntax/Sources/SwiftSyntax/A.swift.gyb"
             "A.swift" "/dst" false [] false s
             (generate_single_gyb_file Demo.render Demo.nothing_denied
                Demo.gyb_exec "/w/swift-syntax/Sources/SwiftSyntax/A.swift.gyb"
                "A.swift" "/dst" Demo.tmp false [] false s).2).
    vm_compute. reflexivity.
  - apply H2.
    + vm_compute. reflexivity.
    + vm_compute. reflexivity.
    + exists "e", 0. vm_compute. reflexivity.
Defined.

Lemma multi_output_expansion_witness :
  let s := Demo.make_state
             [ ("/w/swift-syntax/Sources/SwiftSyntax/gyb_generated", Dir);
               ("/w/swift-syntax/Sources/SwiftSyntax/gyb_generated/syntax_nodes",
                Dir);
               ("/w/swift-syntax/Sources/SwiftSyntax/gyb_generated/syntax_nodes/SyntaxNodes.swift",
                File "stale" 0);
               ("/w/swift-syntax/Sources/SwiftSyntax/gyb_generated/syntax_nodes/Old.swift",
                File "old" 0) ] in
  let r := generate_syntax_node_template_gyb_files Demo.package_dir Demo.tmp
             Demo.render Demo.nothing_denied None Demo.gyb_exec false false
             s in
  let new := drop (length (procs s)) (procs r.2) in
  (["rm"; "Old.swift"], 0%Z) ∈ new
  ∧ NoDup (BASE_KIND_FILES.*1) ∧ NoDup (BASE_KIND_FILES.*2)
  ∧ (∀ e, e ∈ new → head e.1 = Some "rm" →
       ∃ n, e.1 = ["rm"; n] ∧ Str.endswith n ".swift" = true
            ∧ n ∉ BASE_KIND_FILES.*2)
  ∧ filter (λ e, head e.1 = Some sys_executable) new
    = (λ kv, (gyb_command Demo.gyb_exec
                (syntax_template Demo.package_dir) kv.2 Demo.tmp false
                ["-DEMIT_KIND=" +:+ kv.1], 0%Z)) <$> BASE_KIND_FILES
  ∧ ∀ k out, (k, out) ∈ BASE_KIND_FILES →
      ∃ body t,
        fs s !! syntax_template Demo.package_dir = Some (File body t)
        ∧ expansion_in_place Demo.package_dir Demo.tmp Demo.render (fs r.2)
            (template_destination Demo.package_dir None) body false k out.
Proof.
  intros s r new.
  destruct (multi_output_expansion Demo.package_dir Demo.tmp Demo.render
              Demo.nothing_denied None Demo.gyb_exec false false s)
    as (Hk & Hv & Hrm & Hok).
  split; [vm_compute; apply list_elem_of_here|].
  split; [exact Hk|]. split; [exact Hv|]. split; [exact Hrm|].
  apply Hok. vm_compute. reflexivity.
Defined.


(** * Further properties on the example package *)

Lemma generation_keeps_to_its_directories_witness :
  let r := generate_gyb_files Demo.package_dir Demo.tmp Demo.render
             Demo.nothing_denied Demo.gyb_exec false false
             None None None None Demo.fresh in
  fs r.2 !! Demo.a_template = fs Demo.fresh !! Demo.a_template
  ∨ (fs Demo.fresh !! Demo.a_template = None
     ∧ fs r.2 !! Demo.a_template = Some Dir).
Proof.
  intros r.
  apply (generation_keeps_to_its_directories Demo.package_dir Demo.tmp
           Demo.render Demo.nothing_denied Demo.gyb_exec false false
           None None None None Demo.fresh Demo.a_template).
  - intros (n & Hn & E). unfold scratch_of in E.
    rewrite join_name in E by done. vm_compute in E. discriminate.
  - intros D HD.
    repeat (apply elem_of_cons in HD as [->|HD]; [vm_compute; reflexivity|]).
    by apply elem_of_nil in HD.
Defined.

Lemma verification_keeps_to_the_temporary_directory_witness :
  let r := verify_generated_files Demo.package_dir Demo.tmp Demo.render
             Demo.nothing_denied Demo.plain_name Demo.gyb_exec false
             Demo.fresh in
  fs r.2 !! Demo.a_template = fs Demo.fresh !! Demo.a_template
  ∨ (fs Demo.fresh !! Demo.a_template = None
     ∧ fs r.2 !! Demo.a_template = Some Dir).
Proof.
  intros r.
  apply (verification_keeps_to_the_temporary_directory Demo.package_dir
           Demo.tmp Demo.render Demo.nothing_denied Demo.plain_name
           Demo.gyb_exec false Demo.fresh Demo.a_template).
  - intros [|[|[|k]]]; reflexivity.
  - vm_compute. reflexivity.
Defined.

Lemma unit_run_again_transfers_nothing_witness :
  let s1 := (generate_single_gyb_file Demo.render Demo.nothing_denied
               Demo.gyb_exec Demo.a_template "A.swift" "/w" Demo.tmp
               false [] false Demo.fresh).2 in
  let s2 := (generate_single_gyb_file Demo.render Demo.nothing_denied
               Demo.gyb_exec Demo.a_template "A.swift" "/w" Demo.tmp
               false [] false s1).2 in
  copied s2 = copied s1
  ∧ ∀ p, p ≠ scratch_of Demo.tmp "A.swift" → fs s2 !! p = fs s1 !! p.
Proof.
  apply (unit_run_again_transfers_nothing Demo.tmp Demo.render
           Demo.nothing_denied Demo.gyb_exec Demo.a_template "A.swift" "/w"
           false [] false Demo.fresh); by vm_compute.
Defined.


Lemma missing_gyb_stops_the_command_witness :
  let args := {| args_gyb_exec := "/nowhere/gyb"; args_verbose := false;
                 args_add_source_locations := false;
                 args_gyb_only := true |} in
  let r := generate_source_code_command Demo.package_dir Demo.tmp Demo.render
             Demo.nothing_denied Demo.no_code_generation args Demo.fresh in
  r.1 = Raise (SystemExit 1)
  ∧ world_of r.2 = world_of Demo.fresh
  ∧ procs r.2 = procs Demo.fresh
  ∧ stdout r.2 = stdout Demo.fresh ++ ["** Generating gyb Files **"]
  ∧ length (stderr r.2) = S (length (stderr Demo.fresh)).
Proof.
  intros args r.
  apply (missing_gyb_stops_the_command Demo.package_dir Demo.tmp Demo.render
           Demo.nothing_denied Demo.no_code_generation args Demo.fresh).
  vm_compute. reflexivity.
Defined.

Lemma make_dir_if_needed_adds_directories_only_witness :
  let r := make_dir_if_needed "/w/out/gyb_generated" Demo.fresh in
  fs r.2 !! "/w/out/gyb_generated" ≠ None
  ∧ (∀ q nd, fs Demo.fresh !! q = Some nd → fs r.2 !! q = Some nd)
  ∧ (∀ q, fs Demo.fresh !! q = None →
          fs r.2 !! q = None ∨ fs r.2 !! q = Some Dir)
  ∧ make_dir_if_needed "/w/out/gyb_generated" r.2 = (Ok tt, r.2).
Proof.
  intros r.
  apply (make_dir_if_needed_adds_directories_only "/w/out/gyb_generated"
           Demo.fresh).
  vm_compute. reflexivity.
Defined.

Lemma escapeCmdArg_is_faithful_witness :
  escapeCmdArg "-DEMIT_KIND=Decl" = "-DEMIT_KIND=Decl"
  ∧ ∀ b, escapeCmdArg "-DEMIT_KIND=Decl" = escapeCmdArg b →
         "-DEMIT_KIND=Decl" = b.
Proof.
  destruct (escapeCmdArg_is_faithful "-DEMIT_KIND=Decl") as [Hplain Hinj].
  split; [apply Hplain; reflexivity|exact Hinj].
Defined.

Lemma dash_named_orphan_fails_the_pruning_witness :
  let S := "/w/swift-syntax/Sources/SwiftSyntax" in
  let D := "/w/swift-syntax/Sources/SwiftSyntax/gyb_generated" in
  let s := Demo.make_state
             [ (D, Dir); (Path.join D "-Old.swift", File "old" 0) ] in
  let r := clear_gyb_files_from_previous_run Demo.render Demo.nothing_denied
             S D false s in
  ∃ rc x, r.1 = Raise (CalledProcessError rc ["rm"; x] None)
          ∧ fs r.2 !! Path.join D "-Old.swift" ≠ None.
Proof.
  intros S D s r.
  apply (dash_named_orphan_fails_the_pruning Demo.render Demo.nothing_denied
           S D false s "-Old.swift");
    try (vm_compute; reflexivity).
  vm_compute. discriminate.
Defined.

Lemma verification_leaves_its_directories_witness :
  let s := (generate_gyb_files Demo.package_dir Demo.tmp Demo.render
              Demo.nothing_denied Demo.gyb_exec false false
              None None None None Demo.fresh).2 in
  let r := verify_generated_files Demo.package_dir Demo.tmp Demo.render
             Demo.nothing_denied Demo.temp_name Demo.gyb_exec false s in
  ∃ d1 d2 d3 d4,
    NoDup [d1; d2; d3; d4]
    ∧ ∀ d, d ∈ [d1; d2; d3; d4] →
        (∃ k, d = Path.join Demo.tmp (Demo.temp_name k))
        ∧ fs s !! d = None
        ∧ is_dir (fs r.2) d = true.
Proof.
  intros s r.
  apply (verification_leaves_its_directories Demo.package_dir Demo.tmp
           Demo.render Demo.nothing_denied Demo.temp_name Demo.gyb_exec
           false s).
  vm_compute. reflexivity.
Defined.

Lemma command_reports_when_it_exits_witness :
  let r := generate_source_code_command Demo.package_dir Demo.tmp Demo.render
             Demo.nothing_denied Demo.no_code_generation (Demo.args false)
             Demo.one_bad in
  match r.1 with
  | Ok _ => stderr r.2 = stderr Demo.one_bad
  | Raise (SystemExit _) => ∃ l, l ≠ [] ∧ stderr r.2 = stderr Demo.one_bad ++ l
  | Raise (OSError _) => stderr r.2 = stderr Demo.one_bad
  | Raise (CalledProcessError _ _ _) => False
  end.
Proof.
  apply (command_reports_when_it_exits Demo.package_dir Demo.tmp Demo.render
           Demo.nothing_denied Demo.no_code_generation (Demo.args false)
           Demo.one_bad).
  reflexivity.
Defined.
